(** * The C++ frontend of fuzz-introspector: an embedding of
      [frontends/frontend_cpp.py] and the properties of its analyses.

    The frontend walks a tree-sitter syntax tree.  Python classes become
    modules holding a record [t] and the methods; mutation of [self] is
    explicit state passing; exceptions are the [Raise] outcome of the
    [result] type; Python [dict]s are association lists in insertion order
    (the order [dict.items()] iterates in). *)

From Stdlib Require Import List String Ascii Arith Bool ZArith Lia.
From Stdlib Require Import DecimalString Permutation Sorted.
Import ListNotations.
Local Open Scope list_scope.
Local Open Scope string_scope.

(** ** Outcomes of a call *)

Inductive exn : Type :=
| AttributeError   (* attribute access on [None], or a missing attribute *)
| ValueError.      (* tuple unpacking of a list of the wrong length *)

(** [OutOfFuel] is not a Python outcome: it is what a function defined by
    recursion on a fuel counter answers when the counter is too small. *)
Inductive result (A : Type) : Type :=
| Ok (a : A)
| Raise (e : exn)
| OutOfFuel.

Arguments Ok {A} a.
Arguments Raise {A} e.
Arguments OutOfFuel {A}.

Definition bind {A B : Type} (m : result A) (k : A -> result B) : result B :=
  match m with
  | Ok a => k a
  | Raise e => Raise e
  | OutOfFuel => OutOfFuel
  end.

Notation "x <- m ;; k" := (bind m (fun x => k))
  (at level 61, m at next level, right associativity).
Notation "' pat <- m ;; k" := (bind m (fun x => match x with pat => k end))
  (at level 61, pat pattern, m at next level, right associativity).

(** ** Python string operations *)

Module Str.

(** [s.startswith(p)] *)
Fixpoint startswith (s p : string) {struct p} : bool :=
  match p with
  | EmptyString => true
  | String a p' =>
      match s with
      | EmptyString => false
      | String b s' => Ascii.eqb a b && startswith s' p'
      end
  end.

(** [s[n:]] *)
Fixpoint drop (n : nat) (s : string) : string :=
  match n with
  | 0 => s
  | S k => match s with
           | EmptyString => EmptyString
           | String _ s' => drop k s'
           end
  end.

(** [sub in s] *)
Fixpoint contains (sub s : string) : bool :=
  startswith s sub ||
  match s with
  | EmptyString => false
  | String _ s' => contains sub s'
  end.

(** [s.endswith(p)] *)
Definition endswith (s p : string) : bool :=
  Nat.leb (String.length p) (String.length s) &&
  String.eqb (drop (String.length s - String.length p) s) p.

(** [s.rsplit(sep, 1)] for a non-empty [sep]: cut at the occurrence of
    [sep] with the highest index (what [rfind] returns); the list has one
    element when [sep] does not occur and two when it does. *)
Fixpoint rsplit1 (sep s : string) : list string :=
  match s with
  | EmptyString => [EmptyString]
  | String c s' =>
      match rsplit1 sep s' with
      | [l; r] => [String c l; r]
      | _ => if startswith s sep
             then [EmptyString; drop (String.length sep) s]
             else [s]
      end
  end.

(** [s.split(sep)] for a non-empty [sep]: scan from the left, cut at each
    occurrence of [sep] and resume after it.  [skip] counts the characters
    of a separator still to jump over and [cur] holds the characters of
    the current piece, most recent first. *)
Fixpoint split_from (sep : string) (skip : nat) (cur : list ascii)
         (s : string) : list string :=
  match s with
  | EmptyString => [string_of_list_ascii (rev cur)]
  | String c s' =>
      match skip with
      | S k => split_from sep k cur s'
      | 0 =>
          if startswith s sep
          then string_of_list_ascii (rev cur)
                 :: split_from sep (String.length sep - 1) [] s'
          else split_from sep 0 (c :: cur) s'
      end
  end.

Definition split (sep s : string) : list string := split_from sep 0 [] s.

(** [s.split(sep, 1)]: cut at the first occurrence only. *)
Fixpoint split_first (sep s : string) : list string :=
  match s with
  | EmptyString => [EmptyString]
  | String c s' =>
      if startswith s sep
      then [EmptyString; drop (String.length sep) s]
      else match split_first sep s' with
           | l :: rest => String c l :: rest
           | [] => [s]
           end
  end.

(** [sep.join(l)] *)
Definition join (sep : string) (l : list string) : string :=
  String.concat sep l.

(** [s * n] *)
Fixpoint repeat (s : string) (n : nat) : string :=
  match n with
  | 0 => EmptyString
  | S k => s ++ repeat s k
  end.

(** [str(n)] and ['%d' % n] *)
Definition of_nat (n : nat) : string :=
  NilZero.string_of_uint (Nat.to_uint n).

Definition of_Z (z : Z) : string :=
  NilZero.string_of_int (Z.to_int z).

(** Truthiness of a string: [if s:]. *)
Definition nonempty (s : string) : bool :=
  match s with
  | EmptyString => false
  | String _ _ => true
  end.

End Str.

(** ** Helpers for Python control flow *)

(** A [for] loop whose body may raise and which threads a state. *)
Fixpoint foldM {A S : Type} (body : S -> A -> result S) (l : list A) (s : S)
  : result S :=
  match l with
  | [] => Ok s
  | x :: l' => s' <- body s x ;; foldM body l' s'
  end.

(** [x in l] for a list (or set) of strings. *)
Definition mem (x : string) (l : list string) : bool :=
  existsb (String.eqb x) l.

(** The first element a function answers [Some] on. *)
Fixpoint first_some {A B : Type} (f : A -> option B) (l : list A) : option B :=
  match l with
  | [] => None
  | x :: l' => match f x with
               | Some b => Some b
               | None => first_some f l'
               end
  end.

(** ** Python dictionaries with string keys, in insertion order *)

Module Dict.

Definition t (V : Type) : Type := list (string * V).

(** [d.get(k)]; [k in d] is [get d k <> None]. *)
Fixpoint get {V : Type} (d : t V) (k : string) : option V :=
  match d with
  | [] => None
  | (k', v) :: d' => if String.eqb k' k then Some v else get d' k
  end.

(** [d[k] = v]: an existing key keeps its position, a new key goes last. *)
Fixpoint set {V : Type} (d : t V) (k : string) (v : V) : t V :=
  match d with
  | [] => [(k, v)]
  | (k', v') :: d' =>
      if String.eqb k' k then (k, v) :: d' else (k', v') :: set d' k v
  end.

(** [d.update(other)] *)
Definition update {V : Type} (d other : t V) : t V :=
  fold_left (fun acc kv => set acc (fst kv) (snd kv)) other d.

(** [{key(x): x for x in l}] *)
Definition of_list {V : Type} (key : V -> string) (l : list V) : t V :=
  fold_left (fun acc x => set acc (key x) x) l [].

Definition keys {V : Type} (d : t V) : list string := map fst d.
Definition values {V : Type} (d : t V) : list V := map snd d.

End Dict.

(** ** Syntax-tree nodes, as the tree-sitter binding exposes them *)

Module Node.

(** [field] is the field name the node carries in its parent (tree-sitter
    attaches field names to the children of a node). *)
#[warnings="-register-all"]
Inductive t : Type := mk {
  type : string;
  is_named : bool;
  field : option string;
  text : string;            (* [node.text.decode()] *)
  start_row : nat;          (* [node.start_point.row] *)
  end_row : nat;            (* [node.end_point.row] *)
  end_byte : nat;           (* [node.byte_range[1]] *)
  children : list t
}.

Definition has_field (name : string) (n : t) : bool :=
  match field n with
  | Some f => String.eqb f name
  | None => false
  end.

(** [node.child_by_field_name(name)]: the first child with that field. *)
Definition child_by_field_name (n : t) (name : string) : option t :=
  find (has_field name) (children n).

End Node.

(** ** The global resolver, [get_function_node] (lines 643-664) *)

Definition get_function_node {V : Type} (target_name : string)
           (function_map : Dict.t V) (one_layer_only : bool) : option V :=
  (* Exact match *)
  match Dict.get function_map target_name with
  | Some func => Some func
  | None =>
      (* Match any key that ends with target_name, then split the
         target_name by :: and check one by one *)
      let name_split :=
        if one_layer_only then Str.split_first "::" target_name
        else Str.split "::" target_name in
      first_some
        (fun count =>
           first_some
             (fun item : string * V =>
                if Str.endswith (fst item)
                                (Str.join "::" (skipn count name_split))
                then Some (snd item) else None)
             function_map)
        (seq 0 (List.length name_split))
  end.

(** ** [class FunctionDefinition] (lines 137-366) *)

Module FunctionDefinition.

(** [parent_source] keeps the one attribute of the owning unit that the
    class reads, its [source_file]. *)
Record t : Type := mk {
  root : Node.t;
  parent_source : string;
  namespace_or_class : string;
  start_line : nat;
  end_line : nat;
  name : string;
  complexity : nat;
  icount : nat;
  arg_names : list string;
  arg_types : list string;
  return_type : string;
  sig : string;
  function_uses : nat;
  function_depth : nat;
  base_callsites : list (string * nat);
  detailed_callsites : list (string * string)   (* [{'Src': _, 'Dst': _}] *)
}.

Definition set_base_callsites (self : t) (l : list (string * nat)) : t :=
  mk (root self) (parent_source self) (namespace_or_class self)
     (start_line self) (end_line self) (name self) (complexity self)
     (icount self) (arg_names self) (arg_types self) (return_type self)
     (sig self) (function_uses self) (function_depth self)
     l (detailed_callsites self).

Definition set_detailed_callsites (self : t) (l : list (string * string)) : t :=
  mk (root self) (parent_source self) (namespace_or_class self)
     (start_line self) (end_line self) (name self) (complexity self)
     (icount self) (arg_names self) (arg_types self) (return_type self)
     (sig self) (function_uses self) (function_depth self)
     (base_callsites self) l.

(** The two loops of lines 173-186: the state is [self.name] and
    [param_list_node]. *)
Definition scan_function_declarator (st : string * option Node.t)
           (decl : Node.t) : string * option Node.t :=
  if Str.contains "identifier" (Node.type decl)
  then (Node.text decl, snd st)
  else if String.eqb (Node.type decl) "parameter_list"
       then (fst st, Some decl)
       else st.

Definition scan_declarator (st : string * option Node.t)
           (child : Node.t) : string * option Node.t :=
  if Str.contains "identifier" (Node.type child)
  then (Node.text child, snd st)
  else if String.eqb (Node.type child) "function_declarator"
       then fold_left scan_function_declarator (Node.children child) st
       else if String.eqb (Node.type child) "parameter_list"
            then (fst st, Some child)
            else st.

(** Lines 188-194: a class or namespace in the function name.  The pair is
    the new [(namespace_or_class, name)]. *)
Definition split_qualified_name (namespace_or_class name : string)
  : result (string * string) :=
  if Str.contains "::" name then
    match Str.rsplit1 "::" name with
    | [prefix; name'] =>
        if Str.nonempty namespace_or_class && Str.nonempty prefix
        then Ok (namespace_or_class ++ "::" ++ prefix, name')
        else Ok (prefix, name')
    | _ => Raise ValueError
    end
  else Ok (namespace_or_class, name).

(** The [while param_name.type == kind] loops of lines 215-223: the
    number of wrappers of that kind and the node under them.  The inner
    [fix] is [child_by_field_name('declarator')]; when it finds no child
    the next test of the loop reads [.type] of [None]. *)
Fixpoint strip_declarators (kind : string) (param_name : Node.t)
         {struct param_name} : result (nat * Node.t) :=
  if String.eqb (Node.type param_name) kind then
    (fix declarator_of (l : list Node.t) : result (nat * Node.t) :=
       match l with
       | [] => Raise AttributeError
       | c :: l' =>
           if Node.has_field "declarator" c
           then '(count, inner) <- strip_declarators kind c ;;
                Ok (S count, inner)
           else declarator_of l'
       end) (Node.children param_name)
  else Ok (0, param_name).

(** The body of the parameter loop (lines 205-228); the state is
    [(arg_types, arg_names)]. *)
Definition scan_parameter (st : list string * list string) (param : Node.t)
  : result (list string * list string) :=
  if String.eqb (Node.type param) "parameter_declaration" then
    match Node.child_by_field_name param "type",
          Node.child_by_field_name param "declarator" with
    | Some param_type, Some param_name =>
        '(pointer_count, param_name) <-
           strip_declarators "pointer_declarator" param_name ;;
        '(array_count, param_name) <-
           strip_declarators "array_declarator" param_name ;;
        Ok ((fst st ++ [(Node.text param_type ++ Str.repeat "*" pointer_count
                           ++ Str.repeat "[]" array_count)%string])%list,
            (snd st ++ [Node.text param_name])%list)
    | _, _ => Ok st      (* Skip empty param name and type *)
    end
  else Ok st.

Definition branch_nodes : list string :=
  [ "if_statement"; "switch_statement"; "do_statement";
    "while_statement"; "for_statement"; "for_range_loop";
    "try_statement"; "seh_try_statement"; "throw_statement";
    "goto_statement"; "co_return_statement"; "co_yield_statement";
    "break_statement"; "continue_statement"; "&&"; "||" ].

Fixpoint _traverse_node_complexity (node : Node.t) : nat :=
  (if mem (Node.type node) branch_nodes then 1 else 0)
  + (fix over_children (l : list Node.t) : nat :=
       match l with
       | [] => 0
       | item :: l' => _traverse_node_complexity item + over_children l'
       end) (Node.children node).

Fixpoint _traverse_node_instr_count (node : Node.t) : nat :=
  (if Str.contains "statement" (Node.type node) then 1 else 0)
  + (fix over_children (l : list Node.t) : nat :=
       match l with
       | [] => 0
       | item :: l' => _traverse_node_instr_count item + over_children l'
       end) (Node.children node).

(** [_extract_information] together with the field defaults of
    [__init__]; [_process_complexity] and [_process_icount] add the two
    traversals to the initial 0. *)
Definition _extract_information (root : Node.t) (source_file : string)
           (namespace : string) : result t :=
  match Node.child_by_field_name root "declarator" with
  | None => Raise AttributeError            (* [name_node.text] *)
  | Some name_node =>
      let sig := Node.text name_node in
      let '(name, param_list_node) :=
        fold_left scan_declarator (Node.children name_node) ("", None) in
      '(namespace_or_class, name) <- split_qualified_name namespace name ;;
      let return_type :=
        match Node.child_by_field_name root "type" with
        | Some type_node => Node.text type_node
        | None => "void"
        end in
      match param_list_node with
      | None => Raise AttributeError        (* [param_list_node.children] *)
      | Some param_list_node =>
          '(arg_types, arg_names) <-
             foldM scan_parameter (Node.children param_list_node) ([], []) ;;
          Ok (mk root source_file namespace_or_class
                 (Node.start_row root + 1) (Node.end_row root + 1)
                 name
                 (0 + _traverse_node_complexity root)
                 (0 + _traverse_node_instr_count root)
                 arg_names arg_types return_type sig 0 0 [] [])
      end
  end.

(** [FunctionDefinition(root, tree_sitter_lang, source_code, namespace)] *)
Definition new (root : Node.t) (source_file : string) (namespace : string)
  : result t :=
  _extract_information root source_file namespace.

(** *** [extract_callsites] (lines 269-366) *)

(** A raw callsite: [(name, end offset, line)]. *)
Definition raw_callsite : Type := (string * nat * nat)%type.

(** [sorted(l, key=lambda x: x[1])]; Python's sort is stable, so is this
    insertion sort: an element goes before the first one whose key is not
    smaller. *)
Fixpoint insert_by_offset (x : raw_callsite) (l : list raw_callsite)
  : list raw_callsite :=
  match l with
  | [] => [x]
  | y :: l' => if Nat.leb (snd (fst x)) (snd (fst y))
               then x :: y :: l'
               else y :: insert_by_offset x l'
  end.

Definition sorted_by_offset (l : list raw_callsite) : list raw_callsite :=
  fold_right insert_by_offset [] l.

Section ExtractCallsites.

(** The order in which Python iterates over [set(callsites)].  It
    depends on the hashes of the tuples (string hashes change from one
    process to the next), so it is left open here; [is_set_iteration]
    below says what is known of it. *)
Variable set_iter : list raw_callsite -> list raw_callsite.

Variable self : t.
Variable functions : Dict.t t.

(** Helper for determining the return type of a field expression in a
    chained call and its full qualified name.  The inner [fix] is
    [arg = field_expr.child_by_field_name('argument')] followed by the
    tests on [arg.type], which raise when [arg] is [None]; its answer
    is [object_type]. *)
Fixpoint _process_field_expr_return_type (field_expr : Node.t)
         {struct field_expr} : result (option string * string) :=
  name <- match Node.child_by_field_name field_expr "field" with
          | Some f => Ok (Node.text f)
          | None => Raise AttributeError
          end ;;
  object_type <-
    (fix on_argument (l : list Node.t) : result (option string) :=
       match l with
       | [] => Raise AttributeError
       | arg :: l' =>
           if Node.has_field "argument" arg then
             (* Chained field access *)
             if String.eqb (Node.type arg) "field_expression" then
               '(_, object_type) <- _process_field_expr_return_type arg ;;
               Ok (Some object_type)
             (* Internal call *)
             else if String.eqb (Node.type arg) "this" then
               Ok (Some (namespace_or_class self))
             else Ok None
           else on_argument l'
       end) (Node.children field_expr) ;;
  match object_type with
  | Some (String c o) =>
      let object_type := String c o in
      let full_name :=
        if String.eqb object_type "void" then name
        else object_type ++ "::" ++ name in
      match get_function_node full_name functions false with
      | Some node => Ok (Some (return_type node), full_name)
      | None => Ok (None, full_name)
      end
  | _ => Ok (None, name)
  end.

(** The [object_type] of a member access, from the children of the
    node (the inner loop of [_process_field_expr_return_type]). *)
Fixpoint object_type_of (l : list Node.t) : result (option string) :=
  match l with
  | [] => Raise AttributeError
  | arg :: l' =>
      if Node.has_field "argument" arg then
        if String.eqb (Node.type arg) "field_expression" then
          '(_, object_type) <- _process_field_expr_return_type arg ;;
          Ok (Some object_type)
        else if String.eqb (Node.type arg) "this" then
          Ok (Some (namespace_or_class self))
        else Ok None
      else object_type_of l'
  end.

(** Internal helper for processing the function invocation statement. *)
Definition _process_invoke (expr : Node.t) : result (list raw_callsite) :=
  match Node.child_by_field_name expr "function" with
  | Some func =>
      '(callsites, target_name) <-
         (* Simple function call *)
         (if mem (Node.type func)
                 ["identifier"; "qualified_identifier"; "template_function"]
          then Ok ([], Node.text func)
          (* Chained or method calls *)
          else if String.eqb (Node.type func) "field_expression"
          then '(_, target_name) <- _process_field_expr_return_type func ;;
               Ok ([(target_name, Node.end_byte func,
                     Node.start_row func + 1)], target_name)
          else Ok ([], "")) ;;
      if Str.nonempty target_name
      then Ok (callsites ++ [(target_name, Node.end_byte func,
                              Node.start_row func + 1)])%list
      else Ok callsites
  | None => Ok []
  end.

(** Process and store the callsites of the function. *)
Fixpoint _process_callsites (stmt : Node.t) : result (list raw_callsite) :=
  callsites <-
    (* Call statement *)
    (if String.eqb (Node.type stmt) "call_expression"
     then _process_invoke stmt
     (* Constructor call statement *)
     else if String.eqb (Node.type stmt) "new_expression"
     then match Node.child_by_field_name stmt "type" with
          | Some ctr_type =>
              Ok [(Node.text ctr_type, Node.end_byte stmt,
                   Node.start_row stmt + 1)]
          | None => Ok []
          end
     else Ok []) ;;
  (fix over_children (l : list Node.t) (callsites : list raw_callsite)
     : result (list raw_callsite) :=
     match l with
     | [] => Ok callsites
     | child :: l' =>
         more <- _process_callsites child ;;
         over_children l' (callsites ++ more)%list
     end) (Node.children stmt) callsites.

(** The loop over [stmt.children] at the end of [_process_callsites],
    which extends the callsites found so far. *)
Fixpoint process_children (l : list Node.t)
         (callsites : list raw_callsite) : result (list raw_callsite) :=
  match l with
  | [] => Ok callsites
  | child :: l' =>
      more <- _process_callsites child ;;
      process_children l' (callsites ++ more)%list
  end.

(** The raw callsites of the whole function (lines 356-358). *)
Definition raw_callsites : result (list raw_callsite) :=
  foldM (fun callsites child =>
           more <- _process_callsites child ;;
           Ok (callsites ++ more)%list)
        (Node.children (root self)) [].

Definition detailed_of (source_file : string) (cs : string * nat)
  : string * string :=
  (source_file ++ ":" ++ Str.of_nat (snd cs) ++ ",1", fst cs).

(** Gets the callsites of the function: the new state of [self]. *)
Definition extract_callsites : result t :=
  self1 <-
    match base_callsites self with
    | [] =>
        callsites <- raw_callsites ;;
        let callsites := sorted_by_offset (set_iter callsites) in
        Ok (set_base_callsites self
              (map (fun x => (fst (fst x), snd x)) callsites))
    | _ :: _ => Ok self
    end ;;
  match detailed_callsites self1 with
  | [] =>
      Ok (set_detailed_callsites self1
            (map (detailed_of (parent_source self1))
                 (base_callsites self1)))
  | _ :: _ => Ok self1
  end.

End ExtractCallsites.

(** What Python guarantees of the iteration over [set(l)]: every element
    of [l], each once. *)
Definition is_set_iteration
           (set_iter : list raw_callsite -> list raw_callsite) : Prop :=
  forall l, NoDup (set_iter l) /\ forall x, In x (set_iter l) <-> In x l.

Definition raw_callsite_eq_dec (x y : raw_callsite) : {x = y} + {x <> y}.
Proof.
  decide equality; try apply Nat.eq_dec.
  decide equality; try apply Nat.eq_dec. apply string_dec.
Defined.

(** One such order: first occurrences, in list order. *)
Definition set_iter_first (l : list raw_callsite) : list raw_callsite :=
  rev (nodup raw_callsite_eq_dec (rev l)).

End FunctionDefinition.

(** ** [class SourceCodeFile] (lines 31-134) *)

Module SourceCodeFile.

Record t : Type := mk {
  source_file : string;
  func_defs : list FunctionDefinition.t
}.

(** Lines 82-84 and 88-90: append one identifier to the qualifier and
    strip a leading separator. *)
Definition append_namespace (namespace : string) (ident : string) : string :=
  let namespace := namespace ++ "::" ++ ident in
  if Str.startswith namespace "::" then Str.drop 2 namespace else namespace.

(** Lines 75-90 of [_process_namespace_node]: the qualifier under which
    the body of the namespace definition [node] is processed. *)
Definition namespace_of (node : Node.t) (namespace : string) : string :=
  match Node.child_by_field_name node "name" with
  | Some new_namespace =>
      (* Nested namespace *)
      if String.eqb (Node.type new_namespace) "nested_namespace_specifier"
      then fold_left
             (fun namespace child =>
                if negb (Node.is_named child) then namespace
                else append_namespace namespace (Node.text child))
             (Node.children new_namespace) namespace
      (* General namespace *)
      else if String.eqb (Node.type new_namespace) "namespace_identifier"
      then append_namespace namespace (Node.text new_namespace)
      else namespace
  | None => namespace
  end.

(** Process the node from the parsed tree: the function definitions
    appended to [self.func_defs], in order.  The namespace branch is
    [_process_namespace_node], which ends in [process_tree] on the same
    node with the new qualifier. *)
Fixpoint process_tree (source_file : string) (node : Node.t)
         (namespace : string) {struct node}
  : result (list FunctionDefinition.t) :=
  (fix over_children (l : list Node.t) : result (list FunctionDefinition.t) :=
     match l with
     | [] => Ok []
     | child :: l' =>
         found <-
           (if String.eqb (Node.type child) "function_definition"
            then f <- FunctionDefinition.new child source_file namespace ;;
                 Ok [f]
            else if String.eqb (Node.type child) "namespace_definition"
            then process_tree source_file child (namespace_of child namespace)
            else process_tree source_file child namespace) ;;
         rest <- over_children l' ;;
         Ok (found ++ rest)%list
     end) (Node.children node).

Definition _process_namespace_node (source_file : string) (node : Node.t)
           (namespace : string) : result (list FunctionDefinition.t) :=
  process_tree source_file node (namespace_of node namespace).

Definition _process_function_node (source_file : string) (node : Node.t)
           (namespace : string) : result (list FunctionDefinition.t) :=
  f <- FunctionDefinition.new node source_file namespace ;; Ok [f].

(** The loop of [process_tree] over the children of a node, through the
    two helpers. *)
Fixpoint process_nodes (source_file : string) (namespace : string)
         (l : list Node.t) : result (list FunctionDefinition.t) :=
  match l with
  | [] => Ok []
  | child :: l' =>
      found <-
        (if String.eqb (Node.type child) "function_definition"
         then _process_function_node source_file child namespace
         else if String.eqb (Node.type child) "namespace_definition"
         then _process_namespace_node source_file child namespace
         else process_tree source_file child namespace) ;;
      rest <- process_nodes source_file namespace l' ;;
      Ok (found ++ rest)%list
  end.

(** [SourceCodeFile(source_file, source_content)], given the root the
    parser answers for the content ([None] for an empty content, which is
    never parsed). *)
Definition new (source_file : string) (parsed : option Node.t) : result t :=
  match parsed with
  | Some root =>
      func_defs <- process_tree source_file root "" ;;
      Ok (mk source_file func_defs)
  | None => Ok (mk source_file [])
  end.

(** The qualified name the first loop of [get_function_node] compares. *)
Definition qualified_name (func : FunctionDefinition.t) : string :=
  if Str.nonempty (FunctionDefinition.namespace_or_class func)
  then FunctionDefinition.namespace_or_class func ++ "::"
         ++ FunctionDefinition.name func
  else FunctionDefinition.name func.

(** The last element of a non-empty list of strings: [l[-1]]. *)
Definition last_segment (l : list string) : string := last l "".

(** Gets the function definition with a given name (lines 100-126). *)
Definition get_function_node (self : t) (target_function_name : string)
           (exact : bool) : option FunctionDefinition.t :=
  (* Find the first instance of the function name *)
  match find (fun func => String.eqb (qualified_name func)
                                     target_function_name)
             (func_defs self) with
  | Some func => Some func
  | None =>
      if exact then None
      else
        match find (fun func => String.eqb (FunctionDefinition.name func)
                                           target_function_name)
                   (func_defs self) with
        | Some func => Some func
        | None =>
            find (fun func =>
                    String.eqb (FunctionDefinition.name func)
                      (last_segment (Str.split "::" target_function_name)))
                 (func_defs self)
        end
  end.

(** Returns whether the source code holds a libfuzzer harness. *)
Definition has_libfuzzer_harness (self : t) : bool :=
  existsb (fun func => Str.contains "LLVMFuzzerTestOneInput"
                         (FunctionDefinition.name func))
          (func_defs self).

End SourceCodeFile.

(** ** [class Project] (lines 369-592) *)

Module Project.

(** [all_functions] is an attribute only [dump_module_logic] creates:
    [None] stands for a project that does not have it yet.  The dictionary
    and the units hold the same objects in Python; here both hold the
    value of the object, and the properties below are stated for every
    pair of values. *)
Record t : Type := mk {
  source_code_files : list SourceCodeFile.t;
  all_functions : option (Dict.t FunctionDefinition.t)
}.

(** [Project(source_code_files)] *)
Definition new (source_code_files : list SourceCodeFile.t) : t :=
  mk source_code_files None.

(** The first loop of [dump_module_logic] (lines 383-402): the global
    map, keyed by simple name. *)
Definition collect_all_functions (source_code_files : list SourceCodeFile.t)
  : Dict.t FunctionDefinition.t :=
  fold_left
    (fun all_functions source_code =>
       Dict.update all_functions
         (Dict.of_list FunctionDefinition.name
                       (SourceCodeFile.func_defs source_code)))
    source_code_files [].

(** The units in which [get_function_node(name, exact)] finds a function,
    each with the function found (the loops of lines 521-525 and
    533-537). *)
Definition sources_with_target (self : t) (name : string) (exact : bool)
  : list (SourceCodeFile.t * FunctionDefinition.t) :=
  flat_map (fun source_code =>
              match SourceCodeFile.get_function_node source_code name exact with
              | Some func => [(source_code, func)]
              | None => []
              end)
           (source_code_files self).

(** Finds the source code with a given function. *)
Definition find_source_with_func_def (self : t) (name : string)
  : option (SourceCodeFile.t * FunctionDefinition.t) :=
  match sources_with_target self name true with
  | [found] => Some found
  | _ =>
      match sources_with_target self name false with
      | [found] => Some found
      | _ => None
      end
  end.

(** Gets the source codes that holds libfuzzer harnesses (lines 448-454). *)
Definition get_source_codes_with_harnesses (self : t)
  : list SourceCodeFile.t :=
  filter SourceCodeFile.has_libfuzzer_harness (source_code_files self).

(** Calculate how many functions called the target function. *)
Definition calculate_function_uses (self : t) (target_name : string) : nat :=
  fold_left
    (fun func_use_count source_file =>
       fold_left
         (fun func_use_count function =>
            if existsb (fun callsite =>
                          String.eqb (fst callsite) target_name
                          || Str.endswith (fst callsite) target_name)
                       (FunctionDefinition.base_callsites function)
            then func_use_count + 1 else func_use_count)
         (SourceCodeFile.func_defs source_file) func_use_count)
    (source_code_files self) 0.

(** The body of the loop over the callsites in
    [_recursive_function_depth] (lines 578-585); [recurse] is the
    recursive call and the state is [(depth, visited)]. *)
Definition visit_callsite (self : t)
           (recurse : FunctionDefinition.t -> list string
                      -> result (nat * list string))
           (st : nat * list string) (callsite : string * nat)
  : result (nat * list string) :=
  let '(depth, visited) := st in
  match find_source_with_func_def self (fst callsite) with
  | Some target =>
      if mem (FunctionDefinition.name (snd target)) visited
      then Ok (Nat.max depth 1, visited)
      else '(d, visited) <- recurse (snd target) visited ;;
           Ok (Nat.max depth (d + 1), visited)
  | None => Ok (depth, (visited ++ [fst callsite])%list)
  end.

(** [_recursive_function_depth]: the depth and the new contents of the
    [visited] list, which all the calls of one query share. *)
Fixpoint _recursive_function_depth (fuel : nat) (self : t)
         (function : FunctionDefinition.t) (visited : list string)
  : result (nat * list string) :=
  match fuel with
  | 0 => OutOfFuel
  | S fuel' =>
      let callsites := FunctionDefinition.base_callsites function in
      if Nat.eqb (List.length callsites) 0 then Ok (0, visited)
      else
        foldM (visit_callsite self (_recursive_function_depth fuel' self))
              callsites
              (0, (visited ++ [FunctionDefinition.name function])%list)
  end.

(** Calculate function depth of the target function. *)
Definition calculate_function_depth (fuel : nat) (self : t)
           (target_function : FunctionDefinition.t) : result nat :=
  '(func_depth, _) <- _recursive_function_depth fuel self target_function [] ;;
  Ok func_depth.

(** [visited_functions.add(function)] on a set held as a list. *)
Definition set_add (x : string) (s : list string) : list string :=
  if mem x s then s else (s ++ [x])%list.

(** Lines 490-498: one line of the rendering, with its newline. *)
Definition calltree_line (depth : nat) (func_name source_file : string)
           (line_number : Z) : string :=
  Str.repeat "  " depth ++ func_name ++ " " ++ source_file
    ++ " " ++ Str.of_Z line_number ++ String "010"%char "".

(** Extracts calltree string of a calltree so that FI core can use it:
    the text and the final contents of the [visited_functions] set the
    call worked on.  A missing or empty set argument is replaced by a
    fresh set; the recursive calls pass on the set they have just added
    [function] to, so they all share it. *)
Fixpoint extract_calltree (fuel : nat) (self : t) (source_file : string)
         (source_code : option SourceCodeFile.t) (function : option string)
         (visited_functions : option (list string)) (depth : nat)
         (line_number : Z) : result (string * list string) :=
  match fuel with
  | 0 => OutOfFuel
  | S fuel' =>
      let visited_functions :=
        match visited_functions with
        | Some (x :: s) => x :: s
        | _ => []
        end in
      match function with
      | None | Some EmptyString => Ok ("", visited_functions)
      | Some function =>
          let source_code :=
            match source_code with
            | Some source_code => Some source_code
            | None =>
                match find_source_with_func_def self function with
                | Some result => Some (fst result)
                | None => None
                end
            end in
          match all_functions self with
          | None => Raise AttributeError       (* [self.all_functions] *)
          | Some all_functions =>
              let func_node := get_function_node function all_functions false in
              let func_name :=
                match func_node with
                | Some func_node =>
                    SourceCodeFile.qualified_name func_node
                | None => function
                end in
              let line_to_print :=
                calltree_line depth func_name source_file line_number in
              match mem function visited_functions, func_node, source_code with
              | false, Some func_node, Some source_code =>
                  foldM
                    (fun (st : string * list string) (cs : string * nat) =>
                       '(sub, visited_functions) <-
                          extract_calltree fuel' self
                            (SourceCodeFile.source_file source_code)
                            None (Some (fst cs)) (Some (snd st))
                            (depth + 1) (Z.of_nat (snd cs)) ;;
                       Ok (fst st ++ sub, visited_functions))
                    (FunctionDefinition.base_callsites func_node)
                    (line_to_print, set_add function visited_functions)
              | _, _, _ => Ok (line_to_print, visited_functions)
              end
          end
      end
  end.

(** *** [dump_module_logic] (lines 375-446)

    The pass works on the function objects themselves: the global map and
    the units hold the same objects, and [extract_callsites] changes the
    object it is called on.  Here an object is named by its place, the
    index of its unit and its index in the unit, and the global map holds
    places.  The write of the report to [report_name] (lines 445-446)
    and its failures are left out, and the text of a node is held already
    decoded: the pass answers the report and the project it leaves. *)

Definition ref : Type := (nat * nat)%type.

(** The object at a place; [None] when there is none. *)
Definition deref (units : list SourceCodeFile.t) (r : ref)
  : option FunctionDefinition.t :=
  match nth_error units (fst r) with
  | Some unit => nth_error (SourceCodeFile.func_defs unit) (snd r)
  | None => None
  end.

Fixpoint set_nth {A : Type} (n : nat) (x : A) (l : list A) : list A :=
  match l, n with
  | [], _ => []
  | _ :: l', 0 => x :: l'
  | y :: l', S n' => y :: set_nth n' x l'
  end.

(** The units after the object at a place took a new state. *)
Definition assign (units : list SourceCodeFile.t) (r : ref)
           (f : FunctionDefinition.t) : list SourceCodeFile.t :=
  match nth_error units (fst r) with
  | Some unit =>
      set_nth (fst r)
              (SourceCodeFile.mk (SourceCodeFile.source_file unit)
                 (set_nth (snd r) f (SourceCodeFile.func_defs unit)))
              units
  | None => units
  end.

Definition indexed {A : Type} (l : list A) : list (nat * A) :=
  combine (seq 0 (List.length l)) l.

(** [{func.name: func for func in source_code.func_defs}], as places. *)
Definition unit_refs (i : nat) (unit : SourceCodeFile.t) : Dict.t ref :=
  fold_left (fun acc jf =>
               Dict.set acc (FunctionDefinition.name (snd jf)) (i, fst jf))
            (indexed (SourceCodeFile.func_defs unit)) [].

(** The first loop of the pass: [self.all_functions], as places. *)
Definition collect_refs (units : list SourceCodeFile.t) : Dict.t ref :=
  fold_left (fun all_functions iu =>
               Dict.update all_functions (unit_refs (fst iu) (snd iu)))
            (indexed units) [].

(** The global map as the functions see it: the present state of the
    objects at its places. *)
Definition snapshot (all_refs : Dict.t ref) (units : list SourceCodeFile.t)
  : Dict.t FunctionDefinition.t :=
  flat_map (fun kr =>
              match deref units (snd kr) with
              | Some f => [(fst kr, f)]
              | None => []
              end) all_refs.

(** One element of [report['All functions']['Elements']]. *)
Record func_dict : Type := mk_func_dict {
  functionName : string;
  functionSourceFile : string;
  functionLinenumber : nat;
  functionLinenumberEnd : nat;
  linkageType : string;
  func_position : nat * nat;               (* [{'start': _, 'end': _}] *)
  CyclomaticComplexity : nat;
  EdgeCount : nat;
  ICount : nat;
  argNames : list string;
  argTypes : list string;
  argCount : nat;
  returnType : string;
  BranchProfiles : list Datatypes.unit;    (* always [[]] *)
  Callsites : list (string * string);
  functionUses : nat;
  functionDepth : nat;
  constantsTouched : list Datatypes.unit;  (* always [[]] *)
  BBCount : nat;
  signature : string;
  functionsReached : list string
}.

(** The report: the keys ['Fuzzing method'] and ['All functions'] are
    there only when the first and the second loop ran at least once. *)
Record report : Type := mk_report {
  report_name : string;                          (* ['report'] *)
  sources : list (string * list string);         (* file, function names *)
  fuzzing_method : option string;
  all_functions_elements : option (list func_dict)
}.

Section DumpModuleLogic.

(** The iteration orders of [set(callsites)] in [extract_callsites] and of
    the set [reached] in [list(reached)]. *)
Variable set_iter : list FunctionDefinition.raw_callsite
                    -> list FunctionDefinition.raw_callsite.
Variable reached_iter : list string -> list string.

(** The fuel handed to the depth query: more than the functions of the
    project, which is enough for every query. *)
Definition depth_fuel (units : list SourceCodeFile.t) : nat :=
  S (List.length (flat_map SourceCodeFile.func_defs units)).

(** Lines 409-437: the record of [func] in the project [self]. *)
Definition func_dict_of (self : t) (func : FunctionDefinition.t)
  : result func_dict :=
  func_depth <- calculate_function_depth
                  (depth_fuel (source_code_files self)) self func ;;
  Ok (mk_func_dict
        (FunctionDefinition.name func)
        (FunctionDefinition.parent_source func)
        (FunctionDefinition.start_line func)
        (FunctionDefinition.end_line func)
        ""
        (FunctionDefinition.start_line func, FunctionDefinition.end_line func)
        (FunctionDefinition.complexity func)
        (FunctionDefinition.complexity func)
        (FunctionDefinition.icount func)
        (FunctionDefinition.arg_names func)
        (FunctionDefinition.arg_types func)
        (List.length (FunctionDefinition.arg_types func))
        (FunctionDefinition.return_type func)
        []
        (FunctionDefinition.detailed_callsites func)
        (calculate_function_uses self (FunctionDefinition.name func))
        func_depth
        []
        0
        (FunctionDefinition.sig func)
        (reached_iter (map fst (FunctionDefinition.base_callsites func)))).

(** The second loop (lines 405-439) over the places of the global map:
    the units and the records it leaves.  The outer [None] stands for a
    place without an object, which the map of a project never holds. *)
Fixpoint dump_functions (places : list ref) (all_refs : Dict.t ref)
         (units : list SourceCodeFile.t)
  : option (result (list SourceCodeFile.t * list func_dict)) :=
  match places with
  | [] => Some (Ok (units, []))
  | place :: places' =>
      match deref units place with
      | None => None
      | Some func =>
          match FunctionDefinition.extract_callsites
                  set_iter func (snapshot all_refs units) with
          | Ok func =>
              let units := assign units place func in
              let self := mk units (Some (snapshot all_refs units)) in
              match func_dict_of self func with
              | Ok entry =>
                  match dump_functions places' all_refs units with
                  | Some (Ok (units, func_list)) =>
                      Some (Ok (units, entry :: func_list))
                  | other => other
                  end
              | Raise e => Some (Raise e)
              | OutOfFuel => Some OutOfFuel
              end
          | Raise e => Some (Raise e)
          | OutOfFuel => Some OutOfFuel
          end
      end
  end.

(** Dumps the data for the module in full: the project as the pass leaves
    it and the report. *)
Definition dump_module_logic (self : t) : option (result (t * report)) :=
  let units := source_code_files self in
  let all_refs := collect_refs units in
  match dump_functions (Dict.values all_refs) all_refs units with
  | Some (Ok (units', func_list)) =>
      Some (Ok (mk units' (Some (snapshot all_refs units')),
                mk_report
                  "name"
                  (map (fun source_code =>
                          (SourceCodeFile.source_file source_code,
                           map FunctionDefinition.name
                               (SourceCodeFile.func_defs source_code)))
                       units)
                  (match units with
                   | [] => None
                   | _ :: _ => Some "LLVMFuzzerTestOneInput"
                   end)
                  (match func_list with
                   | [] => None
                   | _ :: _ => Some func_list
                   end)))
  | Some (Raise e) => Some (Raise e)
  | Some OutOfFuel => Some OutOfFuel
  | None => None
  end.

End DumpModuleLogic.

End Project.

(** ** Notions used to state the properties *)

(** Two global maps with the same keys in the same order and functions of
    the same return types: what the map looks like before and after a call
    of [extract_callsites] changed the callsite fields of its functions. *)
Definition same_signatures (m m' : Dict.t FunctionDefinition.t) : Prop :=
  Forall2 (fun item item' =>
             fst item = fst item'
             /\ FunctionDefinition.return_type (snd item)
                = FunctionDefinition.return_type (snd item'))
          m m'.

(** The names of all the functions of the units of a project. *)
Definition all_names (self : Project.t) : list string :=
  map FunctionDefinition.name
      (flat_map SourceCodeFile.func_defs (Project.source_code_files self)).

(** How many of the names are not in [visited]. *)
Definition unvisited (names visited : list string) : nat :=
  List.length (filter (fun n => negb (mem n visited)) names).

(** What bounds the recursion of [_recursive_function_depth]. *)
Definition remaining (self : Project.t) (visited : list string) : nat :=
  unvisited (all_names self) visited.

(** The names at the callsites of the functions of a global map: what
    bounds the recursion of [extract_calltree]. *)
Definition callee_names (all_functions : Dict.t FunctionDefinition.t)
  : list string :=
  flat_map (fun f => map fst (FunctionDefinition.base_callsites f))
           (Dict.values all_functions).

(** The depth of a function in words.  [depth_of self f visited d visited']:
    with the shared list at [visited], the depth of [f] is [d] and the list
    is left at [visited'].  A function without callsites has depth 0; the
    depth of any other function is the largest contribution of its
    callsites, taken in order after the name of the function joined the
    list: 0 for a callee that does not resolve (its name joins the list), 1
    for a callee that resolves to a function whose name is in the list, and
    1 plus the depth of the resolved function otherwise. *)
Inductive depth_of (self : Project.t)
  : FunctionDefinition.t -> list string -> nat -> list string -> Prop :=
| depth_leaf (f : FunctionDefinition.t) (visited : list string) :
    FunctionDefinition.base_callsites f = [] ->
    depth_of self f visited 0 visited
| depth_calls (f : FunctionDefinition.t) (visited visited' : list string)
              (contributed : list nat) :
    FunctionDefinition.base_callsites f <> [] ->
    contributions self (visited ++ [FunctionDefinition.name f])%list
                  (FunctionDefinition.base_callsites f) contributed visited' ->
    depth_of self f visited (list_max contributed) visited'
with contributions (self : Project.t)
  : list string -> list (string * nat) -> list nat -> list string -> Prop :=
| contributions_nil (visited : list string) :
    contributions self visited [] [] visited
| contributions_unresolved (visited visited' : list string)
      (callsite : string * nat) (callsites : list (string * nat))
      (contributed : list nat) :
    Project.find_source_with_func_def self (fst callsite) = None ->
    contributions self (visited ++ [fst callsite])%list callsites
                  contributed visited' ->
    contributions self visited (callsite :: callsites)
                  (0 :: contributed) visited'
| contributions_visited (visited visited' : list string)
      (callsite : string * nat) (callsites : list (string * nat))
      (target : SourceCodeFile.t * FunctionDefinition.t)
      (contributed : list nat) :
    Project.find_source_with_func_def self (fst callsite) = Some target ->
    In (FunctionDefinition.name (snd target)) visited ->
    contributions self visited callsites contributed visited' ->
    contributions self visited (callsite :: callsites)
                  (1 :: contributed) visited'
| contributions_recurse (visited visited1 visited' : list string)
      (callsite : string * nat) (callsites : list (string * nat))
      (target : SourceCodeFile.t * FunctionDefinition.t) (d : nat)
      (contributed : list nat) :
    Project.find_source_with_func_def self (fst callsite) = Some target ->
    ~ In (FunctionDefinition.name (snd target)) visited ->
    depth_of self (snd target) visited d visited1 ->
    contributions self visited1 callsites contributed visited' ->
    contributions self visited (callsite :: callsites)
                  (1 + d :: contributed) visited'.

(** [appends self x f visited]: the depth query on [f], entered with the
    shared list at [visited], comes to a callsite whose callee name [x]
    does not resolve, among the callsites of [f] or among those of a
    function it recurses into, however deep.  [appends_in self x visited
    callsites] says the same of the loop over [callsites] entered with the
    list at [visited]: the callsite is the first one, or it is met inside
    the recursive call the first one leads to, or it is met after the
    first one, which leaves the list at [visited1]. *)
Inductive appends (self : Project.t) (x : string)
  : FunctionDefinition.t -> list string -> Prop :=
| appends_calls (f : FunctionDefinition.t) (visited : list string) :
    FunctionDefinition.base_callsites f <> [] ->
    appends_in self x (visited ++ [FunctionDefinition.name f])%list
               (FunctionDefinition.base_callsites f) ->
    appends self x f visited
with appends_in (self : Project.t) (x : string)
  : list string -> list (string * nat) -> Prop :=
| appends_here (visited : list string) (callsite : string * nat)
               (callsites : list (string * nat)) :
    fst callsite = x ->
    Project.find_source_with_func_def self x = None ->
    appends_in self x visited (callsite :: callsites)
| appends_inside (visited : list string) (callsite : string * nat)
                 (callsites : list (string * nat))
                 (target : SourceCodeFile.t * FunctionDefinition.t) :
    Project.find_source_with_func_def self (fst callsite) = Some target ->
    ~ In (FunctionDefinition.name (snd target)) visited ->
    appends self x (snd target) visited ->
    appends_in self x visited (callsite :: callsites)
| appends_later (visited visited1 : list string) (callsite : string * nat)
                (callsites : list (string * nat)) (contributed : list nat) :
    contributions self visited [callsite] contributed visited1 ->
    appends_in self x visited1 callsites ->
    appends_in self x visited (callsite :: callsites).

(** [inside d n]: the node [d] is [n] or lies under it. *)
Inductive inside : Node.t -> Node.t -> Prop :=
| inside_self (n : Node.t) : inside n n
| inside_child (d c n : Node.t) :
    In c (Node.children n) -> inside d c -> inside d n.

(** [collected n d]: [d] is a function definition under [n] that is not
    inside another function definition under [n]. *)
Inductive collected : Node.t -> Node.t -> Prop :=
| collected_child (n d : Node.t) :
    In d (Node.children n) ->
    Node.type d = "function_definition" ->
    collected n d
| collected_under (n c d : Node.t) :
    In c (Node.children n) ->
    Node.type c <> "function_definition" ->
    collected c d ->
    collected n d.

(** The order of the raw callsites after [sorted]. *)
Definition offset_le (x y : FunctionDefinition.raw_callsite) : Prop :=
  snd (fst x) <= snd (fst y).

(** The detailed callsites are the base callsites, rendered. *)
Definition callsites_consistent (self : FunctionDefinition.t) : Prop :=
  FunctionDefinition.detailed_callsites self
  = map (FunctionDefinition.detailed_of (FunctionDefinition.parent_source self))
        (FunctionDefinition.base_callsites self).

(** [wraps kind count outer inner]: [outer] is [inner] under [count] nodes
    of type [kind], each holding the next in its [declarator] field, and
    [inner] is not of that type. *)
Inductive wraps (kind : string) : nat -> Node.t -> Node.t -> Prop :=
| wraps_none (inner : Node.t) :
    Node.type inner <> kind -> wraps kind 0 inner inner
| wraps_one (count : nat) (outer next inner : Node.t) :
    Node.type outer = kind ->
    Node.child_by_field_name outer "declarator" = Some next ->
    wraps kind count next inner ->
    wraps kind (S count) outer inner.

(** All the nodes of a tree, the root first. *)
Fixpoint all_nodes (n : Node.t) : list Node.t :=
  n :: (fix over (l : list Node.t) : list Node.t :=
          match l with
          | [] => []
          | c :: l' => (all_nodes c ++ over l')%list
          end) (Node.children n).

(** *** The aggregation pass *)

(** A function with its callsite fields emptied: the part of a function
    object that [extract_callsites] never changes. *)
Definition without_callsites (f : FunctionDefinition.t) : FunctionDefinition.t :=
  FunctionDefinition.set_detailed_callsites
    (FunctionDefinition.set_base_callsites f []) [].

Definition units_without_callsites (units : list SourceCodeFile.t)
  : list SourceCodeFile.t :=
  map (fun unit =>
         SourceCodeFile.mk (SourceCodeFile.source_file unit)
           (map without_callsites (SourceCodeFile.func_defs unit)))
      units.

(** Two states of the units of a project: the same objects at the same
    places, which differ in their callsite fields at most. *)
Definition same_units (units units' : list SourceCodeFile.t) : Prop :=
  units_without_callsites units = units_without_callsites units'.

(** The order of the places: by unit, then by function in the unit. *)
Definition place_before (r r' : Project.ref) : Prop :=
  fst r < fst r' \/ (fst r = fst r' /\ snd r < snd r').

(** Two dictionaries with the same keys in the same order and related
    values. *)
Definition dict_rel {V W : Type} (R : V -> W -> Prop)
           (d : Dict.t V) (d' : Dict.t W) : Prop :=
  Forall2 (fun item item' => fst item = fst item' /\ R (snd item) (snd item'))
          d d'.

(** A call that returns or raises [AttributeError]. *)
Definition returns_or_attribute_error {A : Type} (r : result A) : Prop :=
  match r with
  | Ok _ | Raise AttributeError => True
  | _ => False
  end.

(** ** Sample inputs *)

Module Samples.

Definition token (text : string) : Node.t :=
  Node.mk text false None text 0 0 0 [].

Definition named (type : string) (field : option string) (text : string)
           (children : list Node.t) : Node.t :=
  Node.mk type true field text 0 0 0 children.

Definition empty_parameter_list : Node.t :=
  named "parameter_list" (Some "parameters") "()" [token "("; token ")"].

(** [ret name() { body }], the name being a node of kind [name_kind]. *)
Definition function_node (ret name_kind name : string) (body : list Node.t)
  : Node.t :=
  named "function_definition" None (ret ++ " " ++ name ++ "() {}")
    [ named "primitive_type" (Some "type") ret [];
      named "function_declarator" (Some "declarator") (name ++ "()")
        [ named name_kind (Some "declarator") name [];
          empty_parameter_list ];
      named "compound_statement" (Some "body") "{}"
        (token "{" :: body ++ [token "}"])%list ].

Definition namespace_node (name : string) (members : list Node.t) : Node.t :=
  named "namespace_definition" None ("namespace " ++ name ++ " {}")
    [ token "namespace";
      named "namespace_identifier" (Some "name") name [];
      named "declaration_list" (Some "body") "{}"
        (token "{" :: members ++ [token "}"])%list ].

(** [namespace a { namespace b { void f() {} } }] *)
Definition nested_namespaces : Node.t :=
  named "translation_unit" None ""
    [ namespace_node "a"
        [ namespace_node "b" [ function_node "void" "identifier" "f" [] ] ] ].

(** [void a::b::f() {}] at the top level. *)
Definition qualified_definition : Node.t :=
  named "translation_unit" None ""
    [ function_node "void" "qualified_identifier" "a::b::f" [] ].

(** [namespace a { void b::f() {} }] *)
Definition qualified_in_namespace : Node.t :=
  named "translation_unit" None ""
    [ namespace_node "a"
        [ function_node "void" "qualified_identifier" "b::f" [] ] ].

(** [int **f() {}]: the function declarator lies under two pointer
    declarators. *)
Definition pointer_pointer_function : Node.t :=
  named "function_definition" None "int **f() {}"
    [ named "primitive_type" (Some "type") "int" [];
      named "pointer_declarator" (Some "declarator") "**f()"
        [ token "*";
          named "pointer_declarator" (Some "declarator") "*f()"
            [ token "*";
              named "function_declarator" (Some "declarator") "f()"
                [ named "identifier" (Some "declarator") "f" [];
                  empty_parameter_list ] ] ];
      named "compound_statement" (Some "body") "{}" [token "{"; token "}"] ].

(** A definition whose declarator holds a parameter list and nothing that
    names the function. *)
Definition unnamed_function : Node.t :=
  named "function_definition" None "int () {}"
    [ named "primitive_type" (Some "type") "int" [];
      named "function_declarator" (Some "declarator") "()"
        [ empty_parameter_list ];
      named "compound_statement" (Some "body") "{}" [token "{"; token "}"] ].

(** A constructor [T() {}]: no type field. *)
Definition constructor_node : Node.t :=
  named "function_definition" None "T() {}"
    [ named "function_declarator" (Some "declarator") "T()"
        [ named "identifier" (Some "declarator") "T" [];
          empty_parameter_list ];
      named "compound_statement" (Some "body") "{}" [token "{"; token "}"] ].

(** [void f() { obj.run(); }] on one line: the member access [obj.run]
    ends at byte 18 and the call [obj.run()] at byte 20. *)
Definition member_access : Node.t :=
  Node.mk "field_expression" true (Some "function") "obj.run" 0 0 18
    [ Node.mk "identifier" true (Some "argument") "obj" 0 0 14 [];
      Node.mk "." false (Some "operator") "." 0 0 15 [];
      Node.mk "field_identifier" true (Some "field") "run" 0 0 18 [] ].

Definition method_call : Node.t :=
  Node.mk "call_expression" true None "obj.run()" 0 0 20
    [ member_access;
      Node.mk "argument_list" true (Some "arguments") "()" 0 0 20
        [ Node.mk "(" false None "(" 0 0 19 [];
          Node.mk ")" false None ")" 0 0 20 [] ] ].

Definition method_call_function : Node.t :=
  function_node "void" "identifier" "f"
    [ Node.mk "expression_statement" true None "obj.run();" 0 0 21
        [ method_call; Node.mk ";" false None ";" 0 0 21 [] ] ].

(** [namespace a::b::c { }] *)
Definition nested_specifier_namespace : Node.t :=
  named "namespace_definition" None "namespace a::b::c {}"
    [ token "namespace";
      named "nested_namespace_specifier" (Some "name") "a::b::c"
        [ named "namespace_identifier" None "a" [];
          token "::";
          named "namespace_identifier" None "b" [];
          token "::";
          named "namespace_identifier" None "c" [] ];
      named "declaration_list" (Some "body") "{}" [token "{"; token "}"] ].

(** The parameters [int **x] and [char buf[10]]. *)
Definition pointer_parameter : Node.t :=
  named "parameter_declaration" None "int **x"
    [ named "primitive_type" (Some "type") "int" [];
      named "pointer_declarator" (Some "declarator") "**x"
        [ token "*";
          named "pointer_declarator" (Some "declarator") "*x"
            [ token "*"; named "identifier" (Some "declarator") "x" [] ] ] ].

Definition array_parameter : Node.t :=
  named "parameter_declaration" None "char buf[10]"
    [ named "primitive_type" (Some "type") "char" [];
      named "array_declarator" (Some "declarator") "buf[10]"
        [ named "identifier" (Some "declarator") "buf" [];
          token "[";
          named "number_literal" (Some "size") "10" [];
          token "]" ] ].

(** The record of [method_call_function] in [a.cpp], with given callsite
    fields. *)
Definition method_call_record (base : list (string * nat))
           (detailed : list (string * string)) : FunctionDefinition.t :=
  FunctionDefinition.mk method_call_function "a.cpp" ""
    1 1 "f" 0 2 [] [] "void" "f()" 0 0 base detailed.

(** The record of a function [void name() {}] of [source_file] with
    qualifier [qualifier], after [extract_callsites] found [callsites]. *)
Definition function_record (source_file qualifier name : string)
           (callsites : list (string * nat)) : FunctionDefinition.t :=
  FunctionDefinition.mk
    (function_node "void" "identifier" name []) source_file qualifier
    1 1 name 0 0 [] [] "void" (name ++ "()") 0 0 callsites
    (map (FunctionDefinition.detailed_of source_file) callsites).

(** A project after the aggregation pass. *)
Definition aggregated (source_code_files : list SourceCodeFile.t)
  : Project.t :=
  Project.mk source_code_files
             (Some (Project.collect_all_functions source_code_files)).

(** The statement [name();], the callee ending at byte [offset]. *)
Definition call_statement (name : string) (offset : nat) : Node.t :=
  Node.mk "expression_statement" true None (name ++ "();") 0 0 (offset + 3)
    [ Node.mk "call_expression" true None (name ++ "()") 0 0 (offset + 2)
        [ Node.mk "identifier" true (Some "function") name 0 0 offset [];
          Node.mk "argument_list" true (Some "arguments") "()" 0 0 (offset + 2)
            [token "("; token ")"] ];
      token ";" ].

(** The functions [void name() { body }] of [a.cpp], with the callsites
    they hold. *)
Definition chain_function (name : string) (body : list Node.t)
           (base_callsites : list (string * nat))
           (detailed_callsites : list (string * string))
  : FunctionDefinition.t :=
  FunctionDefinition.mk (function_node "void" "identifier" name body)
    "a.cpp" "" 1 1 name 0
    (FunctionDefinition._traverse_node_instr_count
       (function_node "void" "identifier" name body))
    [] [] "void" (name ++ "()") 0 0 base_callsites detailed_callsites.

(** The record of such a function in a report. *)
Definition chain_record (f : FunctionDefinition.t) (uses depth : nat)
           (reached : list string) : Project.func_dict :=
  Project.mk_func_dict
    (FunctionDefinition.name f) "a.cpp" 1 1 "" (1, 1) 0 0
    (FunctionDefinition.icount f) [] [] 0 "void" []
    (FunctionDefinition.detailed_callsites f) uses depth [] 0
    (FunctionDefinition.sig f) reached.

(** One order for [list(reached)]. *)
Definition reached_first (l : list string) : list string :=
  rev (nodup string_dec (rev l)).

(** [void f() { g(); }], [void g() { h(); }] and [void h() {}] in one
    unit, as the constructor leaves them: [f] has depth 2. *)
Definition chain_f (extracted : bool) : FunctionDefinition.t :=
  if extracted
  then chain_function "f" [call_statement "g" 12]
                      [("g", 1)] [("a.cpp:1,1", "g")]
  else chain_function "f" [call_statement "g" 12] [] [].

Definition chain_g (extracted : bool) : FunctionDefinition.t :=
  if extracted
  then chain_function "g" [call_statement "h" 12]
                      [("h", 1)] [("a.cpp:1,1", "h")]
  else chain_function "g" [call_statement "h" 12] [] [].

Definition chain_h : FunctionDefinition.t := chain_function "h" [] [] [].

Definition chain_project : Project.t :=
  Project.new
    [SourceCodeFile.mk "a.cpp" [chain_f false; chain_g false; chain_h]].

(** What the pass leaves of [chain_project], and its report. *)
Definition chain_after : Project.t :=
  Project.mk
    [SourceCodeFile.mk "a.cpp" [chain_f true; chain_g true; chain_h]]
    (Some [("f", chain_f true); ("g", chain_g true); ("h", chain_h)]).

Definition chain_report (depth_of_f : nat) : Project.report :=
  Project.mk_report
    "name" [("a.cpp", ["f"; "g"; "h"])] (Some "LLVMFuzzerTestOneInput")
    (Some [ chain_record (chain_f true) 0 depth_of_f ["g"];
            chain_record (chain_g true) 1 1 ["h"];
            chain_record chain_h 1 0 [] ]).

(** [void f() { g(); }] and two functions [g] in one unit, the first of
    which calls [h]: the global map holds the second. *)
Definition overload_project : Project.t :=
  Project.new
    [SourceCodeFile.mk "a.cpp"
       [chain_f false; chain_g false; chain_function "g" [] [] []]].

Definition overload_after : Project.t :=
  Project.mk
    [SourceCodeFile.mk "a.cpp"
       [chain_f true; chain_g false; chain_function "g" [] [] []]]
    (Some [("f", chain_f true); ("g", chain_function "g" [] [] [])]).

Definition overload_report : Project.report :=
  Project.mk_report
    "name" [("a.cpp", ["f"; "g"; "g"])] (Some "LLVMFuzzerTestOneInput")
    (Some [ chain_record (chain_f true) 0 1 ["g"];
            chain_record (chain_function "g" [] [] []) 1 0 [] ]).

(** [void helper(int x) { if (x) return; }] in [a.cpp] and a harness that
    calls it in [b.cpp]. *)
Definition helper : FunctionDefinition.t :=
  function_record "a.cpp" "" "helper" [].

Definition harness : FunctionDefinition.t :=
  function_record "b.cpp" "" "LLVMFuzzerTestOneInput" [("helper", 1)].

Definition harness_project : Project.t :=
  aggregated [ SourceCodeFile.mk "a.cpp" [helper];
               SourceCodeFile.mk "b.cpp" [harness] ].

(** [void f() { printf(); }]: the project defines no [printf]. *)
Definition printf_caller : FunctionDefinition.t :=
  function_record "a.cpp" "" "f" [("printf", 1)].

Definition printf_project : Project.t :=
  aggregated [ SourceCodeFile.mk "a.cpp" [printf_caller] ].

(** [void f() { g(); }] and [void g() { f(); }]. *)
Definition mutual_f : FunctionDefinition.t :=
  function_record "a.cpp" "" "f" [("g", 2)].

Definition mutual_g : FunctionDefinition.t :=
  function_record "a.cpp" "" "g" [("f", 3)].

Definition mutual_project : Project.t :=
  aggregated [ SourceCodeFile.mk "a.cpp" [mutual_f; mutual_g] ].

(** [a.cpp] defines [leaf], [N::x], which calls [leaf], and [f], which
    calls [x] and then [N::x]; [b.cpp] defines [M::x].  The name [x] alone
    matches a function in both units and so resolves to none. *)
Definition ambiguous_leaf : FunctionDefinition.t :=
  function_record "a.cpp" "" "leaf" [].

Definition ambiguous_n_x : FunctionDefinition.t :=
  function_record "a.cpp" "N" "x" [("leaf", 2)].

Definition ambiguous_f : FunctionDefinition.t :=
  function_record "a.cpp" "" "f" [("x", 3); ("N::x", 3)].

Definition ambiguous_m_x : FunctionDefinition.t :=
  function_record "b.cpp" "M" "x" [].

Definition ambiguous_project : Project.t :=
  aggregated [ SourceCodeFile.mk "a.cpp"
                 [ambiguous_leaf; ambiguous_n_x; ambiguous_f];
               SourceCodeFile.mk "b.cpp" [ambiguous_m_x] ].

(** The same units with [g], which calls the ambiguous [x], and a
    function [f] that calls [g] and then [N::x]. *)
Definition ambiguous_g : FunctionDefinition.t :=
  function_record "a.cpp" "" "g" [("x", 4)].

Definition ambiguous_caller : FunctionDefinition.t :=
  function_record "a.cpp" "" "f" [("g", 3); ("N::x", 3)].

Definition nested_ambiguous_project : Project.t :=
  aggregated [ SourceCodeFile.mk "a.cpp"
                 [ambiguous_leaf; ambiguous_n_x; ambiguous_g;
                  ambiguous_caller];
               SourceCodeFile.mk "b.cpp" [ambiguous_m_x] ].

(** [main] calls [a] and [b], both call [shared], which calls [leaf]. *)
Definition diamond_project : Project.t :=
  aggregated
    [ SourceCodeFile.mk "a.cpp"
        [ function_record "a.cpp" "" "leaf" [];
          function_record "a.cpp" "" "shared" [("leaf", 2)];
          function_record "a.cpp" "" "a" [("shared", 3)];
          function_record "a.cpp" "" "b" [("shared", 4)];
          function_record "a.cpp" "" "main" [("a", 5); ("b", 5)] ] ].

Definition nl : string := String "010"%char EmptyString.

End Samples.

(** * Properties *)

(** ** Strings *)

Example rsplit1_ex1 : Str.rsplit1 "::" "a::b::f" = ["a::b"; "f"].
Proof. reflexivity. Qed.
Example rsplit1_ex2 : Str.rsplit1 "::" "a:::f" = ["a:"; "f"].
Proof. reflexivity. Qed.
Example rsplit1_ex3 : Str.rsplit1 "::" "f" = ["f"].
Proof. reflexivity. Qed.
Example split_ex1 : Str.split "::" "a::b::f" = ["a"; "b"; "f"].
Proof. reflexivity. Qed.
Example split_ex2 : Str.split "::" "a:::f" = ["a"; ":f"].
Proof. reflexivity. Qed.
Example split_ex3 : Str.split "::" "" = [""].
Proof. reflexivity. Qed.
Example split_ex4 : Str.split "::" "::a::" = [""; "a"; ""].
Proof. reflexivity. Qed.
Example split_first_ex : Str.split_first "::" "a::b::f" = ["a"; "b::f"].
Proof. reflexivity. Qed.
Example endswith_ex : Str.endswith "Foo::bar" "bar" = true
                      /\ Str.endswith "baz" "bar" = false
                      /\ Str.endswith "ar" "bar" = false.
Proof. repeat split; reflexivity. Qed.
Example of_Z_ex :
  Str.of_Z (-1) = "-1" /\ Str.of_nat 0 = "0" /\ Str.of_nat 12 = "12".
Proof. repeat split; reflexivity. Qed.

Lemma nonempty_true (s : string) : Str.nonempty s = true <-> s <> "".
Proof. destruct s; simpl; split; congruence. Qed.

Lemma contains_cons (sub : string) (c : ascii) (s : string) :
  Str.contains sub (String c s)
  = Str.startswith (String c s) sub || Str.contains sub s.
Proof. reflexivity. Qed.

Lemma rsplit1_absent (sep s : string) :
  Str.contains sep s = false -> Str.rsplit1 sep s = [s].
Proof.
  induction s as [|c s IH]; intros H.
  - reflexivity.
  - rewrite contains_cons in H. apply orb_false_iff in H as [Hs Hc].
    cbn [Str.rsplit1]. rewrite (IH Hc), Hs. reflexivity.
Qed.

Lemma rsplit1_present (a : ascii) (sep s : string) :
  Str.contains (String a sep) s = true ->
  exists l r, Str.rsplit1 (String a sep) s = [l; r].
Proof.
  induction s as [|c s IH]; intros H.
  - discriminate.
  - rewrite contains_cons in H. cbn [Str.rsplit1].
    destruct (Str.contains (String a sep) s) eqn:Hc.
    + destruct (IH eq_refl) as (l & r & ->). eauto.
    + rewrite orb_false_r in H.
      rewrite (rsplit1_absent _ _ Hc), H. eauto.
Qed.

(** Cutting [prefix ++ "::" ++ simple] at the last separator gives back the
    two parts, when no separator starts inside [":" ++ simple]. *)
Lemma rsplit1_last (prefix simple : string) :
  Str.contains "::" (":" ++ simple) = false ->
  Str.rsplit1 "::" (prefix ++ "::" ++ simple) = [prefix; simple].
Proof.
  intros H. induction prefix as [|c prefix IH].
  - change ("" ++ "::" ++ simple) with (String ":" (":" ++ simple)).
    cbn [Str.rsplit1]. rewrite (rsplit1_absent _ _ H). reflexivity.
  - change (String c prefix ++ "::" ++ simple)
      with (String c (prefix ++ "::" ++ simple)).
    cbn [Str.rsplit1]. rewrite IH. reflexivity.
Qed.

Lemma contains_separator (prefix simple : string) :
  Str.contains "::" (prefix ++ "::" ++ simple) = true.
Proof.
  induction prefix as [|c prefix IH].
  - reflexivity.
  - change (String c prefix ++ "::" ++ simple)
      with (String c (prefix ++ "::" ++ simple)).
    rewrite contains_cons, IH. apply orb_true_r.
Qed.

Lemma startswith_app (a b : string) :
  a <> "" -> Str.startswith a ":" = false ->
  Str.startswith (a ++ b) "::" = false.
Proof.
  destruct a as [|c a]; [congruence|]. intros _.
  cbn [Str.startswith String.append].
  destruct (Ascii.eqb ":" c); [discriminate|reflexivity].
Qed.

(** ** Qualifiers (lines 73-93 and 188-194) *)

Lemma append_namespace_empty (ident : string) :
  SourceCodeFile.append_namespace "" ident = ident.
Proof. reflexivity. Qed.

Lemma append_namespace_nonempty (namespace ident : string) :
  namespace <> "" -> Str.startswith namespace ":" = false ->
  SourceCodeFile.append_namespace namespace ident
  = namespace ++ "::" ++ ident.
Proof.
  intros Hne Hc. unfold SourceCodeFile.append_namespace.
  rewrite (startswith_app _ _ Hne Hc). reflexivity.
Qed.

(** The split of lines 189-194 never fails to unpack. *)
Lemma split_qualified_name_ok (namespace name : string) :
  exists q n, FunctionDefinition.split_qualified_name namespace name = Ok (q, n).
Proof.
  unfold FunctionDefinition.split_qualified_name.
  destruct (Str.contains "::" name) eqn:Hc; [|eauto].
  destruct (rsplit1_present _ _ _ Hc) as (l & r & ->).
  destruct (_ && _); eauto.
Qed.

Lemma process_tree_eq (source_file : string) (node : Node.t)
      (namespace : string) :
  SourceCodeFile.process_tree source_file node namespace
  = SourceCodeFile.process_nodes source_file namespace (Node.children node).
Proof.
  destruct node as [ty nm fd tx sr er eb ch]. cbn [Node.children].
  cbn [SourceCodeFile.process_tree Node.children].
  induction ch as [|child ch IH]; [reflexivity|].
  cbn [SourceCodeFile.process_nodes]. rewrite <- IH. reflexivity.
Qed.

Example nested_namespaces_functions :
  exists f,
    SourceCodeFile.process_tree "a.cpp" Samples.nested_namespaces "" = Ok [f]
    /\ FunctionDefinition.namespace_or_class f = "a::b"
    /\ FunctionDefinition.name f = "f".
Proof. eexists. split; [reflexivity|]. split; reflexivity. Qed.

Example qualified_in_namespace_functions :
  exists f,
    SourceCodeFile.process_tree "a.cpp" Samples.qualified_in_namespace ""
    = Ok [f]
    /\ FunctionDefinition.namespace_or_class f = "a::b"
    /\ FunctionDefinition.name f = "f".
Proof. eexists. split; [reflexivity|]. split; reflexivity. Qed.

(** C7: a function nested in namespace [a] then namespace [b] has qualifier
    [a::b] (on the sample tree, and for every pair of namespace names
    through [append_namespace]); a declarator name [prefix::simple] is cut
    at its last separator, giving qualifier [prefix] and name [simple] when
    there is no enclosing namespace, and [namespace::prefix] (enclosing
    first) when both are non-empty; [a::b::f] gives [a::b] and [f]. *)
Theorem qualifier_resolution (a b namespace prefix simple : string) :
  a <> "" -> Str.startswith a ":" = false ->
  Str.contains "::" (":" ++ simple) = false ->
  namespace <> "" -> prefix <> "" ->
  (* namespace a { namespace b { ... } } *)
  SourceCodeFile.append_namespace (SourceCodeFile.append_namespace "" a) b
  = a ++ "::" ++ b
  /\ (exists f,
        SourceCodeFile.process_tree "a.cpp" Samples.nested_namespaces ""
        = Ok [f]
        /\ FunctionDefinition.namespace_or_class f = "a::b"
        /\ FunctionDefinition.name f = "f")
  (* a qualified name, no enclosing namespace *)
  /\ FunctionDefinition.split_qualified_name "" (prefix ++ "::" ++ simple)
     = Ok (prefix, simple)
  /\ FunctionDefinition.split_qualified_name "" "a::b::f" = Ok ("a::b", "f")
  /\ (exists f,
        SourceCodeFile.process_tree "a.cpp" Samples.qualified_definition ""
        = Ok [f]
        /\ FunctionDefinition.namespace_or_class f = "a::b"
        /\ FunctionDefinition.name f = "f")
  (* both an enclosing namespace and a prefix *)
  /\ FunctionDefinition.split_qualified_name namespace
       (prefix ++ "::" ++ simple)
     = Ok (namespace ++ "::" ++ prefix, simple).
Proof.
  intros Ha Hac Hs Hns Hp.
  split.
  { rewrite append_namespace_empty. now apply append_namespace_nonempty. }
  split. { exact nested_namespaces_functions. }
  split.
  { unfold FunctionDefinition.split_qualified_name.
    rewrite contains_separator, (rsplit1_last _ _ Hs). reflexivity. }
  split. { reflexivity. }
  split.
  { eexists. split; [reflexivity|]. split; reflexivity. }
  unfold FunctionDefinition.split_qualified_name.
  rewrite contains_separator, (rsplit1_last _ _ Hs).
  apply nonempty_true in Hns, Hp. rewrite Hns, Hp. reflexivity.
Qed.

Lemma qualifier_resolution_witness :
  SourceCodeFile.append_namespace (SourceCodeFile.append_namespace "" "ns") "inner"
  = "ns::inner"
  /\ FunctionDefinition.split_qualified_name "" "Foo::Bar::run"
     = Ok ("Foo::Bar", "run")
  /\ FunctionDefinition.split_qualified_name "ns" "Foo::Bar::run"
     = Ok ("ns::Foo::Bar", "run").
Proof.
  pose proof (qualifier_resolution "ns" "inner" "ns" "Foo::Bar" "run") as H.
  destruct H as (H1 & _ & H3 & _ & _ & H6);
    [ discriminate | reflexivity | reflexivity | discriminate | discriminate | ].
  split; [exact H1|]. split; [exact H3 | exact H6].
Defined.

(** ** Construction of a [FunctionDefinition] (lines 167-232) *)

Lemma new_without_parameter_list (root name_node : Node.t)
      (source_file namespace : string) :
  Node.child_by_field_name root "declarator" = Some name_node ->
  snd (fold_left FunctionDefinition.scan_declarator
                 (Node.children name_node) ("", None)) = None ->
  FunctionDefinition.new root source_file namespace = Raise AttributeError.
Proof.
  intros Hd Hp. unfold FunctionDefinition.new,
    FunctionDefinition._extract_information. rewrite Hd.
  destruct (fold_left _ _ _) as [name param_list_node]. simpl in Hp. subst.
  destruct (split_qualified_name_ok namespace name) as (q & n & ->).
  reflexivity.
Qed.

Example constructor_returns_void :
  exists f,
    FunctionDefinition.new Samples.constructor_node "a.cpp" "" = Ok f
    /\ FunctionDefinition.return_type f = "void"
    /\ FunctionDefinition.name f = "T"
    /\ FunctionDefinition.arg_names f = [].
Proof. eexists. split; [reflexivity|]. repeat split; reflexivity. Qed.

Example unnamed_function_has_empty_name :
  exists f,
    FunctionDefinition.new Samples.unnamed_function "a.cpp" "" = Ok f
    /\ FunctionDefinition.name f = ""
    /\ FunctionDefinition.return_type f = "int".
Proof. eexists. split; [reflexivity|]. split; reflexivity. Qed.

(** C5: the construction does raise on a tree without a parameter list
    within one level of the declarator.  For [int **f() {}] the declarator
    is a pointer declarator whose only named child is another pointer
    declarator, [param_list_node] stays [None] and the parameter loop reads
    [.children] of it. *)
Theorem new_raises_without_parameter_list :
  FunctionDefinition.new Samples.pointer_pointer_function "a.cpp" ""
  = Raise AttributeError.
Proof. reflexivity. Qed.

(** ** The two resolvers (lines 100-126 and 643-664) *)

Lemma first_some_none {A B : Type} (f : A -> option B) (l : list A) :
  (forall x, In x l -> f x = None) -> first_some f l = None.
Proof.
  induction l as [|x l IH]; intros H; simpl.
  - reflexivity.
  - rewrite (H x (or_introl eq_refl)). apply IH. intros y Hy. apply H. now right.
Qed.

Lemma first_some_app {A B : Type} (f : A -> option B) (pre post : list A)
      (x : A) (b : B) :
  (forall y, In y pre -> f y = None) -> f x = Some b ->
  first_some f (pre ++ x :: post)%list = Some b.
Proof.
  induction pre as [|y pre IH]; intros Hpre Hx; simpl.
  - now rewrite Hx.
  - rewrite (Hpre y (or_introl eq_refl)). apply IH; [|exact Hx].
    intros z Hz. apply Hpre. now right.
Qed.

Lemma first_some_seq {B : Type} (f : nat -> option B) (n count : nat) (b : B) :
  count < n -> (forall c, c < count -> f c = None) -> f count = Some b ->
  first_some f (seq 0 n) = Some b.
Proof.
  intros Hlt Hbefore Hat.
  replace n with (count + S (n - S count)) by lia.
  rewrite seq_app. simpl seq. apply first_some_app; [|exact Hat].
  intros c Hc. apply in_seq in Hc. apply Hbefore. lia.
Qed.

Lemma find_none_all {A : Type} (p : A -> bool) (l : list A) :
  (forall x, In x l -> p x = false) -> find p l = None.
Proof.
  induction l as [|x l IH]; intros H; simpl.
  - reflexivity.
  - rewrite (H x (or_introl eq_refl)). apply IH. intros y Hy. apply H. now right.
Qed.

(** C8: with the keys [Foo::bar] and [baz] (in either insertion order) the
    global resolver answers the [Foo::bar] entry for the query [bar]; it
    answers the entry of an exact key first, and otherwise the first entry,
    in map order, whose key ends with the longest suffix of the [::]-split
    query that some key ends with; the resolver of a unit with [exact] set
    answers nothing when no function of the unit has the query as its
    qualifier-plus-name. *)
Theorem resolvers_as_specified (V : Type) (foo_bar baz : V) (m : Dict.t V)
        (unit : SourceCodeFile.t) (target : string) :
  (forall f, In f (SourceCodeFile.func_defs unit) ->
             SourceCodeFile.qualified_name f <> target) ->
  get_function_node "bar" [("Foo::bar", foo_bar); ("baz", baz)] false
  = Some foo_bar
  /\ get_function_node "bar" [("baz", baz); ("Foo::bar", foo_bar)] false
     = Some foo_bar
  /\ (forall v one,
        Dict.get m target = Some v -> get_function_node target m one = Some v)
  /\ (forall count pre key v post,
        let suffix c := Str.join "::" (skipn c (Str.split "::" target)) in
        Dict.get m target = None ->
        m = (pre ++ (key, v) :: post)%list ->
        count < List.length (Str.split "::" target) ->
        (forall c item, c < count -> In item m ->
                        Str.endswith (fst item) (suffix c) = false) ->
        (forall item, In item pre ->
                      Str.endswith (fst item) (suffix count) = false) ->
        Str.endswith key (suffix count) = true ->
        get_function_node target m false = Some v)
  /\ SourceCodeFile.get_function_node unit target true = None.
Proof.
  intros Hunit. split; [reflexivity|]. split; [reflexivity|]. split.
  { intros v one Hget. unfold get_function_node. now rewrite Hget. }
  split.
  { intros count pre key v post suffix Hget Hm Hcount Hbefore Hpre Hkey.
    unfold get_function_node. rewrite Hget.
    apply first_some_seq with (count := count); [exact Hcount| |].
    - intros c Hc. apply first_some_none. intros item Hitem.
      fold (suffix c). now rewrite (Hbefore c item Hc Hitem).
    - rewrite Hm. apply first_some_app.
      + intros item Hitem. fold (suffix count). now rewrite (Hpre item Hitem).
      + cbn [fst snd]. fold (suffix count). now rewrite Hkey. }
  unfold SourceCodeFile.get_function_node.
  rewrite find_none_all; [reflexivity|].
  intros f Hf. apply String.eqb_neq. now apply Hunit.
Qed.

Lemma resolvers_as_specified_witness :
  let unit :=
    SourceCodeFile.mk "a.cpp"
      [ Samples.function_record "a.cpp" "Foo" "bar" [];
        Samples.function_record "a.cpp" "" "baz" [] ] in
  SourceCodeFile.get_function_node unit "bar" true = None
  /\ SourceCodeFile.get_function_node unit "bar" false
     = Some (Samples.function_record "a.cpp" "Foo" "bar" []).
Proof.
  intros unit. split; [|reflexivity].
  apply (resolvers_as_specified nat 0 1 [] unit "bar").
  intros f [<-|[<-|[]]]; discriminate.
Defined.

(** ** The call tree before the aggregation pass (lines 456-479) *)

(** C9: on a project without [all_functions], that is before
    [dump_module_logic] ran, [extract_calltree] raises [AttributeError] for
    every non-empty function name, whatever the other arguments. *)
Theorem extract_calltree_before_aggregation
        (fuel : nat) (self : Project.t) (source_file : string)
        (source_code : option SourceCodeFile.t) (function : string)
        (visited_functions : option (list string)) (depth : nat)
        (line_number : Z) :
  Project.all_functions self = None -> function <> "" ->
  Project.extract_calltree (S fuel) self source_file source_code
    (Some function) visited_functions depth line_number
  = Raise AttributeError.
Proof.
  intros Hall Hne. cbn [Project.extract_calltree].
  destruct function as [|c function]; [congruence|]. now rewrite Hall.
Qed.

Lemma extract_calltree_before_aggregation_witness :
  Project.extract_calltree 1
    (Project.new [SourceCodeFile.mk "a.cpp"
                    [Samples.function_record "a.cpp" "" "main" []]])
    "a.cpp" None (Some "main") None 0 (-1)
  = Raise AttributeError.
Proof.
  apply extract_calltree_before_aggregation; [reflexivity|discriminate].
Defined.

(** ** Callsite extraction (lines 269-366) *)

Lemma process_callsites_eq (self : FunctionDefinition.t)
      (functions : Dict.t FunctionDefinition.t) (stmt : Node.t) :
  FunctionDefinition._process_callsites self functions stmt
  = (callsites <-
       (if String.eqb (Node.type stmt) "call_expression"
        then FunctionDefinition._process_invoke self functions stmt
        else if String.eqb (Node.type stmt) "new_expression"
        then match Node.child_by_field_name stmt "type" with
             | Some ctr_type =>
                 Ok [(Node.text ctr_type, Node.end_byte stmt,
                      Node.start_row stmt + 1)]
             | None => Ok []
             end
        else Ok []) ;;
     FunctionDefinition.process_children self functions
       (Node.children stmt) callsites).
Proof. destruct stmt. reflexivity. Qed.

Lemma process_children_extends (self : FunctionDefinition.t)
      (functions : Dict.t FunctionDefinition.t) (l : list Node.t) :
  forall callsites raw,
    FunctionDefinition.process_children self functions l callsites = Ok raw ->
    exists more, raw = (callsites ++ more)%list.
Proof.
  induction l as [|child l IH]; intros callsites raw H; simpl in H.
  - injection H as <-. exists []. now rewrite app_nil_r.
  - destruct (FunctionDefinition._process_callsites self functions child)
      as [more| |]; simpl in H; try discriminate.
    destruct (IH _ _ H) as (more' & ->). exists (more ++ more')%list.
    now rewrite app_assoc.
Qed.

Lemma insert_by_offset_perm (x : FunctionDefinition.raw_callsite)
      (l : list FunctionDefinition.raw_callsite) :
  Permutation (FunctionDefinition.insert_by_offset x l) (x :: l).
Proof.
  induction l as [|y l IH]; simpl.
  - apply Permutation_refl.
  - destruct (Nat.leb _ _).
    + apply Permutation_refl.
    + eapply perm_trans; [apply perm_skip, IH | apply perm_swap].
Qed.

Lemma sorted_by_offset_perm (l : list FunctionDefinition.raw_callsite) :
  Permutation (FunctionDefinition.sorted_by_offset l) l.
Proof.
  induction l as [|x l IH]; simpl.
  - apply perm_nil.
  - eapply perm_trans; [apply insert_by_offset_perm | apply perm_skip, IH].
Qed.

(** After [sorted(set(callsites))] every raw callsite is there once. *)
Lemma deduplicated_once
      (set_iter : list FunctionDefinition.raw_callsite
                  -> list FunctionDefinition.raw_callsite)
      (raw : list FunctionDefinition.raw_callsite)
      (x : FunctionDefinition.raw_callsite) :
  FunctionDefinition.is_set_iteration set_iter -> In x raw ->
  count_occ FunctionDefinition.raw_callsite_eq_dec
            (FunctionDefinition.sorted_by_offset (set_iter raw)) x = 1.
Proof.
  intros Hset Hin. destruct (Hset raw) as [Hnodup Hiff].
  pose proof (sorted_by_offset_perm (set_iter raw)) as Hperm.
  apply (proj1 (Permutation_count_occ FunctionDefinition.raw_callsite_eq_dec
                  _ _)) with (x := x) in Hperm.
  rewrite Hperm.
  apply (proj1 (NoDup_count_occ' FunctionDefinition.raw_callsite_eq_dec _));
    [exact Hnodup | now apply Hiff].
Qed.

Lemma set_iter_first_is_set_iteration :
  FunctionDefinition.is_set_iteration FunctionDefinition.set_iter_first.
Proof.
  intros l. unfold FunctionDefinition.set_iter_first. split.
  - apply NoDup_rev, NoDup_nodup.
  - intros x. rewrite <- in_rev, nodup_In, <- in_rev. tauto.
Qed.

(** C1, as the code has it: for a call expression whose callee is a
    member access that resolves to a non-empty name, [_process_invoke]
    records the same raw entry twice, both times at the end offset and the
    line of the member-access node (the end offset of the call expression
    is not recorded); it opens the raw callsites of the call expression,
    and after the de-duplication it is there exactly once. *)
Theorem member_access_callsite_recorded
        (set_iter : list FunctionDefinition.raw_callsite
                    -> list FunctionDefinition.raw_callsite)
        (self : FunctionDefinition.t)
        (functions : Dict.t FunctionDefinition.t)
        (expr func : Node.t) (type : option string) (target_name : string) :
  FunctionDefinition.is_set_iteration set_iter ->
  Node.type expr = "call_expression" ->
  Node.child_by_field_name expr "function" = Some func ->
  Node.type func = "field_expression" ->
  FunctionDefinition._process_field_expr_return_type self functions func
  = Ok (type, target_name) ->
  target_name <> "" ->
  let entry := (target_name, Node.end_byte func, Node.start_row func + 1) in
  FunctionDefinition._process_invoke self functions expr = Ok [entry; entry]
  /\ (forall raw,
        FunctionDefinition._process_callsites self functions expr = Ok raw ->
        exists more, raw = entry :: entry :: more)
  /\ (forall raw,
        In entry raw ->
        count_occ FunctionDefinition.raw_callsite_eq_dec
                  (FunctionDefinition.sorted_by_offset (set_iter raw)) entry
        = 1).
Proof.
  intros Hset Hexpr Hfunc Hty Hres Hne entry.
  assert (Hinvoke : FunctionDefinition._process_invoke self functions expr
                    = Ok [entry; entry]).
  { unfold FunctionDefinition._process_invoke. rewrite Hfunc, Hty, Hres.
    cbn. apply nonempty_true in Hne. now rewrite Hne. }
  split; [exact Hinvoke|]. split.
  - intros raw Hraw. rewrite process_callsites_eq, Hexpr, Hinvoke in Hraw.
    cbn in Hraw. apply process_children_extends in Hraw as (more & ->).
    now exists more.
  - intros raw Hin. now apply deduplicated_once.
Qed.

Lemma member_access_callsite_recorded_witness :
  let self := Samples.function_record "a.cpp" "" "f" [] in
  FunctionDefinition._process_invoke self [] Samples.method_call
  = Ok [("run", 18, 1); ("run", 18, 1)].
Proof.
  intros self.
  apply (member_access_callsite_recorded
           FunctionDefinition.set_iter_first self [] Samples.method_call
           Samples.member_access None "run").
  - exact set_iter_first_is_set_iteration.
  - reflexivity.
  - reflexivity.
  - reflexivity.
  - reflexivity.
  - discriminate.
Defined.

(** C1 as stated fails on [void f() { obj.run(); }]: the member access
    ends at byte 18 and the call at byte 20, yet both raw entries are at 18,
    no raw callsite of the function is recorded at 20, and one base
    callsite is left. *)
Lemma member_access_callsite_not_at_call_end :
  Node.end_byte Samples.member_access = 18
  /\ Node.end_byte Samples.method_call = 20
  /\ (self <- FunctionDefinition.new Samples.method_call_function "a.cpp" "" ;;
      FunctionDefinition._process_invoke self [] Samples.method_call)
     = Ok [("run", 18, 1); ("run", 18, 1)]
  /\ (self <- FunctionDefinition.new Samples.method_call_function "a.cpp" "" ;;
      FunctionDefinition.raw_callsites self [])
     = Ok [("run", 18, 1); ("run", 18, 1)]
  /\ (self <- FunctionDefinition.new Samples.method_call_function "a.cpp" "" ;;
      raw <- FunctionDefinition.raw_callsites self [] ;;
      Ok (existsb (fun entry => Nat.eqb (snd (fst entry)) 20) raw))
     = Ok false
  /\ (self <- FunctionDefinition.new Samples.method_call_function "a.cpp" "" ;;
      self <- FunctionDefinition.extract_callsites
                FunctionDefinition.set_iter_first self [] ;;
      Ok (FunctionDefinition.base_callsites self))
     = Ok [("run", 1)].
Proof. repeat split. Qed.

(** *** Idempotence *)

Lemma node_induction (P : Node.t -> Prop) :
  (forall n, Forall P (Node.children n) -> P n) -> forall n, P n.
Proof.
  intros H. fix IH 1. intros [ty nm fd tx sr er eb ch]. apply H. simpl.
  induction ch as [|c ch IHch]; constructor; [apply IH | exact IHch].
Qed.

Lemma dict_get_signature (m m' : Dict.t FunctionDefinition.t) (k : string) :
  same_signatures m m' ->
  option_map FunctionDefinition.return_type (Dict.get m k)
  = option_map FunctionDefinition.return_type (Dict.get m' k).
Proof.
  induction 1 as [|[k1 v1] [k2 v2] m m' [Hk Hr] _ IH]; simpl in *.
  - reflexivity.
  - subst k2. destruct (String.eqb k1 k); simpl; [now rewrite Hr | exact IH].
Qed.

Lemma first_some_signature (m m' : Dict.t FunctionDefinition.t)
      (suffix : string) :
  same_signatures m m' ->
  option_map FunctionDefinition.return_type
    (first_some (fun item : string * FunctionDefinition.t =>
                   if Str.endswith (fst item) suffix
                   then Some (snd item) else None) m)
  = option_map FunctionDefinition.return_type
      (first_some (fun item : string * FunctionDefinition.t =>
                     if Str.endswith (fst item) suffix
                     then Some (snd item) else None) m').
Proof.
  induction 1 as [|[k1 v1] [k2 v2] m m' [Hk Hr] _ IH]; simpl in *.
  - reflexivity.
  - subst k2. destruct (Str.endswith k1 suffix); simpl; [now rewrite Hr | exact IH].
Qed.

Lemma get_function_node_signature (m m' : Dict.t FunctionDefinition.t)
      (target_name : string) (one_layer_only : bool) :
  same_signatures m m' ->
  option_map FunctionDefinition.return_type
    (get_function_node target_name m one_layer_only)
  = option_map FunctionDefinition.return_type
      (get_function_node target_name m' one_layer_only).
Proof.
  intros Hs. unfold get_function_node.
  pose proof (dict_get_signature m m' target_name Hs) as Hget.
  destruct (Dict.get m target_name), (Dict.get m' target_name);
    simpl in Hget; try discriminate; [exact Hget|].
  generalize (seq 0 (List.length
    (if one_layer_only then Str.split_first "::" target_name
     else Str.split "::" target_name))).
  intros counts. induction counts as [|count counts IH]; simpl.
  - reflexivity.
  - pose proof (first_some_signature m m'
      (Str.join "::" (skipn count
         (if one_layer_only then Str.split_first "::" target_name
          else Str.split "::" target_name))) Hs) as Hc.
    destruct (first_some _ m), (first_some _ m');
      simpl in Hc; try discriminate; [exact Hc | exact IH].
Qed.

Lemma process_field_expr_eq (self : FunctionDefinition.t)
      (functions : Dict.t FunctionDefinition.t) (field_expr : Node.t) :
  FunctionDefinition._process_field_expr_return_type self functions field_expr
  = (name <- match Node.child_by_field_name field_expr "field" with
             | Some f => Ok (Node.text f)
             | None => Raise AttributeError
             end ;;
     object_type <- FunctionDefinition.object_type_of self functions
                      (Node.children field_expr) ;;
     match object_type with
     | Some (String c o) =>
         let object_type := String c o in
         let full_name :=
           if String.eqb object_type "void" then name
           else object_type ++ "::" ++ name in
         match get_function_node full_name functions false with
         | Some node =>
             Ok (Some (FunctionDefinition.return_type node), full_name)
         | None => Ok (None, full_name)
         end
     | _ => Ok (None, name)
     end).
Proof. destruct field_expr. reflexivity. Qed.

Section SameSignatures.

Variables self self' : FunctionDefinition.t.
Variables functions functions' : Dict.t FunctionDefinition.t.
Hypothesis same_qualifier :
  FunctionDefinition.namespace_or_class self
  = FunctionDefinition.namespace_or_class self'.
Hypothesis same_map : same_signatures functions functions'.

Lemma process_field_expr_signature (field_expr : Node.t) :
  FunctionDefinition._process_field_expr_return_type self functions field_expr
  = FunctionDefinition._process_field_expr_return_type
      self' functions' field_expr.
Proof.
  induction field_expr as [n IH] using node_induction.
  rewrite !process_field_expr_eq.
  assert (Hobj : FunctionDefinition.object_type_of self functions
                   (Node.children n)
                 = FunctionDefinition.object_type_of self' functions'
                     (Node.children n)).
  { induction IH as [|arg l Harg _ IHl]; simpl.
    - reflexivity.
    - rewrite Harg, IHl, same_qualifier. reflexivity. }
  rewrite Hobj.
  destruct (Node.child_by_field_name n "field"); [|reflexivity]. simpl.
  destruct (FunctionDefinition.object_type_of self' functions' _)
    as [[[|c o]|]| |]; try reflexivity.
  simpl.
  pose proof (get_function_node_signature functions functions'
    (if String.eqb (String c o) "void" then Node.text t
     else String c o ++ "::" ++ Node.text t) false same_map) as Hg.
  destruct (get_function_node _ functions false),
           (get_function_node _ functions' false);
    simpl in Hg; try discriminate; [|reflexivity].
  now injection Hg as ->.
Qed.

Lemma process_invoke_signature (expr : Node.t) :
  FunctionDefinition._process_invoke self functions expr
  = FunctionDefinition._process_invoke self' functions' expr.
Proof.
  unfold FunctionDefinition._process_invoke.
  destruct (Node.child_by_field_name expr "function") as [func|];
    [|reflexivity].
  now rewrite process_field_expr_signature.
Qed.

Lemma process_callsites_signature (stmt : Node.t) :
  FunctionDefinition._process_callsites self functions stmt
  = FunctionDefinition._process_callsites self' functions' stmt.
Proof.
  induction stmt as [n IH] using node_induction.
  rewrite !process_callsites_eq, process_invoke_signature.
  destruct (if String.eqb (Node.type n) "call_expression" then _ else _)
    as [callsites| |]; try reflexivity.
  simpl. revert callsites.
  induction IH as [|child l Hchild _ IHl]; intros callsites; simpl.
  - reflexivity.
  - rewrite Hchild.
    destruct (FunctionDefinition._process_callsites self' functions' child);
      simpl; [apply IHl | reflexivity | reflexivity].
Qed.

Lemma raw_callsites_signature :
  FunctionDefinition.root self = FunctionDefinition.root self' ->
  FunctionDefinition.raw_callsites self functions
  = FunctionDefinition.raw_callsites self' functions'.
Proof.
  intros Hroot. unfold FunctionDefinition.raw_callsites. rewrite Hroot.
  generalize (@nil FunctionDefinition.raw_callsite).
  induction (Node.children (FunctionDefinition.root self'))
    as [|child l IHl]; intros callsites; simpl.
  - reflexivity.
  - rewrite process_callsites_signature.
    destruct (FunctionDefinition._process_callsites self' functions' child);
      simpl; [apply IHl | reflexivity | reflexivity].
Qed.

End SameSignatures.

Lemma same_signatures_refl (m : Dict.t FunctionDefinition.t) :
  same_signatures m m.
Proof. induction m; constructor; auto. Qed.

(** C4: [extract_callsites] is idempotent.  When a call returns, a second
    call on the function it left leaves the function as it is, base and
    detailed callsites included; the global map may be the first call's map
    itself or that map after extraction changed the callsite fields of its
    functions. *)
Theorem extract_callsites_idempotent
        (set_iter : list FunctionDefinition.raw_callsite
                    -> list FunctionDefinition.raw_callsite)
        (self self1 : FunctionDefinition.t)
        (functions functions' : Dict.t FunctionDefinition.t) :
  same_signatures functions functions' ->
  FunctionDefinition.extract_callsites set_iter self functions = Ok self1 ->
  FunctionDefinition.extract_callsites set_iter self1 functions' = Ok self1
  /\ FunctionDefinition.extract_callsites set_iter self1 functions = Ok self1.
Proof.
  assert (Hone : forall fs',
             same_signatures functions fs' ->
             FunctionDefinition.extract_callsites set_iter self functions
             = Ok self1 ->
             FunctionDefinition.extract_callsites set_iter self1 fs'
             = Ok self1).
  { intros fs' Hsame Hfirst.
    unfold FunctionDefinition.extract_callsites in Hfirst.
    destruct self as [root src ns sl el name cx ic an aty rt sg fu fd base det].
    cbn [FunctionDefinition.base_callsites] in Hfirst.
    destruct base as [|b base].
    - destruct (FunctionDefinition.raw_callsites _ functions) as [raw| |] eqn:Hraw;
        try discriminate.
      cbn in Hfirst.
      assert (Hraw' : forall self',
                 FunctionDefinition.root self' = root ->
                 FunctionDefinition.namespace_or_class self' = ns ->
                 FunctionDefinition.raw_callsites self' fs' = Ok raw).
      { intros self' Hroot Hns. rewrite <- Hraw. symmetry.
        apply raw_callsites_signature; [now rewrite Hns|exact Hsame|now rewrite Hroot]. }
      match type of Hfirst with
      | context [map ?f (FunctionDefinition.sorted_by_offset ?l)] =>
          remember (map f (FunctionDefinition.sorted_by_offset l))
            as base1 eqn:Hbase1
      end.
      destruct det as [|d det]; injection Hfirst as <-;
        unfold FunctionDefinition.extract_callsites;
        cbn [FunctionDefinition.base_callsites
             FunctionDefinition.detailed_callsites
             FunctionDefinition.set_detailed_callsites
             FunctionDefinition.set_base_callsites];
        (destruct base1 as [|b1 base1];
         [ rewrite Hraw' by reflexivity; cbn; rewrite <- Hbase1; reflexivity
         | reflexivity ]).
    - cbn in Hfirst.
      destruct det as [|d det]; injection Hfirst as <-; reflexivity. }
  intros Hsame Hfirst. split.
  - now apply Hone.
  - apply Hone; [apply same_signatures_refl | exact Hfirst].
Qed.

Lemma extract_callsites_idempotent_witness :
  let self := Samples.method_call_record [] [] in
  let self1 := Samples.method_call_record [("run", 1)] [("a.cpp:1,1", "run")] in
  FunctionDefinition.new Samples.method_call_function "a.cpp" "" = Ok self
  /\ FunctionDefinition.extract_callsites
       FunctionDefinition.set_iter_first self [("f", self)] = Ok self1
  /\ FunctionDefinition.extract_callsites
       FunctionDefinition.set_iter_first self1 [("f", self1)] = Ok self1.
Proof.
  intros self self1. split; [reflexivity|]. split; [reflexivity|].
  apply (extract_callsites_idempotent FunctionDefinition.set_iter_first
           self self1 [("f", self)] [("f", self1)]).
  - constructor; [split; reflexivity | constructor].
  - reflexivity.
Defined.

(** ** Function depth (lines 566-592) *)

Lemma mem_In (x : string) (l : list string) : mem x l = true <-> In x l.
Proof.
  unfold mem. rewrite existsb_exists. split.
  - intros (y & Hy & He). apply String.eqb_eq in He. now subst.
  - intros H. exists x. split; [exact H | apply String.eqb_refl].
Qed.

Lemma mem_false (x : string) (l : list string) : mem x l = false <-> ~ In x l.
Proof.
  rewrite <- mem_In. destruct (mem x l); split; intros H; congruence.
Qed.

Lemma foldM_mono {A S : Type} (body body' : S -> A -> result S) (l : list A) :
  (forall s x r, body s x = Ok r -> body' s x = Ok r) ->
  forall s r, foldM body l s = Ok r -> foldM body' l s = Ok r.
Proof.
  intros Hb. induction l as [|x l IH]; intros s r H; simpl in *.
  - exact H.
  - destruct (body s x) as [s'| |] eqn:E; try discriminate.
    rewrite (Hb _ _ _ E). simpl in *. now apply IH.
Qed.

Lemma recursive_depth_step (fuel : nat) (self : Project.t)
      (function : FunctionDefinition.t) (visited : list string) :
  Project._recursive_function_depth (S fuel) self function visited
  = match FunctionDefinition.base_callsites function with
    | [] => Ok (0, visited)
    | callsites =>
        foldM (Project.visit_callsite self
                 (Project._recursive_function_depth fuel self))
              callsites
              (0, (visited ++ [FunctionDefinition.name function])%list)
    end.
Proof.
  cbn [Project._recursive_function_depth].
  destruct (FunctionDefinition.base_callsites function); reflexivity.
Qed.

(** More fuel does not change an answer. *)
Lemma recursive_depth_more_fuel (self : Project.t) (fuel : nat) :
  forall function visited r,
    Project._recursive_function_depth fuel self function visited = Ok r ->
    Project._recursive_function_depth (S fuel) self function visited = Ok r.
Proof.
  induction fuel as [|fuel IH]; intros function visited r H.
  - discriminate.
  - rewrite recursive_depth_step in *.
    destruct (FunctionDefinition.base_callsites function) as [|c cs];
      [exact H|].
    revert H. apply foldM_mono. intros [depth v] callsite r' Hb.
    unfold Project.visit_callsite in *.
    destruct (Project.find_source_with_func_def self (fst callsite));
      [|exact Hb].
    destruct (mem _ v); [exact Hb|].
    destruct (Project._recursive_function_depth fuel self _ v) eqn:E;
      try discriminate.
    now rewrite (IH _ _ _ E).
Qed.

Lemma recursive_depth_fuel_le (self : Project.t) (fuel fuel' : nat)
      (function : FunctionDefinition.t) (visited : list string)
      (r : nat * list string) :
  fuel <= fuel' ->
  Project._recursive_function_depth fuel self function visited = Ok r ->
  Project._recursive_function_depth fuel' self function visited = Ok r.
Proof.
  induction 1 as [|fuel' _ IH]; intros H.
  - exact H.
  - now apply recursive_depth_more_fuel, IH.
Qed.

(** *** What the resolver of a project answers *)

Lemma unit_get_function_node_in (unit : SourceCodeFile.t) (target : string)
      (exact : bool) (f : FunctionDefinition.t) :
  SourceCodeFile.get_function_node unit target exact = Some f ->
  In f (SourceCodeFile.func_defs unit).
Proof.
  unfold SourceCodeFile.get_function_node.
  match goal with
  | |- match ?x with _ => _ end = _ -> _ => destruct x eqn:E1
  end.
  { intros [= <-]. now apply find_some in E1. }
  destruct exact; [discriminate|].
  match goal with
  | |- match ?x with _ => _ end = _ -> _ => destruct x eqn:E2
  end.
  { intros [= <-]. now apply find_some in E2. }
  intros E3. now apply find_some in E3.
Qed.

Lemma sources_with_target_in (self : Project.t) (name : string) (exact : bool)
      (found : SourceCodeFile.t * FunctionDefinition.t) :
  In found (Project.sources_with_target self name exact) ->
  In (fst found) (Project.source_code_files self)
  /\ In (snd found) (SourceCodeFile.func_defs (fst found)).
Proof.
  unfold Project.sources_with_target. rewrite in_flat_map.
  intros (unit & Hunit & Hin).
  destruct (SourceCodeFile.get_function_node unit name exact) eqn:E;
    simpl in Hin; [|contradiction].
  destruct Hin as [<-|[]]. simpl. split; [exact Hunit|].
  exact (unit_get_function_node_in _ _ _ _ E).
Qed.

Lemma find_source_in (self : Project.t) (name : string)
      (target : SourceCodeFile.t * FunctionDefinition.t) :
  Project.find_source_with_func_def self name = Some target ->
  In (FunctionDefinition.name (snd target)) (all_names self).
Proof.
  intros H.
  assert (Hin : exists exact,
             In target (Project.sources_with_target self name exact)).
  { unfold Project.find_source_with_func_def in H.
    destruct (Project.sources_with_target self name true)
      as [|x [|y l]] eqn:E1.
    - destruct (Project.sources_with_target self name false)
        as [|x' [|y' l']] eqn:E2; try discriminate.
      injection H as <-. exists false. rewrite E2. now left.
    - injection H as <-. exists true. rewrite E1. now left.
    - destruct (Project.sources_with_target self name false)
        as [|x' [|y' l']] eqn:E2; try discriminate.
      injection H as <-. exists false. rewrite E2. now left. }
  destruct Hin as (exact & Hin).
  apply sources_with_target_in in Hin as [Hunit Hf].
  unfold all_names. apply in_map, in_flat_map. eauto.
Qed.

(** *** The measure *)

Lemma filter_length_mono {A : Type} (P Q : A -> bool) (l : list A) :
  (forall x, Q x = true -> P x = true) ->
  List.length (filter Q l) <= List.length (filter P l).
Proof.
  intros H. induction l as [|x l IH]; simpl; [lia|].
  destruct (Q x) eqn:EQ.
  - rewrite (H x EQ). simpl. lia.
  - destruct (P x); simpl; lia.
Qed.

Lemma filter_length_strict {A : Type} (P Q : A -> bool) (l : list A) (x : A) :
  (forall y, Q y = true -> P y = true) ->
  In x l -> P x = true -> Q x = false ->
  List.length (filter Q l) < List.length (filter P l).
Proof.
  intros H. induction l as [|y l IH]; simpl; [contradiction|].
  intros [->|Hin] HP HQ.
  - rewrite HP, HQ. simpl.
    pose proof (filter_length_mono P Q l H). lia.
  - specialize (IH Hin HP HQ). destruct (Q y) eqn:EQ.
    + rewrite (H y EQ). simpl. lia.
    + destruct (P y); simpl; lia.
Qed.

Lemma unvisited_le (names visited visited' : list string) :
  incl visited visited' -> unvisited names visited' <= unvisited names visited.
Proof.
  intros Hincl. apply filter_length_mono. intros n Hn.
  apply negb_true_iff in Hn. apply negb_true_iff.
  apply mem_false. apply mem_false in Hn. intros Hin. apply Hn, Hincl, Hin.
Qed.

Lemma unvisited_lt (names visited visited' : list string) (n : string) :
  incl visited visited' -> In n names -> ~ In n visited -> In n visited' ->
  unvisited names visited' < unvisited names visited.
Proof.
  intros Hincl Hall Hnot Hin. apply filter_length_strict with (x := n).
  - intros y Hy. apply negb_true_iff in Hy. apply negb_true_iff.
    apply mem_false. apply mem_false in Hy. intros Hy'. apply Hy, Hincl, Hy'.
  - exact Hall.
  - apply negb_true_iff. now apply mem_false.
  - apply negb_false_iff. now apply mem_In.
Qed.

Lemma unvisited_bound (names visited : list string) :
  unvisited names visited <= List.length names.
Proof. apply filter_length_le. Qed.

Lemma remaining_le (self : Project.t) (visited visited' : list string) :
  incl visited visited' -> remaining self visited' <= remaining self visited.
Proof. apply unvisited_le. Qed.

Lemma remaining_lt (self : Project.t) (visited : list string) (n : string) :
  In n (all_names self) -> ~ In n visited ->
  remaining self (visited ++ [n]) < remaining self visited.
Proof.
  intros Hall Hnot. apply unvisited_lt with (n := n); auto.
  - apply incl_appl, incl_refl.
  - apply in_or_app. right. now left.
Qed.

Lemma remaining_bound (self : Project.t) (visited : list string) :
  remaining self visited <= List.length (all_names self).
Proof. apply unvisited_bound. Qed.

(** *** The shared list only grows *)

Lemma visit_callsite_unresolved (self : Project.t)
      (recurse : FunctionDefinition.t -> list string
                 -> result (nat * list string))
      (depth : nat) (visited : list string) (callsite : string * nat) :
  Project.find_source_with_func_def self (fst callsite) = None ->
  Project.visit_callsite self recurse (depth, visited) callsite
  = Ok (depth, (visited ++ [fst callsite])%list).
Proof. intros H. unfold Project.visit_callsite. now rewrite H. Qed.

Lemma visit_callsite_visited (self : Project.t)
      (recurse : FunctionDefinition.t -> list string
                 -> result (nat * list string))
      (depth : nat) (visited : list string) (callsite : string * nat)
      (target : SourceCodeFile.t * FunctionDefinition.t) :
  Project.find_source_with_func_def self (fst callsite) = Some target ->
  In (FunctionDefinition.name (snd target)) visited ->
  Project.visit_callsite self recurse (depth, visited) callsite
  = Ok (Nat.max depth 1, visited).
Proof.
  intros H Hin. unfold Project.visit_callsite. rewrite H.
  apply mem_In in Hin. now rewrite Hin.
Qed.

Lemma visit_callsite_recurse (self : Project.t)
      (recurse : FunctionDefinition.t -> list string
                 -> result (nat * list string))
      (depth : nat) (visited : list string) (callsite : string * nat)
      (target : SourceCodeFile.t * FunctionDefinition.t) :
  Project.find_source_with_func_def self (fst callsite) = Some target ->
  ~ In (FunctionDefinition.name (snd target)) visited ->
  Project.visit_callsite self recurse (depth, visited) callsite
  = ('(d, visited) <- recurse (snd target) visited ;;
     Ok (Nat.max depth (d + 1), visited)).
Proof.
  intros H Hin. unfold Project.visit_callsite. rewrite H.
  apply mem_false in Hin. now rewrite Hin.
Qed.

(** The three cases of a callsite. *)
Lemma visit_callsite_cases (self : Project.t) (visited : list string)
      (callsite : string * nat) :
  Project.find_source_with_func_def self (fst callsite) = None
  \/ (exists target,
        Project.find_source_with_func_def self (fst callsite) = Some target
        /\ In (FunctionDefinition.name (snd target)) visited)
  \/ (exists target,
        Project.find_source_with_func_def self (fst callsite) = Some target
        /\ ~ In (FunctionDefinition.name (snd target)) visited).
Proof.
  destruct (Project.find_source_with_func_def self (fst callsite))
    as [target|]; [|now left].
  right. destruct (mem (FunctionDefinition.name (snd target)) visited) eqn:E.
  - left. exists target. split; [reflexivity|]. now apply mem_In.
  - right. exists target. split; [reflexivity|]. now apply mem_false.
Qed.

Lemma visit_loop_grows (self : Project.t)
      (recurse : FunctionDefinition.t -> list string
                 -> result (nat * list string)) :
  (forall f v d v', recurse f v = Ok (d, v') -> incl v v') ->
  forall callsites acc v d v',
    foldM (Project.visit_callsite self recurse) callsites (acc, v) = Ok (d, v') ->
    incl v v'.
Proof.
  intros Hrec. induction callsites as [|c cs IH]; intros acc v d v' H.
  - injection H as <- <-. apply incl_refl.
  - cbn [foldM bind] in H.
    destruct (visit_callsite_cases self v c)
      as [Hc|[(target & Hc & Hin)|(target & Hc & Hin)]].
    + rewrite (visit_callsite_unresolved _ _ _ _ _ Hc) in H. cbn [foldM bind] in H.
      apply IH in H. eapply incl_tran; [|exact H]. apply incl_appl, incl_refl.
    + rewrite (visit_callsite_visited _ _ _ _ _ _ Hc Hin) in H. cbn [foldM bind] in H.
      now apply IH in H.
    + rewrite (visit_callsite_recurse _ _ _ _ _ _ Hc Hin) in H.
      destruct (recurse (snd target) v) as [[d1 v1]| |] eqn:Er;
        try discriminate.
      cbn [foldM bind] in H. apply IH in H. eapply incl_tran; [|exact H].
      exact (Hrec _ _ _ _ Er).
Qed.

Lemma recursive_depth_grows (self : Project.t) (fuel : nat) :
  forall f v d v',
    Project._recursive_function_depth fuel self f v = Ok (d, v') -> incl v v'.
Proof.
  induction fuel as [|fuel IH]; intros f v d v' H; [discriminate|].
  rewrite recursive_depth_step in H.
  destruct (FunctionDefinition.base_callsites f) as [|c cs].
  - injection H as <- <-. apply incl_refl.
  - apply visit_loop_grows in H; [|exact IH].
    eapply incl_tran; [|exact H]. apply incl_appl, incl_refl.
Qed.

(** *** Termination *)

Lemma visit_loop_terminates (self : Project.t) (fuel : nat) :
  (forall f v,
      remaining self (v ++ [FunctionDefinition.name f]) < fuel ->
      exists d v', Project._recursive_function_depth fuel self f v = Ok (d, v')) ->
  forall callsites acc v,
    remaining self v <= fuel ->
    exists d v',
      foldM (Project.visit_callsite self
               (Project._recursive_function_depth fuel self))
            callsites (acc, v) = Ok (d, v').
Proof.
  intros Hrec. induction callsites as [|c cs IH]; intros acc v Hv.
  - simpl. eauto.
  - cbn [foldM].
    destruct (visit_callsite_cases self v c)
      as [Hc|[(target & Hc & Hin)|(target & Hc & Hin)]].
    + rewrite (visit_callsite_unresolved _ _ _ _ _ Hc). cbn [bind]. apply IH.
      pose proof (remaining_le self v (v ++ [fst c])
                    (incl_appl _ (incl_refl _))). lia.
    + rewrite (visit_callsite_visited _ _ _ _ _ _ Hc Hin). cbn [bind]. now apply IH.
    + rewrite (visit_callsite_recurse _ _ _ _ _ _ Hc Hin).
      pose proof (remaining_lt self v _ (find_source_in _ _ _ Hc) Hin) as Hlt.
      destruct (Hrec (snd target) v) as (d1 & v1 & Er); [lia|].
      rewrite Er. cbn [bind]. apply IH.
      pose proof (remaining_le self v v1 (recursive_depth_grows _ _ _ _ _ _ Er)).
      lia.
Qed.

Lemma recursive_depth_terminates (self : Project.t) (fuel : nat) :
  forall f v,
    remaining self (v ++ [FunctionDefinition.name f]) < fuel ->
    exists d v', Project._recursive_function_depth fuel self f v = Ok (d, v').
Proof.
  induction fuel as [|fuel IH]; intros f v H; [lia|].
  rewrite recursive_depth_step.
  destruct (FunctionDefinition.base_callsites f) as [|c cs]; [eauto|].
  apply visit_loop_terminates; [exact IH | lia].
Qed.

(** *** The answers are the depths of [depth_of] *)

Lemma list_max_cons (x : nat) (l : list nat) :
  list_max (x :: l) = Nat.max x (list_max l).
Proof. reflexivity. Qed.

Lemma visit_loop_sound (self : Project.t)
      (recurse : FunctionDefinition.t -> list string
                 -> result (nat * list string)) :
  (forall f v d v', recurse f v = Ok (d, v') -> depth_of self f v d v') ->
  forall callsites acc v d v',
    foldM (Project.visit_callsite self recurse) callsites (acc, v) = Ok (d, v') ->
    exists contributed,
      contributions self v callsites contributed v'
      /\ d = Nat.max acc (list_max contributed).
Proof.
  intros Hrec. induction callsites as [|c cs IH]; intros acc v d v' H.
  - injection H as <- <-. exists []. split; [constructor|]. simpl. lia.
  - cbn [foldM bind] in H.
    destruct (visit_callsite_cases self v c)
      as [Hc|[(target & Hc & Hin)|(target & Hc & Hin)]].
    + rewrite (visit_callsite_unresolved _ _ _ _ _ Hc) in H. cbn [foldM bind] in H.
      apply IH in H as (contributed & Hcs & ->).
      exists (0 :: contributed). split.
      * now apply contributions_unresolved.
      * rewrite list_max_cons. lia.
    + rewrite (visit_callsite_visited _ _ _ _ _ _ Hc Hin) in H. cbn [foldM bind] in H.
      apply IH in H as (contributed & Hcs & ->).
      exists (1 :: contributed). split.
      * now apply contributions_visited with (target := target).
      * rewrite list_max_cons. lia.
    + rewrite (visit_callsite_recurse _ _ _ _ _ _ Hc Hin) in H.
      destruct (recurse (snd target) v) as [[d1 v1]| |] eqn:Er;
        try discriminate.
      cbn [foldM bind] in H. apply IH in H as (contributed & Hcs & ->).
      exists (1 + d1 :: contributed). split.
      * apply contributions_recurse with (target := target) (visited1 := v1);
          auto.
      * rewrite list_max_cons. lia.
Qed.

Lemma recursive_depth_sound (self : Project.t) (fuel : nat) :
  forall f v d v',
    Project._recursive_function_depth fuel self f v = Ok (d, v') ->
    depth_of self f v d v'.
Proof.
  induction fuel as [|fuel IH]; intros f v d v' H; [discriminate|].
  rewrite recursive_depth_step in H.
  destruct (FunctionDefinition.base_callsites f) as [|c cs] eqn:Hcs.
  - injection H as <- <-. now apply depth_leaf.
  - apply visit_loop_sound in H as (contributed & Hc & ->); [|exact IH].
    simpl. apply depth_calls; [congruence|]. now rewrite Hcs.
Qed.

(** *** [depth_of] names one depth *)

Scheme depth_of_both := Minimality for depth_of Sort Prop
  with contributions_both := Minimality for contributions Sort Prop.

Lemma depth_of_deterministic (self : Project.t) (f : FunctionDefinition.t)
      (visited : list string) (d : nat) (visited' : list string) :
  depth_of self f visited d visited' ->
  forall d2 visited2,
    depth_of self f visited d2 visited2 -> d2 = d /\ visited2 = visited'.
Proof.
  intros H.
  induction H using depth_of_both
    with (P0 := fun visited callsites contributed visited' =>
                  forall contributed2 visited2,
                    contributions self visited callsites contributed2 visited2 ->
                    contributed2 = contributed /\ visited2 = visited').
  - (* no callsites *)
    intros d2 visited2 Hother. inversion Hother; subst; [auto|congruence].
  - (* callsites *)
    intros d2 visited2 Hother. inversion Hother; subst; [congruence|].
    match goal with
    | Hc : contributions _ _ _ _ _ |- _ =>
        apply IHdepth_of in Hc as [-> ->]
    end. auto.
  - intros contributed2 visited2 Hother. inversion Hother; subst. auto.
  - (* unresolved *)
    intros contributed2 visited2 Hother. inversion Hother; subst; try congruence.
    match goal with
    | Hc : contributions _ _ _ _ _ |- _ =>
        apply IHdepth_of in Hc as [-> ->]
    end. auto.
  - (* resolved, name in the list *)
    intros contributed2 visited2 Hother. inversion Hother; subst; try congruence.
    match goal with
    | Hc : contributions _ _ _ _ _ |- _ =>
        apply IHdepth_of in Hc as [-> ->]
    end. auto.
  - (* resolved, recursed into *)
    intros contributed2 visited2 Hother. inversion Hother; subst; try congruence.
    match goal with
    | Ha : Project.find_source_with_func_def _ _ = Some ?t,
      Hb : Project.find_source_with_func_def _ _ = Some ?t' |- _ =>
        rewrite Ha in Hb; injection Hb as <-
    end.
    match goal with
    | Hd : depth_of _ _ _ _ _ |- _ => apply IHdepth_of in Hd as [-> ->]
    end.
    match goal with
    | Hc : contributions _ _ _ _ _ |- _ =>
        apply IHdepth_of0 in Hc as [-> ->]
    end. auto.
Qed.

(** *** The depth of a function *)

Lemma calculate_function_depth_eq (fuel : nat) (self : Project.t)
      (f : FunctionDefinition.t) (d : nat) (visited : list string) :
  Project._recursive_function_depth fuel self f [] = Ok (d, visited) ->
  Project.calculate_function_depth fuel self f = Ok d.
Proof. intros H. unfold Project.calculate_function_depth. now rewrite H. Qed.

(** Every query of the depth answers, and the answer is the depth of
    [depth_of]. *)
Lemma calculate_function_depth_total (self : Project.t)
      (f : FunctionDefinition.t) :
  exists d visited,
    depth_of self f [] d visited
    /\ (forall d' visited', depth_of self f [] d' visited' -> d' = d)
    /\ forall fuel,
         List.length (all_names self) < fuel ->
         Project.calculate_function_depth fuel self f = Ok d.
Proof.
  pose proof (remaining_bound self ([] ++ [FunctionDefinition.name f])) as Hb.
  destruct (recursive_depth_terminates self
              (S (List.length (all_names self))) f []) as (d & v & H); [lia|].
  pose proof (recursive_depth_sound _ _ _ _ _ _ H) as Hd.
  exists d, v. split; [exact Hd|]. split.
  - intros d' v' Hd'. exact (proj1 (depth_of_deterministic _ _ _ _ _ Hd _ _ Hd')).
  - intros fuel Hfuel. apply calculate_function_depth_eq with (visited := v).
    apply recursive_depth_fuel_le with (fuel := S (List.length (all_names self)));
      [lia | exact H].
Qed.




(** The harness and its helper, in two units. *)
Example harness_scenario :
  Dict.keys (Project.collect_all_functions
               (Project.source_code_files Samples.harness_project))
  = ["helper"; "LLVMFuzzerTestOneInput"]
  /\ Project.calculate_function_uses Samples.harness_project "helper" = 1
  /\ Project.calculate_function_depth 2 Samples.harness_project Samples.harness
     = Ok 1
  /\ map SourceCodeFile.has_libfuzzer_harness
         (Project.source_code_files Samples.harness_project)
     = [false; true].
Proof. repeat split. Qed.

(** *** Mutual recursion *)

(** A run of callsites that all resolve to a function whose name is in the
    list: each contributes 1 and none is recursed into. *)
Lemma visit_loop_all_visited (self : Project.t)
      (recurse : FunctionDefinition.t -> list string
                 -> result (nat * list string))
      (t : FunctionDefinition.t) (visited : list string) :
  In (FunctionDefinition.name t) visited ->
  forall callsites acc,
    (forall c, In c callsites ->
       exists unit, Project.find_source_with_func_def self (fst c)
                    = Some (unit, t)) ->
    foldM (Project.visit_callsite self recurse) callsites (acc, visited)
    = Ok (match callsites with
          | [] => acc
          | _ :: _ => Nat.max acc 1
          end, visited).
Proof.
  intros Hin. induction callsites as [|c cs IH]; intros acc Hall.
  - reflexivity.
  - cbn [foldM]. destruct (Hall c (or_introl eq_refl)) as (unit & Hc).
    rewrite (visit_callsite_visited _ _ _ _ _ _ Hc Hin). cbn [bind].
    rewrite IH by (intros y Hy; apply Hall; now right).
    destruct cs; [reflexivity|]. f_equal. f_equal. lia.
Qed.

Lemma mutual_recursion_one_side (self : Project.t)
      (f g : FunctionDefinition.t) (fuel : nat) :
  FunctionDefinition.base_callsites f <> [] ->
  FunctionDefinition.base_callsites g <> [] ->
  (forall c, In c (FunctionDefinition.base_callsites f) ->
     exists unit, Project.find_source_with_func_def self (fst c)
                  = Some (unit, g)) ->
  (forall c, In c (FunctionDefinition.base_callsites g) ->
     exists unit, Project.find_source_with_func_def self (fst c)
                  = Some (unit, f)) ->
  Project.calculate_function_depth (S (S fuel)) self f
  = Ok (if String.eqb (FunctionDefinition.name f) (FunctionDefinition.name g)
        then 1 else 2).
Proof.
  intros Hf Hg Hfg Hgf. unfold Project.calculate_function_depth.
  rewrite recursive_depth_step.
  destruct (FunctionDefinition.base_callsites f) as [|c cs] eqn:Hcs;
    [congruence|].
  destruct (String.eqb_spec (FunctionDefinition.name f)
                            (FunctionDefinition.name g)) as [Heq|Hne].
  - rewrite (visit_loop_all_visited self _ g); [reflexivity| |exact Hfg].
    rewrite <- Heq. now left.
  - cbn [foldM]. destruct (Hfg c (or_introl eq_refl)) as (unit & Hc).
    rewrite (visit_callsite_recurse _ _ _ _ _ _ Hc);
      [|simpl; intros [H|[]]; congruence].
    cbn [snd]. rewrite recursive_depth_step.
    destruct (FunctionDefinition.base_callsites g) as [|c' cs'] eqn:Hcs';
      [congruence|].
    rewrite (visit_loop_all_visited self _ f); [|now left|exact Hgf].
    cbn [bind].
    rewrite (visit_loop_all_visited self _ g);
      [|right; now left|intros y Hy; apply Hfg; now right].
    destruct cs; reflexivity.
Qed.

(** C3: for two mutually recursive functions the query of the depth answers
    on both, whatever fuel is left beyond two levels: 2 when the names
    differ, the re-entered function contributing 1 at the point of re-entry
    and the function that re-enters 1 more, and 1 when both functions have
    the same simple name. *)
Theorem mutual_recursion_depth (self : Project.t)
        (f g : FunctionDefinition.t) (fuel : nat) :
  FunctionDefinition.base_callsites f <> [] ->
  FunctionDefinition.base_callsites g <> [] ->
  (forall c, In c (FunctionDefinition.base_callsites f) ->
     exists unit, Project.find_source_with_func_def self (fst c)
                  = Some (unit, g)) ->
  (forall c, In c (FunctionDefinition.base_callsites g) ->
     exists unit, Project.find_source_with_func_def self (fst c)
                  = Some (unit, f)) ->
  Project.calculate_function_depth (S (S fuel)) self f
  = Ok (if String.eqb (FunctionDefinition.name f) (FunctionDefinition.name g)
        then 1 else 2)
  /\ Project.calculate_function_depth (S (S fuel)) self g
     = Ok (if String.eqb (FunctionDefinition.name g) (FunctionDefinition.name f)
           then 1 else 2)
  (* [g] entered from [f]: every callsite of [g] re-enters [f] and counts 1 *)
  /\ Project._recursive_function_depth (S fuel) self g
       [FunctionDefinition.name f]
     = Ok (1, [FunctionDefinition.name f; FunctionDefinition.name g]).
Proof.
  intros Hf Hg Hfg Hgf. split; [|split].
  - now apply mutual_recursion_one_side.
  - now apply mutual_recursion_one_side.
  - rewrite recursive_depth_step.
    destruct (FunctionDefinition.base_callsites g) as [|c cs] eqn:Hcs;
      [congruence|].
    rewrite (visit_loop_all_visited self _ f); [reflexivity|now left|exact Hgf].
Qed.

Lemma mutual_recursion_depth_witness :
  Project.calculate_function_depth 2 Samples.mutual_project Samples.mutual_f
  = Ok 2
  /\ Project.calculate_function_depth 2 Samples.mutual_project Samples.mutual_g
     = Ok 2.
Proof.
  destruct (mutual_recursion_depth Samples.mutual_project
              Samples.mutual_f Samples.mutual_g 0) as (Hf & Hg & _);
    [| | | |split; [exact Hf | exact Hg]].
  - discriminate.
  - discriminate.
  - intros c [<-|[]]. eexists. reflexivity.
  - intros c [<-|[]]. eexists. reflexivity.
Defined.

(** *** Unresolved callees in the shared list *)

Lemma foldM_app {A S : Type} (body : S -> A -> result S) (l1 l2 : list A)
      (s : S) :
  foldM body (l1 ++ l2)%list s = (s' <- foldM body l1 s ;; foldM body l2 s').
Proof.
  revert s. induction l1 as [|x l1 IH]; intros s; simpl.
  - reflexivity.
  - destruct (body s x); simpl; [apply IH | reflexivity | reflexivity].
Qed.

Scheme appends_both := Minimality for appends Sort Prop
  with appends_in_both := Minimality for appends_in Sort Prop.

(** The list a callsite leaves is the list of the description in words. *)
Lemma visit_callsite_list (self : Project.t) (fuel : nat)
      (callsite : string * nat) (acc d : nat)
      (visited visited1 v : list string) (contributed : list nat) :
  contributions self visited [callsite] contributed visited1 ->
  Project.visit_callsite self (Project._recursive_function_depth fuel self)
                         (acc, visited) callsite = Ok (d, v) ->
  v = visited1.
Proof.
  intros Hc H. inversion Hc as [| ? ? ? ? ? Hnone Hrest
                                | ? ? ? ? ? ? Hfind Hin Hrest
                                | ? ? ? ? ? ? ? ? Hfind Hnot Hd Hrest]; subst;
    inversion Hrest; subst.
  - rewrite (visit_callsite_unresolved _ _ _ _ _ Hnone) in H.
    now injection H as _ <-.
  - rewrite (visit_callsite_visited _ _ _ _ _ _ Hfind Hin) in H.
    now injection H as _ <-.
  - rewrite (visit_callsite_recurse _ _ _ _ _ _ Hfind Hnot) in H.
    destruct (Project._recursive_function_depth fuel self _ visited)
      as [[dr vr]| |] eqn:E; cbn [bind] in H; try discriminate.
    injection H as _ <-.
    apply recursive_depth_sound in E.
    exact (proj2 (depth_of_deterministic _ _ _ _ _ Hd _ _ E)).
Qed.

(** A name appended at a callsite that does not resolve is in the list
    when the call returns, at whatever depth of the recursion the
    callsite was met. *)
Lemma appends_stays (self : Project.t) (x : string) :
  (forall f visited,
      appends self x f visited ->
      forall fuel d visited',
        Project._recursive_function_depth fuel self f visited
        = Ok (d, visited') ->
        In x visited')
  /\ (forall visited callsites,
        appends_in self x visited callsites ->
        forall fuel acc d visited',
          foldM (Project.visit_callsite
                   self (Project._recursive_function_depth fuel self))
                callsites (acc, visited) = Ok (d, visited') ->
          In x visited').
Proof.
  assert (Hgrow : forall fuel callsites acc v d v',
             foldM (Project.visit_callsite
                      self (Project._recursive_function_depth fuel self))
                   callsites (acc, v) = Ok (d, v') ->
             incl v v').
  { intros fuel. apply visit_loop_grows. apply recursive_depth_grows. }
  set (P := fun f visited =>
              forall fuel d visited',
                Project._recursive_function_depth fuel self f visited
                = Ok (d, visited') ->
                In x visited').
  set (P0 := fun visited callsites =>
               forall fuel acc d visited',
                 foldM (Project.visit_callsite
                          self (Project._recursive_function_depth fuel self))
                       callsites (acc, visited) = Ok (d, visited') ->
                 In x visited').
  assert (Hcalls : forall f visited,
             FunctionDefinition.base_callsites f <> [] ->
             appends_in self x (visited ++ [FunctionDefinition.name f])%list
                        (FunctionDefinition.base_callsites f) ->
             P0 (visited ++ [FunctionDefinition.name f])%list
                (FunctionDefinition.base_callsites f) ->
             P f visited).
  { intros f visited Hne _ IH [|fuel] d visited' Hrun; [discriminate|].
    rewrite recursive_depth_step in Hrun.
    destruct (FunctionDefinition.base_callsites f) as [|c cs];
      [congruence|]. exact (IH fuel 0 d visited' Hrun). }
  assert (Hhere : forall visited callsite callsites,
             fst callsite = x ->
             Project.find_source_with_func_def self x = None ->
             P0 visited (callsite :: callsites)).
  { intros visited callsite callsites Hx Hnone fuel acc d visited' Hrun.
    cbn [foldM] in Hrun.
    rewrite visit_callsite_unresolved in Hrun by congruence.
    cbn [bind] in Hrun.
    apply (Hgrow _ _ _ _ _ _ Hrun). apply in_or_app. right. now left. }
  assert (Hinside : forall visited callsite callsites target,
             Project.find_source_with_func_def self (fst callsite)
             = Some target ->
             ~ In (FunctionDefinition.name (snd target)) visited ->
             appends self x (snd target) visited ->
             P (snd target) visited ->
             P0 visited (callsite :: callsites)).
  { intros visited callsite callsites target Hfind Hnot _ IH
           fuel acc d visited' Hrun.
    cbn [foldM] in Hrun.
    rewrite (visit_callsite_recurse _ _ _ _ _ _ Hfind Hnot) in Hrun.
    destruct (Project._recursive_function_depth fuel self (snd target) visited)
      as [[dr vr]| |] eqn:E; cbn [bind] in Hrun; try discriminate.
    apply (Hgrow _ _ _ _ _ _ Hrun). exact (IH fuel dr vr E). }
  assert (Hlater : forall visited visited1 callsite callsites contributed,
             contributions self visited [callsite] contributed visited1 ->
             appends_in self x visited1 callsites ->
             P0 visited1 callsites ->
             P0 visited (callsite :: callsites)).
  { intros visited visited1 callsite callsites contributed Hstep _ IH
           fuel acc d visited' Hrun.
    cbn [foldM] in Hrun.
    destruct (Project.visit_callsite _ _ (acc, visited) callsite)
      as [[d1 v1]| |] eqn:E; cbn [bind] in Hrun; try discriminate.
    rewrite (visit_callsite_list _ _ _ _ _ _ _ _ _ Hstep E) in Hrun.
    exact (IH fuel d1 d visited' Hrun). }
  split.
  - exact (appends_both self x P P0 Hcalls Hhere Hinside Hlater).
  - exact (appends_in_both self x P P0 Hcalls Hhere Hinside Hlater).
Qed.

(** C10: the name of a callee that does not resolve is appended to the
    shared list; it stays there through every later recursive call and
    every later callsite of the query; and a callsite met while it is there
    that resolves to a function of that name contributes 1 and is not
    recursed into, the list and the fuel being left as they are.  The list
    is one for the whole query: the list a recursive call leaves is the
    list its caller goes on with, so a name appended inside a recursive
    call, at any depth, is in the list after the call returned, and a
    callsite of the caller that comes later and resolves to a function of
    that name contributes 1 and is not recursed into. *)
Theorem unresolved_callee_marks_visited (self : Project.t)
        (callsite : string * nat) :
  Project.find_source_with_func_def self (fst callsite) = None ->
  (forall recurse depth visited,
      Project.visit_callsite self recurse (depth, visited) callsite
      = Ok (depth, (visited ++ [fst callsite])%list))
  /\ (forall fuel function visited d visited',
        In (fst callsite) visited ->
        Project._recursive_function_depth fuel self function visited
        = Ok (d, visited') ->
        In (fst callsite) visited')
  /\ (forall recurse depth visited later target,
        In (fst callsite) visited ->
        Project.find_source_with_func_def self (fst later) = Some target ->
        FunctionDefinition.name (snd target) = fst callsite ->
        Project.visit_callsite self recurse (depth, visited) later
        = Ok (Nat.max depth 1, visited))
  /\ (forall fuel between later rest target depth visited d1 visited1,
        Project.find_source_with_func_def self (fst later) = Some target ->
        FunctionDefinition.name (snd target) = fst callsite ->
        foldM (Project.visit_callsite self
                 (Project._recursive_function_depth fuel self))
              between (depth, (visited ++ [fst callsite])%list)
        = Ok (d1, visited1) ->
        foldM (Project.visit_callsite self
                 (Project._recursive_function_depth fuel self))
              (callsite :: between ++ later :: rest)%list (depth, visited)
        = foldM (Project.visit_callsite self
                   (Project._recursive_function_depth fuel self))
                rest (Nat.max d1 1, visited1))
  /\ (forall fuel via target depth visited d visited',
        Project.find_source_with_func_def self (fst via) = Some target ->
        ~ In (FunctionDefinition.name (snd target)) visited ->
        Project._recursive_function_depth fuel self (snd target) visited
        = Ok (d, visited') ->
        Project.visit_callsite self
          (Project._recursive_function_depth fuel self) (depth, visited) via
        = Ok (Nat.max depth (d + 1), visited'))
  /\ (forall fuel function visited d visited',
        appends self (fst callsite) function visited ->
        Project._recursive_function_depth fuel self function visited
        = Ok (d, visited') ->
        In (fst callsite) visited')
  /\ (forall fuel before later rest target depth visited d1 visited1,
        appends_in self (fst callsite) visited before ->
        Project.find_source_with_func_def self (fst later) = Some target ->
        FunctionDefinition.name (snd target) = fst callsite ->
        foldM (Project.visit_callsite self
                 (Project._recursive_function_depth fuel self))
              before (depth, visited)
        = Ok (d1, visited1) ->
        foldM (Project.visit_callsite self
                 (Project._recursive_function_depth fuel self))
              (before ++ later :: rest)%list (depth, visited)
        = foldM (Project.visit_callsite self
                   (Project._recursive_function_depth fuel self))
                rest (Nat.max d1 1, visited1)).
Proof.
  intros Hnone. split; [|split; [|split; [|split; [|split; [|split]]]]].
  - intros recurse depth visited. now apply visit_callsite_unresolved.
  - intros fuel function visited d visited' Hin H.
    exact (recursive_depth_grows _ _ _ _ _ _ H _ Hin).
  - intros recurse depth visited later target Hin Hfind Hname.
    apply visit_callsite_visited with (target := target); [exact Hfind|].
    now rewrite Hname.
  - intros fuel between later rest target depth visited d1 visited1
           Hfind Hname Hbetween.
    cbn [foldM]. rewrite (visit_callsite_unresolved _ _ _ _ _ Hnone).
    cbn [bind]. rewrite foldM_app, Hbetween. cbn [bind foldM].
    rewrite (visit_callsite_visited _ _ _ _ _ _ Hfind); [reflexivity|].
    rewrite Hname.
    apply (visit_loop_grows _ _ (recursive_depth_grows self fuel)
             _ _ _ _ _ Hbetween).
    apply in_or_app. right. now left.
  - intros fuel via target depth visited d visited' Hfind Hnot H.
    rewrite (visit_callsite_recurse _ _ _ _ _ _ Hfind Hnot), H.
    reflexivity.
  - intros fuel function visited d visited' Happ H.
    exact (proj1 (appends_stays self (fst callsite)) _ _ Happ _ _ _ H).
  - intros fuel before later rest target depth visited d1 visited1
           Happ Hfind Hname Hbefore.
    rewrite foldM_app, Hbefore. cbn [bind foldM].
    rewrite (visit_callsite_visited _ _ _ _ _ _ Hfind); [reflexivity|].
    rewrite Hname.
    exact (proj2 (appends_stays self (fst callsite)) _ _ Happ _ _ _ _ Hbefore).
Qed.

Lemma unresolved_callee_marks_visited_witness :
  let self := Samples.ambiguous_project in
  let recurse := Project._recursive_function_depth 2 self in
  let nested := Samples.nested_ambiguous_project in
  Project.find_source_with_func_def self "x" = None
  /\ Project.visit_callsite self recurse (0, ["f"]) ("x", 3)
     = Ok (0, ["f"; "x"])
  /\ Project.visit_callsite self recurse (0, ["f"; "x"]) ("N::x", 3)
     = Ok (1, ["f"; "x"])
  /\ Project._recursive_function_depth 3 self Samples.ambiguous_f []
     = Ok (1, ["f"; "x"])
  /\ Project.calculate_function_depth 3 self Samples.ambiguous_n_x = Ok 1
  /\ Project.find_source_with_func_def nested "x" = None
  /\ Project._recursive_function_depth 2 nested Samples.ambiguous_g ["f"]
     = Ok (0, ["f"; "g"; "x"])
  /\ Project.visit_callsite nested (Project._recursive_function_depth 2 nested)
                            (0, ["f"]) ("g", 3)
     = Ok (1, ["f"; "g"; "x"])
  /\ In "x" ["f"; "g"; "x"]
  /\ foldM (Project.visit_callsite
              nested (Project._recursive_function_depth 2 nested))
           [("g", 3); ("N::x", 3)] (0, ["f"])
     = Ok (1, ["f"; "g"; "x"])
  /\ Project._recursive_function_depth 3 nested Samples.ambiguous_caller []
     = Ok (1, ["f"; "g"; "x"]).
Proof.
  intros self recurse nested.
  pose proof (unresolved_callee_marks_visited self ("x", 3) eq_refl)
    as (Happend & _ & Hlater & _).
  pose proof (unresolved_callee_marks_visited nested ("x", 4) eq_refl)
    as (_ & _ & _ & _ & Hshared & Hstays & Hafter).
  set (unit_a := SourceCodeFile.mk "a.cpp"
                   [Samples.ambiguous_leaf; Samples.ambiguous_n_x;
                    Samples.ambiguous_g; Samples.ambiguous_caller]).
  assert (Hg : appends nested "x" Samples.ambiguous_g ["f"]).
  { apply appends_calls; [discriminate|].
    apply appends_here; reflexivity. }
  split; [reflexivity|]. split; [apply Happend|].
  split.
  { apply (Hlater recurse 0 ["f"; "x"] ("N::x", 3)
             (SourceCodeFile.mk "a.cpp"
                [Samples.ambiguous_leaf; Samples.ambiguous_n_x;
                 Samples.ambiguous_f], Samples.ambiguous_n_x)).
    - right. now left.
    - reflexivity.
    - reflexivity. }
  split; [reflexivity|]. split; [reflexivity|]. split; [reflexivity|].
  split; [reflexivity|].
  split.
  { apply (Hshared 2 ("g", 3) (unit_a, Samples.ambiguous_g) 0 ["f"] 0
                   ["f"; "g"; "x"]).
    - reflexivity.
    - intros [H|[]]. discriminate H.
    - reflexivity. }
  split.
  { apply (Hstays 2 Samples.ambiguous_g ["f"] 0 ["f"; "g"; "x"] Hg).
    reflexivity. }
  split; [|reflexivity].
  apply (Hafter 2 [("g", 3)] ("N::x", 3) []
                (unit_a, Samples.ambiguous_n_x) 0 ["f"] 1 ["f"; "g"; "x"]).
  - apply (appends_inside nested "x" ["f"] ("g", 3) []
                          (unit_a, Samples.ambiguous_g)).
    + reflexivity.
    + intros [H|[]]. discriminate H.
    + exact Hg.
  - reflexivity.
  - reflexivity.
  - reflexivity.
Defined.

(** ** The call tree (lines 456-512) *)



(** One call of [extract_calltree] on a non-empty name, with the set it is
    given. *)
Lemma extract_calltree_step (fuel : nat) (self : Project.t)
      (all_functions : Dict.t FunctionDefinition.t) (source_file : string)
      (source_code : option SourceCodeFile.t) (function : string)
      (visited : list string) (depth : nat) (line_number : Z) :
  Project.all_functions self = Some all_functions -> function <> "" ->
  Project.extract_calltree (S fuel) self source_file source_code
    (Some function) (Some visited) depth line_number
  = let func_node := get_function_node function all_functions false in
    let unit :=
      match source_code with
      | Some unit => Some unit
      | None => option_map fst (Project.find_source_with_func_def self function)
      end in
    let line_to_print :=
      Project.calltree_line depth
        match func_node with
        | Some func_node => SourceCodeFile.qualified_name func_node
        | None => function
        end source_file line_number in
    match mem function visited, func_node, unit with
    | false, Some func_node, Some unit =>
        foldM
          (fun (st : string * list string) (cs : string * nat) =>
             '(sub, visited_functions) <-
                Project.extract_calltree fuel self
                  (SourceCodeFile.source_file unit)
                  None (Some (fst cs)) (Some (snd st))
                  (depth + 1) (Z.of_nat (snd cs)) ;;
             Ok (fst st ++ sub, visited_functions))
          (FunctionDefinition.base_callsites func_node)
          (line_to_print, Project.set_add function visited)
    | _, _, _ => Ok (line_to_print, visited)
    end.
Proof.
  intros Hall Hne. destruct function as [|c function]; [congruence|].
  cbn [Project.extract_calltree]. rewrite Hall.
  destruct visited; reflexivity.
Qed.


(** *** The rendering answers *)

Lemma first_some_some {A B : Type} (f : A -> option B) (l : list A) (b : B) :
  first_some f l = Some b -> exists x, In x l /\ f x = Some b.
Proof.
  induction l as [|x l IH]; simpl; [discriminate|].
  destruct (f x) as [b'|] eqn:E.
  - intros [= <-]. exists x. split; [now left | exact E].
  - intros H. destruct (IH H) as (y & Hy & Hf). exists y. split; [now right|exact Hf].
Qed.

Lemma dict_get_in {V : Type} (d : Dict.t V) (k : string) (v : V) :
  Dict.get d k = Some v -> In v (Dict.values d).
Proof.
  induction d as [|[k' v'] d IH]; simpl; [discriminate|].
  destruct (String.eqb k' k).
  - intros [= <-]. now left.
  - intros H. right. now apply IH.
Qed.

(** The global resolver answers a function of the map. *)
Lemma get_function_node_in {V : Type} (target_name : string)
      (function_map : Dict.t V) (one_layer_only : bool) (v : V) :
  get_function_node target_name function_map one_layer_only = Some v ->
  In v (Dict.values function_map).
Proof.
  unfold get_function_node.
  destruct (Dict.get function_map target_name) as [v'|] eqn:E.
  - intros [= <-]. exact (dict_get_in _ _ _ E).
  - intros H. apply first_some_some in H as (count & _ & H).
    apply first_some_some in H as ([k x] & Hin & H). cbn [fst snd] in H.
    destruct (Str.endswith k _); [|discriminate]. injection H as <-.
    unfold Dict.values. now apply (in_map snd) in Hin.
Qed.

Lemma extract_calltree_empty_name (fuel : nat) (self : Project.t)
      (source_file : string) (source_code : option SourceCodeFile.t)
      (visited : list string) (depth : nat) (line_number : Z) :
  Project.extract_calltree (S fuel) self source_file source_code
    (Some "") (Some visited) depth line_number = Ok ("", visited).
Proof. cbn [Project.extract_calltree]. destruct visited; reflexivity. Qed.



Section CalltreeTermination.

Variable self : Project.t.
Variable all_functions : Dict.t FunctionDefinition.t.
Hypothesis aggregated : Project.all_functions self = Some all_functions.

Let names : list string := callee_names all_functions.


Lemma callsites_in_names (function : string) (node : FunctionDefinition.t) :
  get_function_node function all_functions false = Some node ->
  forall cs, In cs (FunctionDefinition.base_callsites node) ->
             In (fst cs) names.
Proof.
  intros Hnode cs Hcs. apply get_function_node_in in Hnode.
  unfold names, callee_names. apply in_flat_map. exists node.
  split; [exact Hnode | now apply in_map].
Qed.



End CalltreeTermination.




(** * Further properties of the frontend *)

(** ** More on strings *)

Lemma str_app_nil_r (s : string) : s ++ "" = s.
Proof. induction s as [|c s IH]; simpl; [reflexivity | now rewrite IH]. Qed.

Lemma str_app_assoc (a b c : string) : (a ++ b) ++ c = a ++ b ++ c.
Proof. induction a as [|x a IH]; simpl; [reflexivity | now rewrite IH]. Qed.

Lemma str_length_app (a b : string) :
  String.length (a ++ b) = String.length a + String.length b.
Proof. induction a as [|x a IH]; simpl; [reflexivity | now rewrite IH]. Qed.

Lemma of_list_app (l1 l2 : list ascii) :
  string_of_list_ascii (l1 ++ l2)
  = string_of_list_ascii l1 ++ string_of_list_ascii l2.
Proof. induction l1 as [|x l1 IH]; simpl; [reflexivity | now rewrite IH]. Qed.

Lemma drop_app_length (a b : string) : Str.drop (String.length a) (a ++ b) = b.
Proof. induction a as [|x a IH]; simpl; [reflexivity | exact IH]. Qed.

Lemma drop_split (n : nat) (s : string) :
  exists pre, s = pre ++ Str.drop n s.
Proof.
  revert s. induction n as [|n IH]; intros s.
  - exists "". reflexivity.
  - destruct s as [|c s].
    + exists "". reflexivity.
    + destruct (IH s) as (pre & Hpre). exists (String c pre).
      simpl. now rewrite <- Hpre.
Qed.

Lemma startswith_iff (s p : string) :
  Str.startswith s p = true <-> exists rest, s = p ++ rest.
Proof.
  revert s. induction p as [|a p IH]; intros s; simpl.
  - split; [intros _; now exists s | reflexivity].
  - destruct s as [|b s].
    + split; [discriminate | intros (rest & H); discriminate].
    + rewrite andb_true_iff, IH. split.
      * intros (Hab & rest & ->). apply Ascii.eqb_eq in Hab. subst.
        now exists rest.
      * intros (rest & H). injection H as -> ->. split.
        -- apply Ascii.eqb_refl.
        -- now exists rest.
Qed.

(** [s.endswith(p)] says that [s] is something followed by [p]. *)
Lemma endswith_iff (s p : string) :
  Str.endswith s p = true <-> exists pre, s = pre ++ p.
Proof.
  unfold Str.endswith. rewrite andb_true_iff, Nat.leb_le, String.eqb_eq.
  split.
  - intros (_ & Hdrop).
    destruct (drop_split (String.length s - String.length p) s) as (pre & H).
    exists pre. now rewrite Hdrop in H.
  - intros (pre & ->). rewrite str_length_app. split; [lia|].
    replace (String.length pre + String.length p - String.length p)
      with (String.length pre) by lia.
    apply drop_app_length.
Qed.

Lemma endswith_refl (s : string) : Str.endswith s s = true.
Proof. apply endswith_iff. now exists "". Qed.

Lemma endswith_trans (s p q : string) :
  Str.endswith s p = true -> Str.endswith p q = true ->
  Str.endswith s q = true.
Proof.
  rewrite !endswith_iff. intros (a & ->) (b & ->). exists (a ++ b).
  now rewrite str_app_assoc.
Qed.

Lemma split_from_nonempty (sep : string) (skip : nat) (cur : list ascii)
      (s : string) :
  Str.split_from sep skip cur s <> [].
Proof.
  revert skip cur. induction s as [|c s IH]; intros skip cur; simpl.
  - discriminate.
  - destruct skip; [|apply IH].
    destruct (Str.startswith (String c s) sep); [discriminate | apply IH].
Qed.

Lemma join_cons (sep x : string) (l : list string) :
  l <> [] -> Str.join sep (x :: l) = x ++ sep ++ Str.join sep l.
Proof. destruct l; [congruence | reflexivity]. Qed.

(** Joining the pieces of a split gives the string back; with [skip]
    characters of a separator still to jump over, it gives what follows
    them. *)
Lemma join_split_from (a : ascii) (sep' : string) (s : string) :
  forall skip cur,
    Str.join (String a sep') (Str.split_from (String a sep') skip cur s)
    = string_of_list_ascii (rev cur) ++ Str.drop skip s.
Proof.
  set (sep := String a sep').
  induction s as [|c s IH]; intros skip cur.
  - destruct skip; cbn; now rewrite str_app_nil_r.
  - cbn [Str.split_from]. destruct skip as [|skip].
    + destruct (Str.startswith (String c s) sep) eqn:Hstart.
      * rewrite join_cons by apply split_from_nonempty.
        rewrite IH. cbn [rev string_of_list_ascii String.append Str.drop].
        apply startswith_iff in Hstart as (rest & Hrest).
        rewrite Hrest. unfold sep in *. cbn [String.append] in Hrest.
        injection Hrest as -> ->.
        cbn [String.length Nat.sub]. rewrite Nat.sub_0_r, drop_app_length.
        reflexivity.
      * rewrite IH. cbn [rev Str.drop]. rewrite of_list_app.
        now rewrite str_app_assoc.
    + rewrite IH. reflexivity.
Qed.

Lemma join_split (s : string) : Str.join "::" (Str.split "::" s) = s.
Proof. unfold Str.split. now rewrite join_split_from. Qed.

Lemma split_nonempty (s : string) : Str.split "::" s <> [].
Proof. apply split_from_nonempty. Qed.

(** ** More on the global resolver (lines 643-664) *)

Lemma dict_get_some_in {V : Type} (d : Dict.t V) (k : string) (v : V) :
  Dict.get d k = Some v -> In (k, v) d.
Proof.
  induction d as [|[k' v'] d IH]; simpl; [discriminate|].
  destruct (String.eqb_spec k' k) as [->|Hne].
  - intros [= <-]. now left.
  - intros H. right. now apply IH.
Qed.

Lemma first_some_not_none {A B : Type} (f : A -> option B) (l : list A)
      (x : A) :
  In x l -> f x <> None -> first_some f l <> None.
Proof.
  induction l as [|y l IH]; simpl; [contradiction|].
  intros [->|Hin] Hx.
  - destruct (f x); [discriminate | congruence].
  - destruct (f y); [discriminate | now apply IH].
Qed.

Lemma join_ends_with_last (sep : string) (l : list string) :
  l <> [] -> Str.endswith (Str.join sep l) (last l "") = true.
Proof.
  induction l as [|x l IH]; [congruence|]. intros _.
  destruct l as [|y l].
  - apply endswith_refl.
  - rewrite join_cons by discriminate.
    change (last (x :: y :: l) "") with (last (y :: l) "").
    specialize (IH ltac:(discriminate)).
    apply endswith_iff in IH as (pre & ->). apply endswith_iff.
    exists (x ++ sep ++ pre). now rewrite !str_app_assoc.
Qed.

Lemma last_skipn {A : Type} (l : list A) (n : nat) (d : A) :
  n < List.length l -> last (skipn n l) d = last l d.
Proof.
  revert l. induction n as [|n IH]; intros l Hn; [reflexivity|].
  destruct l as [|x l]; simpl in Hn; [lia|].
  cbn [skipn]. rewrite IH by lia.
  destruct l; [simpl in Hn; lia | reflexivity].
Qed.

Lemma skipn_nonempty {A : Type} (l : list A) (n : nat) :
  n < List.length l -> skipn n l <> [].
Proof.
  intros Hn H. apply (f_equal (@List.length A)) in H.
  rewrite length_skipn in H. simpl in H. lia.
Qed.

(** Every suffix the resolver tries ends with the last segment. *)
Lemma suffix_ends_with_last (target : string) (count : nat) :
  count < List.length (Str.split "::" target) ->
  Str.endswith (Str.join "::" (skipn count (Str.split "::" target)))
               (SourceCodeFile.last_segment (Str.split "::" target)) = true.
Proof.
  intros Hc. unfold SourceCodeFile.last_segment.
  rewrite <- (last_skipn _ count) by exact Hc.
  apply join_ends_with_last. now apply skipn_nonempty.
Qed.

(** X1: the first suffix the global resolver tries is the whole query:
    when the query is no key, the answer is the first entry, in map order,
    whose key ends with the query, if there is one. *)
Theorem global_resolver_whole_query_first (V : Type) (m : Dict.t V)
        (target : string) (pre post : Dict.t V) (key : string) (v : V) :
  Dict.get m target = None ->
  m = (pre ++ (key, v) :: post)%list ->
  (forall item, In item pre -> Str.endswith (fst item) target = false) ->
  Str.endswith key target = true ->
  get_function_node target m false = Some v.
Proof.
  intros Hget Hm Hpre Hkey. unfold get_function_node. rewrite Hget.
  apply first_some_seq with (count := 0).
  - pose proof (split_nonempty target).
    destruct (Str.split "::" target); [congruence | simpl; lia].
  - intros c Hc. lia.
  - cbn [skipn]. rewrite join_split, Hm. apply first_some_app.
    + intros item Hitem. now rewrite (Hpre item Hitem).
    + cbn [fst snd]. now rewrite Hkey.
Qed.

Lemma global_resolver_whole_query_first_witness :
  get_function_node "N::x"
    [("leaf", 1); ("M::N::x", 2); ("N::x::y", 3); ("K::N::x", 4)] false
  = Some 2.
Proof.
  apply (global_resolver_whole_query_first nat _ "N::x"
           [("leaf", 1)] [("N::x::y", 3); ("K::N::x", 4)] "M::N::x" 2).
  - reflexivity.
  - reflexivity.
  - intros item [<-|[]]. reflexivity.
  - reflexivity.
Defined.

(** X2: the global resolver answers nothing exactly when no key of the map
    ends with the last [::] segment of the query, and the key of an answer
    does end with it. *)
Theorem global_resolver_none_iff (V : Type) (m : Dict.t V) (target : string) :
  (get_function_node target m false = None
   <-> forall item, In item m ->
         Str.endswith (fst item)
           (SourceCodeFile.last_segment (Str.split "::" target)) = false)
  /\ (forall v,
        get_function_node target m false = Some v ->
        exists key,
          In (key, v) m
          /\ Str.endswith key
               (SourceCodeFile.last_segment (Str.split "::" target)) = true).
Proof.
  set (segments := Str.split "::" target).
  assert (Hlen : 0 < List.length segments).
  { pose proof (split_nonempty target). unfold segments.
    destruct (Str.split "::" target); [congruence | simpl; lia]. }
  assert (Hsome : forall v,
             get_function_node target m false = Some v ->
             exists key,
               In (key, v) m
               /\ Str.endswith key (SourceCodeFile.last_segment segments)
                  = true).
  { intros v H. unfold get_function_node in H. cbv beta iota in H.
    fold segments in H.
    destruct (Dict.get m target) as [v'|] eqn:Hget.
    - injection H as ->. exists target. split.
      + now apply dict_get_some_in.
      + pose proof (suffix_ends_with_last target 0 Hlen) as Hs.
        cbn [skipn] in Hs. now rewrite join_split in Hs.
    - apply first_some_some in H as (count & Hcount & H).
      apply in_seq in Hcount.
      apply first_some_some in H as ([key x] & Hin & H). cbn [fst snd] in H.
      destruct (Str.endswith key _) eqn:Hend; [|discriminate].
      injection H as ->. exists key. split; [exact Hin|].
      eapply endswith_trans; [exact Hend|].
      apply suffix_ends_with_last. fold segments. simpl in Hcount. lia. }
  split; [|exact Hsome]. split.
  - intros Hnone [key v] Hin. cbn [fst].
    destruct (Str.endswith key (SourceCodeFile.last_segment segments))
      eqn:Hend; [|reflexivity].
    exfalso. revert Hnone. unfold get_function_node. cbv beta iota.
    fold segments.
    destruct (Dict.get m target); [discriminate|].
    apply first_some_not_none with (x := List.length segments - 1).
    + apply in_seq. fold segments. lia.
    + apply first_some_not_none with (x := (key, v)); [exact Hin|].
      cbn [fst snd]. fold segments.
      assert (Hlast : Str.join "::" (skipn (List.length segments - 1) segments)
                      = SourceCodeFile.last_segment segments).
      { unfold SourceCodeFile.last_segment.
        rewrite <- (last_skipn segments (List.length segments - 1)) by lia.
        pose proof (length_skipn (List.length segments - 1) segments) as Hl.
        destruct (skipn (List.length segments - 1) segments) as [|x [|y l]];
          simpl in Hl; try lia. reflexivity. }
      rewrite Hlast, Hend. discriminate.
  - intros Hall. destruct (get_function_node target m false) as [v|] eqn:E;
      [|reflexivity].
    destruct (Hsome v eq_refl) as (key & Hin & Hend).
    specialize (Hall (key, v) Hin). cbn [fst] in Hall. congruence.
Qed.

(** ** The resolver of a unit (lines 100-126) *)

Lemma find_first {A : Type} (p : A -> bool) (l : list A) (x : A) :
  find p l = Some x ->
  exists pre post,
    l = (pre ++ x :: post)%list /\ p x = true
    /\ forall y, In y pre -> p y = false.
Proof.
  induction l as [|y l IH]; simpl; [discriminate|].
  destruct (p y) eqn:Hy.
  - intros [= ->]. exists [], l. repeat split; [exact Hy | contradiction].
  - intros H. destruct (IH H) as (pre & post & -> & Hx & Hpre).
    exists (y :: pre), post. repeat split; [exact Hx|].
    intros z [<-|Hz]; [exact Hy | now apply Hpre].
Qed.

Lemma find_none_iff {A : Type} (p : A -> bool) (l : list A) :
  find p l = None <-> forall x, In x l -> p x = false.
Proof.
  split.
  - intros H x Hx. exact (find_none p l H x Hx).
  - apply find_none_all.
Qed.

(** X3: with [exact] set, the resolver of a unit answers the first function
    of the unit whose qualifier-plus-name is the query, and nothing when
    there is none. *)
Theorem unit_resolver_exact (unit : SourceCodeFile.t) (target : string) :
  (forall f,
      SourceCodeFile.get_function_node unit target true = Some f ->
      SourceCodeFile.qualified_name f = target
      /\ exists pre post,
           SourceCodeFile.func_defs unit = (pre ++ f :: post)%list
           /\ forall g, In g pre -> SourceCodeFile.qualified_name g <> target)
  /\ (SourceCodeFile.get_function_node unit target true = None
      <-> forall f, In f (SourceCodeFile.func_defs unit) ->
                    SourceCodeFile.qualified_name f <> target).
Proof.
  unfold SourceCodeFile.get_function_node. split.
  - intros f H.
    destruct (find _ (SourceCodeFile.func_defs unit)) as [f'|] eqn:E;
      [|discriminate].
    injection H as ->.
    apply find_first in E as (pre & post & Hl & Hf & Hpre).
    split; [now apply String.eqb_eq|]. exists pre, post. split; [exact Hl|].
    intros g Hg. apply String.eqb_neq. now apply Hpre.
  - destruct (find _ (SourceCodeFile.func_defs unit)) as [f'|] eqn:E.
    + split; [discriminate|]. intros H. apply find_some in E as [Hin Heq].
      apply String.eqb_eq in Heq. now apply H in Hin.
    + split; [|reflexivity]. intros _ f Hf. apply String.eqb_neq.
      exact (find_none _ _ E f Hf).
Qed.

Lemma unit_resolver_exact_then_fuzzy (unit : SourceCodeFile.t)
      (target : string) (f : FunctionDefinition.t) :
  SourceCodeFile.get_function_node unit target true = Some f ->
  SourceCodeFile.get_function_node unit target false = Some f.
Proof.
  unfold SourceCodeFile.get_function_node.
  destruct (find _ (SourceCodeFile.func_defs unit)); [auto | discriminate].
Qed.

(** X4: without [exact], the resolver of a unit answers what the exact
    lookup answers when that answers; any answer is a function of the unit
    whose qualifier-plus-name or whose simple name is the query, or whose
    simple name is the last [::] segment of the query; and there is no
    answer exactly when the unit has no such function. *)
Theorem unit_resolver_fuzzy (unit : SourceCodeFile.t) (target : string) :
  (forall f,
      SourceCodeFile.get_function_node unit target true = Some f ->
      SourceCodeFile.get_function_node unit target false = Some f)
  /\ (forall f,
        SourceCodeFile.get_function_node unit target false = Some f ->
        In f (SourceCodeFile.func_defs unit)
        /\ (SourceCodeFile.qualified_name f = target
            \/ FunctionDefinition.name f = target
            \/ FunctionDefinition.name f
               = SourceCodeFile.last_segment (Str.split "::" target)))
  /\ (SourceCodeFile.get_function_node unit target false = None
      <-> forall f, In f (SourceCodeFile.func_defs unit) ->
            SourceCodeFile.qualified_name f <> target
            /\ FunctionDefinition.name f <> target
            /\ FunctionDefinition.name f
               <> SourceCodeFile.last_segment (Str.split "::" target)).
Proof.
  split; [intros f; apply unit_resolver_exact_then_fuzzy|].
  unfold SourceCodeFile.get_function_node.
  destruct (find (fun func => String.eqb (SourceCodeFile.qualified_name func)
                                         target)
                 (SourceCodeFile.func_defs unit)) as [f1|] eqn:E1.
  { apply find_some in E1 as [Hin Heq]. apply String.eqb_eq in Heq. split.
    - intros f [= <-]. auto.
    - split; [discriminate|]. intros H. now apply H in Hin. }
  destruct (find (fun func => String.eqb (FunctionDefinition.name func) target)
                 (SourceCodeFile.func_defs unit)) as [f2|] eqn:E2.
  { apply find_some in E2 as [Hin Heq]. apply String.eqb_eq in Heq. split.
    - intros f [= <-]. auto.
    - split; [discriminate|]. intros H. apply H in Hin. tauto. }
  split.
  - intros f E3. apply find_some in E3 as [Hin Heq].
    apply String.eqb_eq in Heq. auto.
  - rewrite find_none_iff. split.
    + intros H f Hf. repeat split; apply String.eqb_neq.
      * exact (find_none _ _ E1 f Hf).
      * exact (find_none _ _ E2 f Hf).
      * exact (H f Hf).
    + intros H f Hf. apply String.eqb_neq. now apply H.
Qed.

(** ** The resolver of a project (lines 514-545) *)

Lemma sources_with_target_cons (unit : SourceCodeFile.t)
      (units : list SourceCodeFile.t)
      (all_functions : option (Dict.t FunctionDefinition.t))
      (name : string) (exact : bool) :
  Project.sources_with_target (Project.mk (unit :: units) all_functions)
                              name exact
  = (match SourceCodeFile.get_function_node unit name exact with
     | Some func => [(unit, func)]
     | None => []
     end
     ++ Project.sources_with_target (Project.mk units all_functions)
          name exact)%list.
Proof. reflexivity. Qed.

Lemma sources_exact_le_fuzzy (self : Project.t) (name : string) :
  List.length (Project.sources_with_target self name true)
  <= List.length (Project.sources_with_target self name false).
Proof.
  destruct self as [units all_functions].
  induction units as [|unit units IH]; [apply Nat.le_refl|].
  rewrite !sources_with_target_cons, !length_app.
  destruct (SourceCodeFile.get_function_node unit name true) as [f|] eqn:E.
  - rewrite (unit_resolver_exact_then_fuzzy _ _ _ E). simpl. lia.
  - simpl. lia.
Qed.

(** X5: an answer of [find_source_with_func_def] is a unit of the project
    with the function that the resolver of that unit answers for the name. *)
Theorem find_source_answer (self : Project.t) (name : string)
        (unit : SourceCodeFile.t) (f : FunctionDefinition.t) :
  Project.find_source_with_func_def self name = Some (unit, f) ->
  In unit (Project.source_code_files self)
  /\ In f (SourceCodeFile.func_defs unit)
  /\ SourceCodeFile.get_function_node unit name false = Some f.
Proof.
  intros H.
  assert (Hin : exists exact,
             In (unit, f) (Project.sources_with_target self name exact)).
  { unfold Project.find_source_with_func_def in H.
    destruct (Project.sources_with_target self name true)
      as [|x [|y l]] eqn:E1.
    - destruct (Project.sources_with_target self name false)
        as [|x' [|y' l']] eqn:E2; try discriminate.
      injection H as ->. exists false. rewrite E2. now left.
    - injection H as ->. exists true. rewrite E1. now left.
    - destruct (Project.sources_with_target self name false)
        as [|x' [|y' l']] eqn:E2; try discriminate.
      injection H as ->. exists false. rewrite E2. now left. }
  destruct Hin as (exact & Hin).
  pose proof (sources_with_target_in _ _ _ _ Hin) as [Hunit Hf].
  split; [exact Hunit|]. split; [exact Hf|].
  unfold Project.sources_with_target in Hin. apply in_flat_map in Hin.
  destruct Hin as (u & _ & Hu).
  destruct (SourceCodeFile.get_function_node u name exact) as [g|] eqn:E;
    [|contradiction].
  destruct Hu as [Hu|[]]. injection Hu as -> ->.
  destruct exact; [now apply unit_resolver_exact_then_fuzzy | exact E].
Qed.

Lemma find_source_answer_witness :
  SourceCodeFile.get_function_node
    (SourceCodeFile.mk "a.cpp"
       [Samples.ambiguous_leaf; Samples.ambiguous_n_x; Samples.ambiguous_f])
    "N::x" false
  = Some Samples.ambiguous_n_x.
Proof.
  apply (find_source_answer Samples.ambiguous_project "N::x"). reflexivity.
Defined.

Lemma sources_with_target_app (units1 units2 : list SourceCodeFile.t)
      (all_functions : option (Dict.t FunctionDefinition.t))
      (name : string) (exact : bool) :
  Project.sources_with_target (Project.mk (units1 ++ units2) all_functions)
                              name exact
  = (Project.sources_with_target (Project.mk units1 all_functions) name exact
     ++ Project.sources_with_target (Project.mk units2 all_functions)
          name exact)%list.
Proof. unfold Project.sources_with_target. cbn. apply flat_map_app. Qed.

Lemma sources_with_target_none (self : Project.t) (name : string)
      (exact : bool) :
  (forall unit, In unit (Project.source_code_files self) ->
     SourceCodeFile.get_function_node unit name exact = None) ->
  Project.sources_with_target self name exact = [].
Proof.
  destruct self as [units all_functions]. cbn [Project.source_code_files].
  induction units as [|u units IH]; intros H; [reflexivity|].
  rewrite sources_with_target_cons, (H u (or_introl eq_refl)). apply IH.
  intros other Ho. apply H. now right.
Qed.

Lemma sources_with_target_two (self : Project.t) (name : string)
      (exact : bool) (l1 l2 l3 : list SourceCodeFile.t)
      (u1 u2 : SourceCodeFile.t) :
  Project.source_code_files self = (l1 ++ u1 :: l2 ++ u2 :: l3)%list ->
  SourceCodeFile.get_function_node u1 name exact <> None ->
  SourceCodeFile.get_function_node u2 name exact <> None ->
  2 <= List.length (Project.sources_with_target self name exact).
Proof.
  destruct self as [units all_functions]. cbn [Project.source_code_files].
  intros -> H1 H2.
  rewrite sources_with_target_app, sources_with_target_cons,
    sources_with_target_app, sources_with_target_cons.
  rewrite ?length_app.
  destruct (SourceCodeFile.get_function_node u1 name exact); [|congruence].
  destruct (SourceCodeFile.get_function_node u2 name exact); [|congruence].
  rewrite ?length_app. simpl. lia.
Qed.

(** X6: when the exact lookup answers in two units of the project, the name
    does not resolve; when it answers in one unit only, the name resolves to
    that unit, whatever the other units match loosely; and when it answers
    in no unit and the loose lookup answers in two, the name does not
    resolve. *)
Theorem find_source_ambiguity (self : Project.t) (name : string) :
  (forall l1 u1 l2 u2 l3,
      Project.source_code_files self = (l1 ++ u1 :: l2 ++ u2 :: l3)%list ->
      SourceCodeFile.get_function_node u1 name true <> None ->
      SourceCodeFile.get_function_node u2 name true <> None ->
      Project.find_source_with_func_def self name = None)
  /\ (forall before unit after f,
        Project.source_code_files self = (before ++ unit :: after)%list ->
        SourceCodeFile.get_function_node unit name true = Some f ->
        (forall other, In other (before ++ after)%list ->
           SourceCodeFile.get_function_node other name true = None) ->
        Project.find_source_with_func_def self name = Some (unit, f))
  /\ (forall l1 u1 l2 u2 l3,
        Project.source_code_files self = (l1 ++ u1 :: l2 ++ u2 :: l3)%list ->
        (forall unit, In unit (Project.source_code_files self) ->
           SourceCodeFile.get_function_node unit name true = None) ->
        SourceCodeFile.get_function_node u1 name false <> None ->
        SourceCodeFile.get_function_node u2 name false <> None ->
        Project.find_source_with_func_def self name = None).
Proof.
  split; [|split].
  - intros l1 u1 l2 u2 l3 Hfiles H1 H2.
    pose proof (sources_with_target_two self name true _ _ _ _ _ Hfiles H1 H2)
      as H.
    pose proof (sources_exact_le_fuzzy self name) as Hle.
    unfold Project.find_source_with_func_def.
    destruct (Project.sources_with_target self name true) as [|x [|y l]];
      simpl in H; try lia.
    destruct (Project.sources_with_target self name false) as [|x' [|y' l']];
      simpl in Hle; try lia. reflexivity.
  - intros before unit after f Hfiles Hunit Hothers.
    assert (Hsources : Project.sources_with_target self name true
                       = [(unit, f)]).
    { destruct self as [units all_functions].
      cbn [Project.source_code_files] in Hfiles. subst units.
      rewrite sources_with_target_app, sources_with_target_cons, Hunit.
      rewrite !sources_with_target_none; [reflexivity | |];
        cbn [Project.source_code_files]; intros other Ho; apply Hothers;
        apply in_or_app; auto. }
    unfold Project.find_source_with_func_def. now rewrite Hsources.
  - intros l1 u1 l2 u2 l3 Hfiles Hexact H1 H2.
    pose proof (sources_with_target_two self name false _ _ _ _ _ Hfiles H1 H2)
      as H.
    unfold Project.find_source_with_func_def.
    rewrite (sources_with_target_none self name true Hexact).
    destruct (Project.sources_with_target self name false) as [|x' [|y' l']];
      simpl in H; try lia. reflexivity.
Qed.

Lemma find_source_ambiguity_witness :
  Project.find_source_with_func_def Samples.ambiguous_project "x" = None
  /\ Project.find_source_with_func_def Samples.ambiguous_project "N::x"
     = Some (SourceCodeFile.mk "a.cpp"
               [Samples.ambiguous_leaf; Samples.ambiguous_n_x;
                Samples.ambiguous_f],
             Samples.ambiguous_n_x).
Proof.
  destruct (find_source_ambiguity Samples.ambiguous_project "x")
    as (_ & _ & Hloose).
  destruct (find_source_ambiguity Samples.ambiguous_project "N::x")
    as (_ & Hone & _).
  split.
  - apply (Hloose []
             (SourceCodeFile.mk "a.cpp"
                [Samples.ambiguous_leaf; Samples.ambiguous_n_x;
                 Samples.ambiguous_f])
             [] (SourceCodeFile.mk "b.cpp" [Samples.ambiguous_m_x]) []).
    + reflexivity.
    + intros unit [<-|[<-|[]]]; reflexivity.
    + discriminate.
    + discriminate.
  - apply (Hone [] _ [SourceCodeFile.mk "b.cpp" [Samples.ambiguous_m_x]]).
    + reflexivity.
    + reflexivity.
    + intros other [<-|[]]. reflexivity.
Defined.

(** ** Function uses (lines 547-564) *)

Lemma count_fold {A : Type} (p : A -> bool) (l : list A) (n : nat) :
  fold_left (fun count x => if p x then count + 1 else count) l n
  = n + List.length (filter p l).
Proof.
  revert n. induction l as [|x l IH]; intros n; simpl; [lia|].
  rewrite IH. destruct (p x); simpl; lia.
Qed.

Lemma existsb_ext_in {A : Type} (p q : A -> bool) (l : list A) :
  (forall x, p x = q x) -> existsb p l = existsb q l.
Proof. intros H. induction l as [|x l IH]; simpl; [reflexivity|]. now rewrite H, IH. Qed.

Lemma filter_ext_all {A : Type} (p q : A -> bool) (l : list A) :
  (forall x, p x = q x) -> filter p l = filter q l.
Proof. intros H. induction l as [|x l IH]; simpl; [reflexivity|]. now rewrite H, IH. Qed.

(** X7: the use count of a name is the number of functions of the project
    that have a callsite whose callee name ends with it (a caller counts
    once, however often it calls); it is at most the number of functions,
    and for the empty name it is the number of functions with a callsite. *)
Theorem function_uses_counts_callers (self : Project.t) (target_name : string) :
  let functions :=
    flat_map SourceCodeFile.func_defs (Project.source_code_files self) in
  Project.calculate_function_uses self target_name
  = List.length
      (filter (fun f =>
                 existsb (fun callsite => Str.endswith (fst callsite) target_name)
                         (FunctionDefinition.base_callsites f))
              functions)
  /\ Project.calculate_function_uses self target_name <= List.length functions
  /\ Project.calculate_function_uses self ""
     = List.length
         (filter (fun f =>
                    match FunctionDefinition.base_callsites f with
                    | [] => false
                    | _ :: _ => true
                    end) functions).
Proof.
  intros functions.
  assert (Hcount : forall target,
             Project.calculate_function_uses self target
             = List.length
                 (filter (fun f =>
                            existsb (fun callsite =>
                                       Str.endswith (fst callsite) target)
                                    (FunctionDefinition.base_callsites f))
                         functions)).
  { intros target. unfold Project.calculate_function_uses, functions.
    assert (Haux : forall units n,
               fold_left
                 (fun func_use_count source_file =>
                    fold_left
                      (fun func_use_count function =>
                         if existsb
                              (fun callsite =>
                                 String.eqb (fst callsite) target
                                 || Str.endswith (fst callsite) target)
                              (FunctionDefinition.base_callsites function)
                         then func_use_count + 1 else func_use_count)
                      (SourceCodeFile.func_defs source_file) func_use_count)
                 units n
               = n + List.length
                       (filter (fun f =>
                                  existsb (fun callsite =>
                                             Str.endswith (fst callsite) target)
                                          (FunctionDefinition.base_callsites f))
                               (flat_map SourceCodeFile.func_defs units))).
    { induction units as [|unit units IH]; intros n; cbn [fold_left flat_map].
      - simpl. lia.
      - rewrite IH, count_fold, filter_app, length_app.
        rewrite (filter_ext_all _
                   (fun f =>
                      existsb (fun callsite =>
                                 Str.endswith (fst callsite) target)
                              (FunctionDefinition.base_callsites f))); [lia|].
        intros f. apply existsb_ext_in. intros callsite.
        destruct (String.eqb_spec (fst callsite) target) as [->|_];
          [|reflexivity].
        now rewrite endswith_refl. }
    now rewrite Haux. }
  split; [apply Hcount|]. split.
  - rewrite Hcount. apply filter_length_le.
  - rewrite Hcount. f_equal. apply filter_ext_all. intros f.
    destruct (FunctionDefinition.base_callsites f) as [|c cs]; [reflexivity|].
    cbn [existsb].
    assert (H : Str.endswith (fst c) "" = true)
      by (apply endswith_iff; exists (fst c); now rewrite str_app_nil_r).
    now rewrite H.
Qed.

(** ** Bounds on the depth (lines 566-592) *)

Lemma visit_loop_bound (self : Project.t) (fuel : nat) :
  (forall f v d v',
      Project._recursive_function_depth fuel self f v = Ok (d, v') ->
      d <= remaining self (v ++ [FunctionDefinition.name f]) + 1) ->
  forall callsites acc v d v',
    foldM (Project.visit_callsite self
             (Project._recursive_function_depth fuel self))
          callsites (acc, v) = Ok (d, v') ->
    d <= Nat.max acc (remaining self v + 1).
Proof.
  intros Hrec. induction callsites as [|c cs IH]; intros acc v d v' H.
  - injection H as <- <-. lia.
  - cbn [foldM] in H.
    destruct (visit_callsite_cases self v c)
      as [Hc|[(target & Hc & Hin)|(target & Hc & Hin)]].
    + rewrite (visit_callsite_unresolved _ _ _ _ _ Hc) in H.
      cbn [bind] in H. apply IH in H.
      pose proof (remaining_le self v (v ++ [fst c])
                    (incl_appl _ (incl_refl _))). lia.
    + rewrite (visit_callsite_visited _ _ _ _ _ _ Hc Hin) in H.
      cbn [bind] in H. apply IH in H. lia.
    + rewrite (visit_callsite_recurse _ _ _ _ _ _ Hc Hin) in H.
      destruct (Project._recursive_function_depth fuel self (snd target) v)
        as [[d1 v1]| |] eqn:Er; try discriminate.
      cbn [bind] in H. apply IH in H.
      pose proof (Hrec _ _ _ _ Er) as Hd1.
      pose proof (remaining_lt self v _ (find_source_in _ _ _ Hc) Hin).
      pose proof (remaining_le self v v1
                    (recursive_depth_grows _ _ _ _ _ _ Er)).
      lia.
Qed.

Lemma recursive_depth_bound (self : Project.t) (fuel : nat) :
  forall f v d v',
    Project._recursive_function_depth fuel self f v = Ok (d, v') ->
    d <= remaining self (v ++ [FunctionDefinition.name f]) + 1.
Proof.
  induction fuel as [|fuel IH]; intros f v d v' H; [discriminate|].
  rewrite recursive_depth_step in H.
  destruct (FunctionDefinition.base_callsites f) as [|c cs].
  - injection H as <- <-. lia.
  - apply (visit_loop_bound self fuel IH) in H. lia.
Qed.

(** X8: the depth of a function is bounded by the project: every query
    answers with a depth of at most the number of functions of the project
    plus one, and of at most the number of functions when the queried
    function has the name of a function of the project. *)
Theorem function_depth_bounded (self : Project.t) (f : FunctionDefinition.t) :
  exists d,
    (forall fuel,
        List.length (all_names self) < fuel ->
        Project.calculate_function_depth fuel self f = Ok d)
    /\ d <= List.length (all_names self) + 1
    /\ (In (FunctionDefinition.name f) (all_names self) ->
        d <= List.length (all_names self)).
Proof.
  pose proof (remaining_bound self ([] ++ [FunctionDefinition.name f])) as Hb.
  destruct (recursive_depth_terminates self
              (S (List.length (all_names self))) f []) as (d & v & H); [lia|].
  exists d. split; [|split].
  - intros fuel Hfuel. apply calculate_function_depth_eq with (visited := v).
    apply recursive_depth_fuel_le
      with (fuel := S (List.length (all_names self))); [lia | exact H].
  - apply recursive_depth_bound in H. lia.
  - intros Hin. apply recursive_depth_bound in H.
    pose proof (remaining_lt self [] _ Hin (fun x => x)) as Hlt.
    pose proof (remaining_bound self []). lia.
Qed.

Lemma visit_loop_keeps (self : Project.t)
      (recurse : FunctionDefinition.t -> list string
                 -> result (nat * list string)) :
  forall callsites acc v d v',
    foldM (Project.visit_callsite self recurse) callsites (acc, v) = Ok (d, v') ->
    acc <= d.
Proof.
  induction callsites as [|c cs IH]; intros acc v d v' H.
  - injection H as <- <-. lia.
  - cbn [foldM] in H.
    destruct (visit_callsite_cases self v c)
      as [Hc|[(target & Hc & Hin)|(target & Hc & Hin)]].
    + rewrite (visit_callsite_unresolved _ _ _ _ _ Hc) in H.
      cbn [bind] in H. now apply IH in H.
    + rewrite (visit_callsite_visited _ _ _ _ _ _ Hc Hin) in H.
      cbn [bind] in H. apply IH in H. lia.
    + rewrite (visit_callsite_recurse _ _ _ _ _ _ Hc Hin) in H.
      destruct (recurse (snd target) v) as [[d1 v1]| |]; try discriminate.
      cbn [bind] in H. apply IH in H. lia.
Qed.

Lemma visit_loop_resolved (self : Project.t)
      (recurse : FunctionDefinition.t -> list string
                 -> result (nat * list string)) :
  forall callsites acc v d v',
    foldM (Project.visit_callsite self recurse) callsites (acc, v) = Ok (d, v') ->
    (exists c, In c callsites
               /\ Project.find_source_with_func_def self (fst c) <> None) ->
    1 <= d.
Proof.
  induction callsites as [|c cs IH]; intros acc v d v' H (x & Hx & Hres).
  - contradiction.
  - cbn [foldM] in H.
    destruct (visit_callsite_cases self v c)
      as [Hc|[(target & Hc & Hin)|(target & Hc & Hin)]].
    + rewrite (visit_callsite_unresolved _ _ _ _ _ Hc) in H.
      cbn [bind] in H. apply IH in H; [exact H|].
      destruct Hx as [<-|Hx]; [congruence|]. eauto.
    + rewrite (visit_callsite_visited _ _ _ _ _ _ Hc Hin) in H.
      cbn [bind] in H. apply visit_loop_keeps in H. lia.
    + rewrite (visit_callsite_recurse _ _ _ _ _ _ Hc Hin) in H.
      destruct (recurse (snd target) v) as [[d1 v1]| |]; try discriminate.
      cbn [bind] in H. apply visit_loop_keeps in H. lia.
Qed.

Lemma visit_loop_unresolved (self : Project.t)
      (recurse : FunctionDefinition.t -> list string
                 -> result (nat * list string)) :
  forall callsites acc v,
    (forall c, In c callsites ->
       Project.find_source_with_func_def self (fst c) = None) ->
    foldM (Project.visit_callsite self recurse) callsites (acc, v)
    = Ok (acc, (v ++ map fst callsites)%list).
Proof.
  induction callsites as [|c cs IH]; intros acc v Hall; cbn [foldM map].
  - now rewrite app_nil_r.
  - rewrite visit_callsite_unresolved by (apply Hall; now left).
    cbn [bind]. rewrite IH by (intros y Hy; apply Hall; now right).
    now rewrite <- app_assoc.
Qed.

(** X9: the depth of a function is 0 exactly when none of its callsites
    resolves to a function of the project (a function without callsites
    included).  The visited list is then left empty for a function
    without callsites, which returns before its name is appended, and
    holds the name of the function followed by the names of all its
    callees for any other function. *)
Theorem function_depth_zero_iff (self : Project.t) (f : FunctionDefinition.t)
        (fuel d : nat) :
  Project.calculate_function_depth fuel self f = Ok d ->
  (d = 0 <-> forall c, In c (FunctionDefinition.base_callsites f) ->
               Project.find_source_with_func_def self (fst c) = None)
  /\ (d = 0 ->
      Project._recursive_function_depth fuel self f []
      = Ok (0, match FunctionDefinition.base_callsites f with
               | [] => []
               | callsites =>
                   FunctionDefinition.name f :: map fst callsites
               end)).
Proof.
  intros H. unfold Project.calculate_function_depth in H.
  destruct (Project._recursive_function_depth fuel self f [])
    as [[d' v']| |] eqn:E; try discriminate.
  cbn in H. injection H as <-.
  destruct fuel as [|fuel]; [discriminate|].
  rewrite recursive_depth_step in E.
  assert (Hiff : d' = 0 <-> forall c,
                   In c (FunctionDefinition.base_callsites f) ->
                   Project.find_source_with_func_def self (fst c) = None).
  { destruct (FunctionDefinition.base_callsites f) as [|c cs] eqn:Hcs.
    - injection E as <- <-. split; [intros _ c []|reflexivity].
    - split.
      + intros -> x Hx.
        destruct (Project.find_source_with_func_def self (fst x)) eqn:Hf;
          [|reflexivity].
        apply visit_loop_resolved in E; [lia|].
        exists x. split; [exact Hx | congruence].
      + intros Hall. rewrite (visit_loop_unresolved _ _ _ _ _ Hall) in E.
        now injection E as <- _. }
  split; [exact Hiff|].
  intros Hd.
  destruct (FunctionDefinition.base_callsites f) as [|c cs] eqn:Hcs.
  - now injection E as <- <-.
  - rewrite visit_loop_unresolved in E by now apply Hiff.
    injection E as <- <-. reflexivity.
Qed.

Lemma function_depth_zero_iff_witness :
  Project.find_source_with_func_def Samples.printf_project "printf" = None
  /\ Project._recursive_function_depth 1 Samples.printf_project
       Samples.printf_caller []
     = Ok (0, ["f"; "printf"])
  /\ Project._recursive_function_depth 1 Samples.ambiguous_project
       Samples.ambiguous_leaf []
     = Ok (0, []).
Proof.
  destruct (function_depth_zero_iff Samples.printf_project
              Samples.printf_caller 1 0 eq_refl) as [[Hall _] Hlist].
  destruct (function_depth_zero_iff Samples.ambiguous_project
              Samples.ambiguous_leaf 1 0 eq_refl) as [_ Hleaf].
  split; [|split].
  - apply (Hall eq_refl ("printf", 1)). now left.
  - apply Hlist. reflexivity.
  - apply Hleaf. reflexivity.
Defined.

(** ** More on callsite extraction (lines 269-366) *)

Lemma insert_by_offset_sorted (x : FunctionDefinition.raw_callsite)
      (l : list FunctionDefinition.raw_callsite) :
  StronglySorted offset_le l ->
  StronglySorted offset_le (FunctionDefinition.insert_by_offset x l).
Proof.
  induction 1 as [|y l Hl IH Hy]; simpl.
  - constructor; constructor.
  - destruct (Nat.leb (snd (fst x)) (snd (fst y))) eqn:Hle.
    + apply Nat.leb_le in Hle. constructor.
      * now constructor.
      * constructor; [exact Hle|].
        eapply Forall_impl; [|exact Hy]. unfold offset_le. intros z Hz. lia.
    + apply Nat.leb_gt in Hle. constructor; [exact IH|].
      eapply Permutation_Forall;
        [apply Permutation_sym, insert_by_offset_perm|].
      constructor; [unfold offset_le; lia | exact Hy].
Qed.

Lemma sorted_by_offset_sorted (l : list FunctionDefinition.raw_callsite) :
  StronglySorted offset_le (FunctionDefinition.sorted_by_offset l).
Proof.
  induction l as [|x l IH]; simpl;
    [constructor | now apply insert_by_offset_sorted].
Qed.

(** X10: the first extraction leaves the base callsites of a function in
    the order of their end offsets: they are the names and lines of the
    distinct raw callsites of the body, each once, sorted by end offset. *)
Theorem base_callsites_in_offset_order
        (set_iter : list FunctionDefinition.raw_callsite
                    -> list FunctionDefinition.raw_callsite)
        (self self1 : FunctionDefinition.t)
        (functions : Dict.t FunctionDefinition.t) :
  FunctionDefinition.is_set_iteration set_iter ->
  FunctionDefinition.base_callsites self = [] ->
  FunctionDefinition.extract_callsites set_iter self functions = Ok self1 ->
  exists raw entries,
    FunctionDefinition.raw_callsites self functions = Ok raw
    /\ FunctionDefinition.base_callsites self1
       = map (fun x : FunctionDefinition.raw_callsite => (fst (fst x), snd x))
             entries
    /\ StronglySorted offset_le entries
    /\ NoDup entries
    /\ forall x, In x entries <-> In x raw.
Proof.
  intros Hset Hbase H. unfold FunctionDefinition.extract_callsites in H.
  rewrite Hbase in H.
  destruct (FunctionDefinition.raw_callsites self functions) as [raw| |];
    try discriminate.
  cbn [bind] in H.
  exists raw, (FunctionDefinition.sorted_by_offset (set_iter raw)).
  destruct (Hset raw) as [Hnodup Hiff].
  pose proof (sorted_by_offset_perm (set_iter raw)) as Hperm.
  split; [reflexivity|]. split.
  - destruct self. cbn in H.
    destruct detailed_callsites; injection H as <-; reflexivity.
  - split; [apply sorted_by_offset_sorted|]. split.
    + eapply Permutation_NoDup; [apply Permutation_sym, Hperm | exact Hnodup].
    + intros x. rewrite <- Hiff. split; apply Permutation_in;
        [exact Hperm | apply Permutation_sym, Hperm].
Qed.

Lemma base_callsites_in_offset_order_witness :
  exists raw entries,
    FunctionDefinition.raw_callsites (Samples.method_call_record [] []) []
    = Ok raw
    /\ FunctionDefinition.base_callsites
         (Samples.method_call_record [("run", 1)] [("a.cpp:1,1", "run")])
       = map (fun x : FunctionDefinition.raw_callsite => (fst (fst x), snd x))
             entries
    /\ StronglySorted offset_le entries
    /\ NoDup entries
    /\ forall x, In x entries <-> In x raw.
Proof.
  exact (base_callsites_in_offset_order FunctionDefinition.set_iter_first
           (Samples.method_call_record [] [])
           (Samples.method_call_record [("run", 1)] [("a.cpp:1,1", "run")])
           [] set_iter_first_is_set_iteration eq_refl eq_refl).
Defined.

(** X11: [extract_callsites] changes the two callsite fields of a function
    and nothing else, and it keeps the detailed callsites in step with the
    base callsites: on a function whose detailed callsites are the rendered
    base callsites, as on every newly built function, they still are after
    the call. *)
Theorem extract_callsites_keeps_consistent
        (set_iter : list FunctionDefinition.raw_callsite
                    -> list FunctionDefinition.raw_callsite)
        (self self1 : FunctionDefinition.t)
        (functions : Dict.t FunctionDefinition.t) :
  FunctionDefinition.extract_callsites set_iter self functions = Ok self1 ->
  self1
  = FunctionDefinition.set_detailed_callsites
      (FunctionDefinition.set_base_callsites self
         (FunctionDefinition.base_callsites self1))
      (FunctionDefinition.detailed_callsites self1)
  /\ (callsites_consistent self -> callsites_consistent self1)
  /\ (forall root source_file namespace,
        FunctionDefinition.new root source_file namespace = Ok self ->
        callsites_consistent self).
Proof.
  intros H. unfold FunctionDefinition.extract_callsites in H. split; [|split].
  - destruct self as [root src ns sl el name cx ic an aty rt sg fu fd base det].
    cbn [FunctionDefinition.base_callsites] in H.
    destruct base as [|b base].
    + destruct (FunctionDefinition.raw_callsites _ functions);
        try discriminate.
      cbn in H. destruct det; injection H as <-; reflexivity.
    + cbn in H. destruct det; injection H as <-; reflexivity.
  - unfold callsites_consistent.
    destruct self as [root src ns sl el name cx ic an aty rt sg fu fd base det].
    cbn [FunctionDefinition.base_callsites FunctionDefinition.parent_source
         FunctionDefinition.detailed_callsites] in *.
    intros ->. destruct base as [|b base].
    + destruct (FunctionDefinition.raw_callsites _ functions);
        try discriminate.
      cbn in H. injection H as <-. reflexivity.
    + cbn in H. injection H as <-. reflexivity.
  - intros root source_file namespace Hnew.
    unfold FunctionDefinition.new, FunctionDefinition._extract_information
      in Hnew.
    destruct (Node.child_by_field_name root "declarator"); [|discriminate].
    destruct (fold_left _ _ _) as [name param_list_node].
    destruct (FunctionDefinition.split_qualified_name namespace name)
      as [[q n]| |]; try discriminate.
    cbn [bind] in Hnew. destruct param_list_node; [|discriminate].
    destruct (foldM _ _ _) as [[tys names]| |]; try discriminate.
    cbn [bind] in Hnew. injection Hnew as <-. reflexivity.
Qed.

Lemma extract_callsites_keeps_consistent_witness :
  callsites_consistent
    (Samples.method_call_record [("run", 1)] [("a.cpp:1,1", "run")]).
Proof.
  apply (extract_callsites_keeps_consistent FunctionDefinition.set_iter_first
           (Samples.method_call_record [] []) _ [] eq_refl).
  reflexivity.
Defined.

(** *** The traversal reaches every node of the body *)

Lemma process_children_results (self : FunctionDefinition.t)
      (functions : Dict.t FunctionDefinition.t) (l : list Node.t) :
  forall callsites raw,
    FunctionDefinition.process_children self functions l callsites = Ok raw ->
    incl callsites raw
    /\ forall child, In child l ->
         exists found,
           FunctionDefinition._process_callsites self functions child
           = Ok found
           /\ incl found raw.
Proof.
  induction l as [|c l IH]; intros callsites raw H; cbn in H.
  - injection H as <-. split; [apply incl_refl | intros child []].
  - destruct (FunctionDefinition._process_callsites self functions c)
      as [more| |] eqn:Ec; cbn in H; try discriminate.
    apply IH in H as [Hincl Hrest]. split.
    + intros x Hx. apply Hincl, in_or_app. now left.
    + intros child [<-|Hchild].
      * exists more. split; [exact Ec|].
        intros x Hx. apply Hincl, in_or_app. now right.
      * now apply Hrest.
Qed.

Lemma process_callsites_reaches (self : FunctionDefinition.t)
      (functions : Dict.t FunctionDefinition.t) (stmt : Node.t) :
  forall raw,
    FunctionDefinition._process_callsites self functions stmt = Ok raw ->
    forall d, inside d stmt ->
      (Node.type d = "call_expression" ->
       exists found,
         FunctionDefinition._process_invoke self functions d = Ok found
         /\ incl found raw)
      /\ (Node.type d = "new_expression" ->
          forall ctr_type,
            Node.child_by_field_name d "type" = Some ctr_type ->
            In (Node.text ctr_type, Node.end_byte d, Node.start_row d + 1) raw).
Proof.
  induction stmt as [n IH] using node_induction.
  intros raw H d Hd. rewrite process_callsites_eq in H.
  destruct (if String.eqb (Node.type n) "call_expression" then _ else _)
    as [callsites| |] eqn:Eown; try discriminate.
  cbn [bind] in H. apply process_children_results in H as [Hown Hchildren].
  inversion Hd as [|d' c n' Hc Hdc]; subst.
  - (* the node itself *)
    split.
    + intros Hty. rewrite Hty in Eown. cbn in Eown. eauto.
    + intros Hty ctr_type Hctr. rewrite Hty, Hctr in Eown. cbn in Eown.
      injection Eown as <-. apply Hown. now left.
  - (* under a child *)
    destruct (Hchildren c Hc) as (found & Hfound & Hincl).
    rewrite Forall_forall in IH.
    destruct (IH c Hc found Hfound d Hdc) as [Hcall Hnew]. split.
    + intros Hty. destruct (Hcall Hty) as (es & Hes & Hsub).
      exists es. split; [exact Hes|]. intros x Hx. apply Hincl, Hsub, Hx.
    + intros Hty ctr_type Hctr. apply Hincl. now apply Hnew.
Qed.

Lemma raw_callsites_extends (self : FunctionDefinition.t)
      (functions : Dict.t FunctionDefinition.t) (l : list Node.t) :
  forall callsites raw,
    foldM (fun callsites child =>
             more <- FunctionDefinition._process_callsites
                       self functions child ;;
             Ok (callsites ++ more)%list) l callsites = Ok raw ->
    incl callsites raw.
Proof.
  induction l as [|c l IH]; intros callsites raw H; cbn [foldM] in H.
  - injection H as <-. apply incl_refl.
  - destruct (FunctionDefinition._process_callsites self functions c);
      cbn in H; try discriminate.
    apply IH in H. intros x Hx. apply H, in_or_app. now left.
Qed.

Lemma raw_callsites_results (self : FunctionDefinition.t)
      (functions : Dict.t FunctionDefinition.t) (l : list Node.t) :
  forall callsites raw,
    foldM (fun callsites child =>
             more <- FunctionDefinition._process_callsites
                       self functions child ;;
             Ok (callsites ++ more)%list) l callsites = Ok raw ->
    forall child, In child l ->
      exists found,
        FunctionDefinition._process_callsites self functions child = Ok found
        /\ incl found raw.
Proof.
  induction l as [|c l IH]; intros callsites raw H child Hchild;
    [contradiction|].
  cbn [foldM] in H.
  destruct (FunctionDefinition._process_callsites self functions c)
    as [more| |] eqn:Ec; cbn in H; try discriminate.
  destruct Hchild as [<-|Hchild].
  - exists more. split; [exact Ec|].
    intros x Hx. apply (raw_callsites_extends _ _ _ _ _ H).
    apply in_or_app. now right.
  - exact (IH _ _ H child Hchild).
Qed.

(** X12: when the extraction of the raw callsites of a function returns, it
    has visited every node under the children of the function node: every
    call expression there was processed without raising and its entries
    are among the raw callsites, and every [new] expression with a type
    field has its entry, the text of the type at the end offset and line of
    the expression, among them. *)
Theorem raw_callsites_complete (self : FunctionDefinition.t)
        (functions : Dict.t FunctionDefinition.t)
        (raw : list FunctionDefinition.raw_callsite)
        (child d : Node.t) :
  FunctionDefinition.raw_callsites self functions = Ok raw ->
  In child (Node.children (FunctionDefinition.root self)) ->
  inside d child ->
  (Node.type d = "call_expression" ->
   exists found,
     FunctionDefinition._process_invoke self functions d = Ok found
     /\ incl found raw)
  /\ (Node.type d = "new_expression" ->
      forall ctr_type,
        Node.child_by_field_name d "type" = Some ctr_type ->
        In (Node.text ctr_type, Node.end_byte d, Node.start_row d + 1) raw).
Proof.
  intros Hraw Hchild Hd. unfold FunctionDefinition.raw_callsites in Hraw.
  destruct (raw_callsites_results _ _ _ _ _ Hraw child Hchild)
    as (found & Hfound & Hincl).
  destruct (process_callsites_reaches _ _ _ _ Hfound d Hd) as [Hcall Hnew].
  split.
  - intros Hty. destruct (Hcall Hty) as (es & Hes & Hsub).
    exists es. split; [exact Hes|]. intros x Hx. apply Hincl, Hsub, Hx.
  - intros Hty ctr_type Hctr. apply Hincl. now apply Hnew.
Qed.

Lemma raw_callsites_complete_witness :
  exists found,
    FunctionDefinition._process_invoke (Samples.method_call_record [] []) []
      Samples.method_call = Ok found
    /\ incl found [("run", 18, 1); ("run", 18, 1)].
Proof.
  refine (proj1 (raw_callsites_complete (Samples.method_call_record [] []) []
                   [("run", 18, 1); ("run", 18, 1)]
                   (nth 2 (Node.children Samples.method_call_function)
                        Samples.method_call)
                   Samples.method_call eq_refl _ _) eq_refl).
  - cbn. auto.
  - eapply inside_child; [|eapply inside_child; [|apply inside_self]].
    + cbn. right. left. reflexivity.
    + cbn. left. reflexivity.
Defined.

(** ** More on the construction of a function (lines 167-232) *)

Lemma strip_declarators_eq (kind : string) (param_name : Node.t) :
  FunctionDefinition.strip_declarators kind param_name
  = if String.eqb (Node.type param_name) kind then
      match Node.child_by_field_name param_name "declarator" with
      | Some next =>
          '(count, inner) <- FunctionDefinition.strip_declarators kind next ;;
          Ok (S count, inner)
      | None => Raise AttributeError
      end
    else Ok (0, param_name).
Proof.
  destruct param_name as [ty nm fd tx sr er eb ch].
  cbn [FunctionDefinition.strip_declarators Node.type Node.children].
  destruct (String.eqb ty kind); [|reflexivity].
  unfold Node.child_by_field_name. cbn [Node.children].
  induction ch as [|c ch IH]; [reflexivity|].
  cbn [find]. destruct (Node.has_field "declarator" c); [reflexivity|exact IH].
Qed.

Lemma strip_declarators_wraps (kind : string) (count : nat)
      (outer inner : Node.t) :
  wraps kind count outer inner ->
  FunctionDefinition.strip_declarators kind outer = Ok (count, inner).
Proof.
  induction 1 as [inner Hty|count outer next inner Hty Hnext _ IH];
    rewrite strip_declarators_eq.
  - apply String.eqb_neq in Hty. now rewrite Hty.
  - rewrite Hty, String.eqb_refl, Hnext, IH. reflexivity.
Qed.

(** X13: a parameter declaration with a type and a declarator that is a
    name under [pointers] pointer declarators and, under those, [arrays]
    array declarators, adds the type text followed by that many [*] and
    [[]] to the argument types, and the text of the name to the argument
    names; a parameter declaration without a type or without a declarator,
    and a child that is no parameter declaration, add nothing. *)
Theorem parameter_decomposition (param : Node.t)
        (arg_types arg_names : list string) :
  (forall param_type declarator under_pointers inner pointers arrays,
      Node.type param = "parameter_declaration" ->
      Node.child_by_field_name param "type" = Some param_type ->
      Node.child_by_field_name param "declarator" = Some declarator ->
      wraps "pointer_declarator" pointers declarator under_pointers ->
      wraps "array_declarator" arrays under_pointers inner ->
      FunctionDefinition.scan_parameter (arg_types, arg_names) param
      = Ok ((arg_types
               ++ [(Node.text param_type ++ Str.repeat "*" pointers
                      ++ Str.repeat "[]" arrays)%string])%list,
            (arg_names ++ [Node.text inner])%list))
  /\ (Node.type param <> "parameter_declaration"
      \/ Node.child_by_field_name param "type" = None
      \/ Node.child_by_field_name param "declarator" = None ->
      FunctionDefinition.scan_parameter (arg_types, arg_names) param
      = Ok (arg_types, arg_names)).
Proof.
  split.
  - intros param_type declarator under_pointers inner pointers arrays
           Hty Htype Hdecl Hp Ha.
    unfold FunctionDefinition.scan_parameter.
    rewrite Hty, String.eqb_refl, Htype, Hdecl.
    rewrite (strip_declarators_wraps _ _ _ _ Hp). cbn [bind].
    rewrite (strip_declarators_wraps _ _ _ _ Ha). reflexivity.
  - intros H. unfold FunctionDefinition.scan_parameter.
    destruct (String.eqb_spec (Node.type param) "parameter_declaration")
      as [Hty|Hty]; [|reflexivity].
    destruct H as [H|[H|H]]; [contradiction| |].
    + now rewrite H.
    + rewrite H. now destruct (Node.child_by_field_name param "type").
Qed.

Lemma parameter_decomposition_witness :
  FunctionDefinition.scan_parameter ([], []) Samples.pointer_parameter
  = Ok (["int**"], ["x"])
  /\ FunctionDefinition.scan_parameter (["int**"], ["x"]) Samples.array_parameter
     = Ok (["int**"; "char[]"], ["x"; "buf"]).
Proof.
  split.
  - refine (proj1 (parameter_decomposition Samples.pointer_parameter [] [])
              (Samples.named "primitive_type" (Some "type") "int" [])
              _ _ (Samples.named "identifier" (Some "declarator") "x" [])
              2 0 eq_refl eq_refl eq_refl _ _).
    + eapply wraps_one; [reflexivity | reflexivity |].
      eapply wraps_one; [reflexivity | reflexivity |].
      apply wraps_none. discriminate.
    + apply wraps_none. discriminate.
  - refine (proj1 (parameter_decomposition Samples.array_parameter
                     ["int**"] ["x"])
              (Samples.named "primitive_type" (Some "type") "char" [])
              _ _ (Samples.named "identifier" (Some "declarator") "buf" [])
              0 1 eq_refl eq_refl eq_refl _ _).
    + apply wraps_none. discriminate.
    + eapply wraps_one; [reflexivity | reflexivity |].
      apply wraps_none. discriminate.
Defined.

Lemma contains_drop (sub : string) (n : nat) (s : string) :
  Str.contains sub s = false -> Str.contains sub (Str.drop n s) = false.
Proof.
  revert s. induction n as [|n IH]; intros s H; [exact H|].
  destruct s as [|c s]; [exact H|].
  rewrite contains_cons in H. apply orb_false_iff in H as [_ H].
  cbn [Str.drop]. now apply IH.
Qed.

(** The two parts of a cut at the last separator give the string back, and
    the right part holds no separator. *)
Lemma rsplit1_parts (a : ascii) (sep' : string) (s l r : string) :
  Str.rsplit1 (String a sep') s = [l; r] ->
  s = l ++ String a sep' ++ r /\ Str.contains (String a sep') r = false.
Proof.
  revert l r.
  induction s as [|c s IH]; intros l r H; [discriminate|].
  cbn [Str.rsplit1] in H.
  destruct (Str.contains (String a sep') s) eqn:Hc.
  - destruct (rsplit1_present a sep' s Hc) as (l' & r' & Hs).
    rewrite Hs in H. injection H as <- <-.
    destruct (IH _ _ Hs) as [-> Hr]. split; [reflexivity | exact Hr].
  - rewrite (rsplit1_absent _ _ Hc) in H.
    destruct (Str.startswith (String c s) (String a sep')) eqn:Hstart;
      [|discriminate].
    injection H as <- <-.
    apply startswith_iff in Hstart as (rest & Hrest).
    cbn [String.append] in Hrest. injection Hrest as -> ->.
    rewrite drop_app_length. split; [reflexivity|].
    pose proof (contains_drop (String a sep') (String.length sep') _ Hc) as Hd.
    now rewrite drop_app_length in Hd.
Qed.


(** X14: the split of a declarator name gives a simple name without [::];
    when the name holds a [::], the qualifier-side prefix and the simple
    name, put around a [::], are the name again, and the new qualifier is
    the enclosing qualifier, a [::] and the prefix when both are non-empty
    and the prefix alone otherwise, so that a name that starts with [::]
    inside a namespace loses the enclosing qualifier; a name without [::]
    is kept with the enclosing qualifier. *)
Theorem split_qualified_name_parts (namespace name : string) :
  exists qualifier simple,
    FunctionDefinition.split_qualified_name namespace name
    = Ok (qualifier, simple)
    /\ Str.contains "::" simple = false
    /\ (Str.contains "::" name = false ->
        qualifier = namespace /\ simple = name)
    /\ (Str.contains "::" name = true ->
        exists prefix,
          name = prefix ++ "::" ++ simple
          /\ qualifier
             = if Str.nonempty namespace && Str.nonempty prefix
               then namespace ++ "::" ++ prefix else prefix)
    /\ (forall rest,
          name = "::" ++ rest -> Str.contains "::" (":" ++ rest) = false ->
          qualifier = "" /\ simple = rest).
Proof.
  unfold FunctionDefinition.split_qualified_name.
  destruct (Str.contains "::" name) eqn:Hc.
  - destruct (rsplit1_present _ _ _ Hc) as (l & r & Hsplit).
    rewrite Hsplit. destruct (rsplit1_parts _ _ _ _ _ Hsplit) as [Hname Hr].
    exists (if Str.nonempty namespace && Str.nonempty l
            then namespace ++ "::" ++ l else l), r.
    split; [now destruct (_ && _)|]. split; [exact Hr|].
    split; [discriminate|]. split.
    + intros _. now exists l.
    + intros rest Hrest Hnone.
      assert (Hparts : Str.rsplit1 "::" name = [""; rest])
        by (rewrite Hrest; exact (rsplit1_last "" rest Hnone)).
      rewrite Hsplit in Hparts. injection Hparts as -> ->.
      rewrite andb_false_r. split; reflexivity.
  - exists namespace, name. split; [reflexivity|]. split; [exact Hc|].
    split; [auto|]. split; [discriminate|].
    intros rest -> _. discriminate.
Qed.






(** ** The two metrics (lines 234-267) *)

Lemma all_nodes_eq (n : Node.t) :
  all_nodes n = n :: flat_map all_nodes (Node.children n).
Proof.
  destruct n as [ty nm fd tx sr er eb ch]. reflexivity.
Qed.

Lemma complexity_eq (n : Node.t) :
  FunctionDefinition._traverse_node_complexity n
  = (if mem (Node.type n) FunctionDefinition.branch_nodes then 1 else 0)
    + list_sum (map FunctionDefinition._traverse_node_complexity
                    (Node.children n)).
Proof.
  destruct n as [ty nm fd tx sr er eb ch].
  cbn [FunctionDefinition._traverse_node_complexity Node.children Node.type].
  f_equal. induction ch as [|c ch IH]; [reflexivity|].
  change (list_sum (map FunctionDefinition._traverse_node_complexity (c :: ch)))
    with (FunctionDefinition._traverse_node_complexity c
          + list_sum (map FunctionDefinition._traverse_node_complexity ch)).
  now rewrite <- IH.
Qed.

Lemma instr_count_eq (n : Node.t) :
  FunctionDefinition._traverse_node_instr_count n
  = (if Str.contains "statement" (Node.type n) then 1 else 0)
    + list_sum (map FunctionDefinition._traverse_node_instr_count
                    (Node.children n)).
Proof.
  destruct n as [ty nm fd tx sr er eb ch].
  cbn [FunctionDefinition._traverse_node_instr_count Node.children Node.type].
  f_equal. induction ch as [|c ch IH]; [reflexivity|].
  change (list_sum (map FunctionDefinition._traverse_node_instr_count (c :: ch)))
    with (FunctionDefinition._traverse_node_instr_count c
          + list_sum (map FunctionDefinition._traverse_node_instr_count ch)).
  now rewrite <- IH.
Qed.

Lemma count_kinds (kind_counts : string -> bool) (count : Node.t -> nat) :
  (forall n,
      count n = (if kind_counts (Node.type n) then 1 else 0)
                + list_sum (map count (Node.children n))) ->
  forall n,
    count n
    = List.length (filter kind_counts (map Node.type (all_nodes n))).
Proof.
  intros Heq n. induction n as [n IH] using node_induction.
  rewrite Heq, all_nodes_eq. cbn [map filter].
  assert (Hch : list_sum (map count (Node.children n))
                = List.length
                    (filter kind_counts
                       (map Node.type (flat_map all_nodes (Node.children n))))).
  { induction IH as [|c l Hc _ IHl]; [reflexivity|].
    change (list_sum (map count (c :: l)))
      with (count c + list_sum (map count l)).
    cbn [flat_map].
    now rewrite map_app, filter_app, length_app, <- Hc, IHl. }
  rewrite Hch. destruct (kind_counts (Node.type n)); reflexivity.
Qed.

Lemma filter_length_perm {A : Type} (p : A -> bool) (l l' : list A) :
  Permutation l l' ->
  List.length (filter p l) = List.length (filter p l').
Proof.
  induction 1 as [|x l l' _ IH|x y l|l l' l'' _ IH1 _ IH2]; simpl.
  - reflexivity.
  - destruct (p x); simpl; now rewrite IH.
  - destruct (p x), (p y); reflexivity.
  - now rewrite IH1.
Qed.

(** X16: the complexity of a tree is the number of its nodes whose kind is
    a branch kind, and the instruction count the number of its nodes whose
    kind holds [statement]; so both depend on the kinds of the nodes only,
    and a tree with one more node has the metrics of the other tree plus 1
    where the kind of that node counts. *)
Theorem metrics_count_kinds (n : Node.t) :
  FunctionDefinition._traverse_node_complexity n
  = List.length
      (filter (fun kind => mem kind FunctionDefinition.branch_nodes)
              (map Node.type (all_nodes n)))
  /\ FunctionDefinition._traverse_node_instr_count n
     = List.length
         (filter (Str.contains "statement") (map Node.type (all_nodes n)))
  /\ (forall n' kind,
        Permutation (map Node.type (all_nodes n'))
                    (kind :: map Node.type (all_nodes n)) ->
        FunctionDefinition._traverse_node_complexity n'
        = FunctionDefinition._traverse_node_complexity n
          + (if mem kind FunctionDefinition.branch_nodes then 1 else 0)
        /\ FunctionDefinition._traverse_node_instr_count n'
           = FunctionDefinition._traverse_node_instr_count n
             + (if Str.contains "statement" kind then 1 else 0)).
Proof.
  pose proof (count_kinds (fun kind => mem kind FunctionDefinition.branch_nodes)
                _ complexity_eq) as Hc.
  pose proof (count_kinds (Str.contains "statement") _ instr_count_eq) as Hi.
  split; [apply Hc|]. split; [apply Hi|].
  intros n' kind Hperm. rewrite !Hc, !Hi.
  rewrite (filter_length_perm _ _ _ Hperm).
  rewrite (filter_length_perm (Str.contains "statement") _ _ Hperm).
  cbn [filter].
  destruct (mem kind FunctionDefinition.branch_nodes),
           (Str.contains "statement" kind); simpl; lia.
Qed.

(** ** Namespaces (lines 73-93) *)

Lemma append_namespace_proper (namespace ident : string) :
  namespace <> "" -> Str.startswith namespace ":" = false ->
  SourceCodeFile.append_namespace namespace ident <> ""
  /\ Str.startswith (SourceCodeFile.append_namespace namespace ident) ":"
     = false.
Proof.
  intros Hne Hc. rewrite (append_namespace_nonempty _ _ Hne Hc).
  destruct namespace as [|c namespace]; [congruence|]. split; [discriminate|].
  exact Hc.
Qed.

Lemma fold_append_namespace (names : list string) :
  (forall x, In x names -> x <> "" /\ Str.startswith x ":" = false) ->
  (forall namespace,
      namespace <> "" -> Str.startswith namespace ":" = false ->
      fold_left SourceCodeFile.append_namespace names namespace
      = Str.join "::" (namespace :: names))
  /\ fold_left SourceCodeFile.append_namespace names "" = Str.join "::" names.
Proof.
  intros Hnames.
  assert (Hfrom : forall names,
             (forall x, In x names -> x <> "" /\ Str.startswith x ":" = false) ->
             forall namespace,
               namespace <> "" -> Str.startswith namespace ":" = false ->
               fold_left SourceCodeFile.append_namespace names namespace
               = Str.join "::" (namespace :: names)).
  { clear. induction names as [|x names IH]; intros Hnames ns Hne Hc.
    - reflexivity.
    - cbn [fold_left].
      destruct (append_namespace_proper ns x Hne Hc) as [Hne' Hc'].
      rewrite IH; [|intros y Hy; apply Hnames; now right|exact Hne'|exact Hc'].
      rewrite (append_namespace_nonempty _ _ Hne Hc).
      rewrite (join_cons "::" ns (x :: names)) by discriminate.
      destruct names as [|y names].
      + reflexivity.
      + rewrite !join_cons by discriminate. now rewrite !str_app_assoc. }
  split; [now apply Hfrom|].
  destruct names as [|x names]; [reflexivity|].
  cbn [fold_left]. rewrite append_namespace_empty.
  destruct (Hnames x (or_introl eq_refl)) as [Hne Hc].
  apply Hfrom; [|exact Hne|exact Hc].
  intros y Hy. apply Hnames. now right.
Qed.

(** X17: for a namespace definition written with a nested specifier, the
    qualifier is the enclosing qualifier followed by the texts of the named
    children of the specifier, all joined by [::]: [namespace a::b { }]
    under [q] gives what [namespace a { namespace b { } }] gives. *)
Theorem nested_specifier_qualifier (node specifier : Node.t) :
  Node.child_by_field_name node "name" = Some specifier ->
  Node.type specifier = "nested_namespace_specifier" ->
  (forall child, In child (Node.children specifier) ->
     Node.is_named child = true ->
     Node.text child <> "" /\ Str.startswith (Node.text child) ":" = false) ->
  let names := map Node.text (filter Node.is_named (Node.children specifier)) in
  SourceCodeFile.namespace_of node "" = Str.join "::" names
  /\ (forall namespace,
        namespace <> "" -> Str.startswith namespace ":" = false ->
        SourceCodeFile.namespace_of node namespace
        = Str.join "::" (namespace :: names))
  /\ (forall namespace,
        SourceCodeFile.namespace_of node namespace
        = fold_left SourceCodeFile.append_namespace names namespace).
Proof.
  intros Hname Hty Hproper names.
  assert (Hfold : forall namespace,
             SourceCodeFile.namespace_of node namespace
             = fold_left SourceCodeFile.append_namespace names namespace).
  { intros namespace. unfold SourceCodeFile.namespace_of, names.
    rewrite Hname, Hty, String.eqb_refl. clear. revert namespace.
    induction (Node.children specifier) as [|c l IH]; intros namespace;
      [reflexivity|].
    cbn [fold_left filter]. destruct (Node.is_named c); cbn [negb map fold_left];
      apply IH. }
  assert (Hnames : forall x, In x names ->
                     x <> "" /\ Str.startswith x ":" = false).
  { intros x Hx. unfold names in Hx. apply in_map_iff in Hx as (c & <- & Hc).
    apply filter_In in Hc as [Hin Hnamed]. now apply Hproper. }
  destruct (fold_append_namespace names Hnames) as [Hfrom Hempty].
  split; [now rewrite Hfold|]. split; [|exact Hfold].
  intros namespace Hne Hc. rewrite Hfold. now apply Hfrom.
Qed.

Lemma nested_specifier_qualifier_witness :
  SourceCodeFile.namespace_of Samples.nested_specifier_namespace "" = "a::b::c"
  /\ SourceCodeFile.namespace_of Samples.nested_specifier_namespace "q"
     = "q::a::b::c".
Proof.
  destruct (nested_specifier_qualifier Samples.nested_specifier_namespace
              (Samples.named "nested_namespace_specifier" (Some "name") "a::b::c"
                 [ Samples.named "namespace_identifier" None "a" [];
                   Samples.token "::";
                   Samples.named "namespace_identifier" None "b" [];
                   Samples.token "::";
                   Samples.named "namespace_identifier" None "c" [] ])
              eq_refl eq_refl) as (H1 & H2 & _).
  - intros child [<-|[<-|[<-|[<-|[<-|[]]]]]] Hnamed;
      try discriminate Hnamed; split; (discriminate || reflexivity).
  - split; [exact H1|]. apply (H2 "q"); [discriminate | reflexivity].
Defined.

(** ** The global map (lines 383-402) *)

Lemma dict_get_set {V : Type} (d : Dict.t V) (k k' : string) (v : V) :
  Dict.get (Dict.set d k v) k'
  = if String.eqb k k' then Some v else Dict.get d k'.
Proof.
  induction d as [|[k0 v0] d IH]; simpl.
  - reflexivity.
  - destruct (String.eqb_spec k0 k) as [->|Hne]; simpl.
    + destruct (String.eqb k k'); reflexivity.
    + rewrite IH. destruct (String.eqb_spec k0 k') as [->|Hne'];
        [|reflexivity].
      destruct (String.eqb_spec k k'); [congruence | reflexivity].
Qed.

Lemma dict_keys_set {V : Type} (d : Dict.t V) (k : string) (v : V) :
  Dict.keys (Dict.set d k v)
  = if mem k (Dict.keys d) then Dict.keys d else (Dict.keys d ++ [k])%list.
Proof.
  unfold Dict.keys. induction d as [|[k0 v0] d IH]; simpl.
  - reflexivity.
  - unfold mem in *. cbn [existsb].
    destruct (String.eqb_spec k0 k) as [->|Hne].
    + now rewrite String.eqb_refl.
    + assert (Hkk : String.eqb k k0 = false)
        by (apply String.eqb_neq; congruence).
      rewrite Hkk. cbn [map fst orb]. rewrite IH.
      now destruct (existsb _ _).
Qed.

Lemma dict_keys_set_nodup {V : Type} (d : Dict.t V) (k : string) (v : V) :
  NoDup (Dict.keys d) -> NoDup (Dict.keys (Dict.set d k v)).
Proof.
  intros H. rewrite dict_keys_set. destruct (mem k (Dict.keys d)) eqn:E;
    [exact H|].
  apply mem_false in E. apply NoDup_app; [exact H | repeat constructor; auto |].
  intros x Hx [<-|[]]. contradiction.
Qed.

Lemma dict_get_keys {V : Type} (d : Dict.t V) (k : string) :
  Dict.get d k <> None <-> In k (Dict.keys d).
Proof.
  unfold Dict.keys. induction d as [|[k0 v0] d IH]; simpl.
  - tauto.
  - destruct (String.eqb_spec k0 k) as [->|Hne].
    + split; [now left | discriminate].
    + rewrite IH. split; [now right | intros [H|H]; [congruence | exact H]].
Qed.

Lemma dict_in_get {V : Type} (d : Dict.t V) (k : string) (v : V) :
  NoDup (Dict.keys d) -> In (k, v) d -> Dict.get d k = Some v.
Proof.
  unfold Dict.keys. induction d as [|[k0 v0] d IH]; simpl; [contradiction|].
  intros Hnd [Heq|Hin].
  - injection Heq as -> ->. now rewrite String.eqb_refl.
  - inversion Hnd as [|? ? Hnot Hnd']; subst.
    destruct (String.eqb_spec k0 k) as [->|Hne]; [|now apply IH].
    exfalso. apply Hnot. now apply (in_map fst) in Hin.
Qed.

Lemma find_app {A : Type} (p : A -> bool) (l1 l2 : list A) :
  find p (l1 ++ l2)
  = match find p l1 with
    | Some x => Some x
    | None => find p l2
    end.
Proof.
  induction l1 as [|x l1 IH]; simpl; [reflexivity|].
  destruct (p x); [reflexivity | exact IH].
Qed.

(** Writing the elements of a list into a dictionary one after the other:
    the last element with a key is the one found under it. *)
Lemma dict_get_fold {A V : Type} (key : A -> string) (val : A -> V)
      (l : list A) :
  forall (d : Dict.t V) (k : string),
    Dict.get (fold_left (fun acc x => Dict.set acc (key x) (val x)) l d) k
    = match find (fun x => String.eqb (key x) k) (rev l) with
      | Some x => Some (val x)
      | None => Dict.get d k
      end.
Proof.
  induction l as [|x l IH]; intros d k; [reflexivity|].
  cbn [fold_left rev]. rewrite IH, find_app.
  destruct (find _ (rev l)); [reflexivity|].
  rewrite dict_get_set. cbn [find]. now destruct (String.eqb (key x) k).
Qed.

Lemma dict_keys_fold_nodup {A V : Type} (key : A -> string) (val : A -> V)
      (l : list A) :
  forall d : Dict.t V,
    NoDup (Dict.keys d) ->
    NoDup (Dict.keys
             (fold_left (fun acc x => Dict.set acc (key x) (val x)) l d)).
Proof.
  induction l as [|x l IH]; intros d H; [exact H|].
  cbn [fold_left]. apply IH. now apply dict_keys_set_nodup.
Qed.

Lemma collect_get (units : list SourceCodeFile.t) :
  forall (acc : Dict.t FunctionDefinition.t) (k : string),
    Dict.get
      (fold_left
         (fun all_functions source_code =>
            Dict.update all_functions
              (Dict.of_list FunctionDefinition.name
                            (SourceCodeFile.func_defs source_code)))
         units acc) k
    = match find (fun f => String.eqb (FunctionDefinition.name f) k)
                 (rev (flat_map SourceCodeFile.func_defs units)) with
      | Some f => Some f
      | None => Dict.get acc k
      end.
Proof.
  induction units as [|unit units IH]; intros acc k; [reflexivity|].
  cbn [fold_left flat_map]. rewrite IH, rev_app_distr, find_app.
  destruct (find _ (rev (flat_map SourceCodeFile.func_defs units)));
    [reflexivity|].
  unfold Dict.update.
  rewrite (dict_get_fold fst snd).
  set (own := Dict.of_list FunctionDefinition.name
                           (SourceCodeFile.func_defs unit)).
  assert (Hnd : NoDup (Dict.keys own)).
  { unfold own, Dict.of_list.
    apply (dict_keys_fold_nodup FunctionDefinition.name (fun f => f)).
    constructor. }
  assert (Hown : forall k,
             Dict.get own k
             = find (fun f => String.eqb (FunctionDefinition.name f) k)
                    (rev (SourceCodeFile.func_defs unit))).
  { intros k'. unfold own, Dict.of_list.
    rewrite (dict_get_fold FunctionDefinition.name (fun f => f)).
    now destruct (find _ _). }
  rewrite <- Hown.
  destruct (find (fun x : string * FunctionDefinition.t => String.eqb (fst x) k)
                 (rev own)) as [[k' f]|] eqn:E.
  - apply find_some in E as [Hin Hk]. cbn [fst snd] in *.
    apply String.eqb_eq in Hk. subst k'. apply in_rev in Hin.
    now rewrite (dict_in_get _ _ _ Hnd Hin).
  - destruct (Dict.get own k) as [f|] eqn:Eg; [|reflexivity].
    apply dict_get_some_in in Eg. apply in_rev in Eg.
    apply (find_none _ _ E) in Eg. cbn [fst] in Eg.
    now rewrite String.eqb_refl in Eg.
Qed.

Lemma collect_keys_nodup (units : list SourceCodeFile.t) :
  forall acc : Dict.t FunctionDefinition.t,
    NoDup (Dict.keys acc) ->
    NoDup (Dict.keys
             (fold_left
                (fun all_functions source_code =>
                   Dict.update all_functions
                     (Dict.of_list FunctionDefinition.name
                                   (SourceCodeFile.func_defs source_code)))
                units acc)).
Proof.
  induction units as [|unit units IH]; intros acc H; [exact H|].
  cbn [fold_left]. apply IH. unfold Dict.update.
  now apply (dict_keys_fold_nodup fst snd).
Qed.

(** X18: the global map has one entry for each simple name of a function of
    the project, under that name, and the last function of that name, in
    the order of the units and of the functions in them, is the one it
    holds: earlier functions of the same name are not in the map. *)
Theorem all_functions_last_wins (units : list SourceCodeFile.t) :
  let all_functions := Project.collect_all_functions units in
  let functions := flat_map SourceCodeFile.func_defs units in
  (forall name,
      Dict.get all_functions name
      = find (fun f => String.eqb (FunctionDefinition.name f) name)
             (rev functions))
  /\ NoDup (Dict.keys all_functions)
  /\ (forall name,
        In name (Dict.keys all_functions)
        <-> In name (map FunctionDefinition.name functions))
  /\ (forall name f, In (name, f) all_functions ->
        FunctionDefinition.name f = name /\ In f functions).
Proof.
  intros all_functions functions.
  assert (Hget : forall name,
             Dict.get all_functions name
             = find (fun f => String.eqb (FunctionDefinition.name f) name)
                    (rev functions)).
  { intros name. unfold all_functions, Project.collect_all_functions.
    rewrite collect_get. now destruct (find _ _). }
  assert (Hnd : NoDup (Dict.keys all_functions)).
  { unfold all_functions, Project.collect_all_functions.
    apply collect_keys_nodup. constructor. }
  split; [exact Hget|]. split; [exact Hnd|]. split.
  - intros name. rewrite <- dict_get_keys, Hget. split.
    + intros H.
      destruct (find _ (rev functions)) as [f|] eqn:E; [|congruence].
      apply find_some in E as [Hin Hname]. apply String.eqb_eq in Hname.
      subst name. apply in_map. now apply in_rev.
    + intros H. apply in_map_iff in H as (f & <- & Hin).
      intros Hnone. apply in_rev in Hin.
      apply (find_none _ _ Hnone) in Hin.
      now rewrite String.eqb_refl in Hin.
  - intros name f Hin. apply (dict_in_get _ _ _ Hnd) in Hin.
    rewrite Hget in Hin. apply find_some in Hin as [Hf Hname].
    apply String.eqb_eq in Hname. split; [exact Hname | now apply in_rev].
Qed.

(** ** The functions of a unit (lines 63-98) *)

Lemma new_root (root : Node.t) (source_file namespace : string)
      (f : FunctionDefinition.t) :
  FunctionDefinition.new root source_file namespace = Ok f ->
  FunctionDefinition.root f = root
  /\ FunctionDefinition.parent_source f = source_file.
Proof.
  intros H. unfold FunctionDefinition.new,
    FunctionDefinition._extract_information in H.
  destruct (Node.child_by_field_name root "declarator"); [|discriminate].
  destruct (fold_left _ _ _) as [name param_list_node].
  destruct (FunctionDefinition.split_qualified_name namespace name)
    as [[q n]| |]; try discriminate.
  cbn [bind] in H. destruct param_list_node; [|discriminate].
  destruct (foldM _ _ _) as [[tys names]| |]; try discriminate.
  cbn [bind] in H. injection H as <-. split; reflexivity.
Qed.

Lemma process_nodes_results (source_file namespace : string)
      (l : list Node.t) :
  forall fs,
    SourceCodeFile.process_nodes source_file namespace l = Ok fs ->
    (forall child, In child l ->
       exists found,
         (if String.eqb (Node.type child) "function_definition"
          then SourceCodeFile._process_function_node source_file child namespace
          else if String.eqb (Node.type child) "namespace_definition"
          then SourceCodeFile._process_namespace_node source_file child
                 namespace
          else SourceCodeFile.process_tree source_file child namespace)
         = Ok found
         /\ incl found fs)
    /\ (forall f, In f fs ->
          exists child found,
            In child l
            /\ (if String.eqb (Node.type child) "function_definition"
                then SourceCodeFile._process_function_node source_file child
                       namespace
                else if String.eqb (Node.type child) "namespace_definition"
                then SourceCodeFile._process_namespace_node source_file child
                       namespace
                else SourceCodeFile.process_tree source_file child namespace)
               = Ok found
            /\ In f found).
Proof.
  induction l as [|c l IH]; intros fs H; cbn [SourceCodeFile.process_nodes] in H.
  - injection H as <-. split; [intros child [] | intros f []].
  - destruct (if String.eqb (Node.type c) "function_definition" then _ else _)
      as [found| |] eqn:Ec; try discriminate.
    cbn [bind] in H.
    destruct (SourceCodeFile.process_nodes source_file namespace l)
      as [rest| |]; try discriminate.
    cbn [bind] in H. injection H as <-.
    destruct (IH rest eq_refl) as [Hall Hfrom]. split.
    + intros child [<-|Hchild].
      * exists found. split; [exact Ec | apply incl_appl, incl_refl].
      * destruct (Hall child Hchild) as (found' & Hf & Hincl).
        exists found'. split; [exact Hf | now apply incl_appr].
    + intros f Hf. apply in_app_or in Hf as [Hf|Hf].
      * exists c, found. split; [now left|]. split; [exact Ec | exact Hf].
      * destruct (Hfrom f Hf) as (child & found' & Hchild & Hres & Hin).
        exists child, found'. split; [now right|]. split; assumption.
Qed.

(** X19: when the walk over the tree of a unit returns, the functions it
    collected are those of the function definitions of the tree that do
    not lie inside another function definition: each collected function
    wraps such a node and names the unit's file, and each such node has its
    function collected. *)
Theorem process_tree_collects (source_file : string) (node : Node.t) :
  forall namespace fs,
    SourceCodeFile.process_tree source_file node namespace = Ok fs ->
    (forall f, In f fs ->
       collected node (FunctionDefinition.root f)
       /\ FunctionDefinition.parent_source f = source_file)
    /\ (forall d, collected node d ->
          exists f, In f fs /\ FunctionDefinition.root f = d).
Proof.
  induction node as [n IH] using node_induction.
  intros namespace fs H. rewrite process_tree_eq in H.
  rewrite Forall_forall in IH.
  apply process_nodes_results in H as [Hall Hfrom]. split.
  - intros f Hf.
    destruct (Hfrom f Hf) as (child & found & Hchild & Hres & Hin).
    destruct (String.eqb_spec (Node.type child) "function_definition")
      as [Hty|Hty].
    + unfold SourceCodeFile._process_function_node in Hres.
      destruct (FunctionDefinition.new child source_file namespace)
        as [g| |] eqn:Eg; try discriminate.
      cbn [bind] in Hres. injection Hres as <-. destruct Hin as [<-|[]].
      destruct (new_root _ _ _ _ Eg) as [-> ->].
      split; [now apply collected_child | reflexivity].
    + assert (Hsub : exists ns',
                 SourceCodeFile.process_tree source_file child ns' = Ok found).
      { destruct (String.eqb (Node.type child) "namespace_definition");
          eauto. }
      destruct Hsub as (ns' & Hsub).
      destruct (IH child Hchild ns' found Hsub) as [Hsound _].
      destruct (Hsound f Hin) as [Hc Hp].
      split; [now apply collected_under with (c := child) | exact Hp].
  - intros d Hd. inversion Hd as [? ? Hin Hty|? c ? Hin Hty Hc]; subst.
    + destruct (Hall d Hin) as (found & Hres & Hincl).
      rewrite Hty, String.eqb_refl in Hres.
      unfold SourceCodeFile._process_function_node in Hres.
      destruct (FunctionDefinition.new d source_file namespace)
        as [g| |] eqn:Eg; try discriminate.
      cbn [bind] in Hres. injection Hres as <-.
      exists g. split; [apply Hincl; now left|].
      now destruct (new_root _ _ _ _ Eg).
    + destruct (Hall c Hin) as (found & Hres & Hincl).
      apply String.eqb_neq in Hty. rewrite Hty in Hres.
      assert (Hsub : exists ns',
                 SourceCodeFile.process_tree source_file c ns' = Ok found).
      { destruct (String.eqb (Node.type c) "namespace_definition"); eauto. }
      destruct Hsub as (ns' & Hsub).
      destruct (IH c Hin ns' found Hsub) as [_ Hcomplete].
      destruct (Hcomplete d Hc) as (f & Hf & Hroot).
      exists f. split; [now apply Hincl | exact Hroot].
Qed.

Lemma process_tree_collects_witness :
  exists f,
    SourceCodeFile.process_tree "a.cpp" Samples.nested_namespaces "" = Ok [f]
    /\ collected Samples.nested_namespaces (FunctionDefinition.root f)
    /\ FunctionDefinition.parent_source f = "a.cpp".
Proof.
  eexists. split; [reflexivity|].
  apply (proj1 (process_tree_collects "a.cpp" Samples.nested_namespaces
                  "" _ eq_refl)).
  now left.
Defined.

(** ** Harnesses (lines 128-134 and 448-454) *)

Lemma contains_iff (sub s : string) :
  Str.contains sub s = true <-> exists pre post, s = pre ++ sub ++ post.
Proof.
  split.
  - induction s as [|c s IH].
    + cbn [Str.contains]. rewrite orb_false_r. intros H.
      apply startswith_iff in H as (rest & H). now exists "", rest.
    + rewrite contains_cons. intros H. apply orb_true_iff in H as [H|H].
      * apply startswith_iff in H as (rest & H). now exists "", rest.
      * destruct (IH H) as (pre & post & ->). now exists (String c pre), post.
  - intros (pre & post & ->). induction pre as [|c pre IH].
    + cbn [String.append].
      assert (H : Str.startswith (sub ++ post) sub = true)
        by (apply startswith_iff; now exists post).
      destruct (sub ++ post); cbn [Str.contains]; now rewrite H.
    + cbn [String.append]. rewrite contains_cons, IH. apply orb_true_r.
Qed.

(** X20: the units with a harness are the units of the project, in order,
    that have a function whose name holds [LLVMFuzzerTestOneInput]
    somewhere: a longer name around the token counts as well. *)
Theorem harness_units (self : Project.t) (unit : SourceCodeFile.t) :
  (In unit (Project.get_source_codes_with_harnesses self)
   <-> In unit (Project.source_code_files self)
       /\ exists f pre post,
            In f (SourceCodeFile.func_defs unit)
            /\ FunctionDefinition.name f
               = pre ++ "LLVMFuzzerTestOneInput" ++ post)
  /\ (forall units1 units2,
        Project.source_code_files self = (units1 ++ units2)%list ->
        Project.get_source_codes_with_harnesses self
        = (filter SourceCodeFile.has_libfuzzer_harness units1
           ++ filter SourceCodeFile.has_libfuzzer_harness units2)%list).
Proof.
  split.
  - unfold Project.get_source_codes_with_harnesses.
    rewrite filter_In. unfold SourceCodeFile.has_libfuzzer_harness.
    rewrite existsb_exists. split.
    + intros (Hin & f & Hf & Hc). split; [exact Hin|].
      apply contains_iff in Hc as (pre & post & Hname). now exists f, pre, post.
    + intros (Hin & f & pre & post & Hf & Hname). split; [exact Hin|].
      exists f. split; [exact Hf|]. apply contains_iff. now exists pre, post.
  - intros units1 units2 H. unfold Project.get_source_codes_with_harnesses.
    rewrite H. apply filter_app.
Qed.

(** ** The shape of a rendering (lines 456-512) *)

Lemma set_add_elements (x y : string) (s : list string) :
  In y (Project.set_add x s) -> y = x \/ In y s.
Proof.
  unfold Project.set_add. destruct (mem x s); [now right|].
  intros H. apply in_app_or in H as [H|[<-|[]]]; auto.
Qed.

Lemma calltree_children_prefix
      (call : string * nat -> list string -> result (string * list string)) :
  forall callsites line visited text visited',
    foldM (fun (st : string * list string) (cs : string * nat) =>
             '(sub, visited_functions) <- call cs (snd st) ;;
             Ok (fst st ++ sub, visited_functions))
          callsites (line, visited) = Ok (text, visited') ->
    exists rest, text = line ++ rest.
Proof.
  induction callsites as [|cs l IH]; intros line visited text visited' H;
    cbn [foldM] in H.
  - injection H as <- _. exists "". now rewrite str_app_nil_r.
  - cbn [snd fst] in H.
    destruct (call cs visited) as [[sub v1]| |]; try discriminate.
    cbn [bind] in H. apply IH in H as (rest & ->).
    exists (sub ++ rest). now rewrite str_app_assoc.
Qed.

Lemma calltree_visited_origin (self : Project.t)
      (all_functions : Dict.t FunctionDefinition.t) (fuel : nat) :
  Project.all_functions self = Some all_functions ->
  forall source_file source_code function visited depth line_number text
         visited',
    Project.extract_calltree fuel self source_file source_code
      (Some function) (Some visited) depth line_number = Ok (text, visited') ->
    forall x, In x visited' ->
      In x visited \/ x = function \/ In x (callee_names all_functions).
Proof.
  intros Hall. induction fuel as [|fuel IH];
    intros source_file source_code function visited depth line_number text
           visited' H x Hx; [discriminate|].
  destruct (string_dec function "") as [->|Hne].
  { rewrite extract_calltree_empty_name in H. injection H as _ <-. now left. }
  rewrite (extract_calltree_step _ _ _ _ _ _ _ _ _ Hall Hne) in H.
  cbv zeta in H.
  destruct (mem function visited); [injection H as _ <-; now left|].
  destruct (get_function_node function all_functions false)
    as [node|] eqn:Hnode; [|injection H as _ <-; now left].
  destruct (match source_code with Some _ => _ | None => _ end) as [unit|];
    [|injection H as _ <-; now left].
  pose proof (callsites_in_names all_functions function node Hnode) as Hnames.
  assert (Hloop : forall callsites line v text v',
             (forall cs, In cs callsites ->
                In (fst cs) (callee_names all_functions)) ->
             foldM
               (fun (st : string * list string) (cs : string * nat) =>
                  '(sub, visited_functions) <-
                     Project.extract_calltree fuel self
                       (SourceCodeFile.source_file unit)
                       None (Some (fst cs)) (Some (snd st))
                       (depth + 1) (Z.of_nat (snd cs)) ;;
                  Ok (fst st ++ sub, visited_functions))
               callsites (line, v) = Ok (text, v') ->
             forall y, In y v' ->
               In y v \/ In y (callee_names all_functions)).
  { clear H Hx. induction callsites as [|cs l IHl];
      intros line v text' v' Hcs H y Hy; cbn [foldM] in H.
    - injection H as _ <-. now left.
    - cbn [snd fst] in H.
      destruct (Project.extract_calltree fuel self _ None (Some (fst cs))
                  (Some v) (depth + 1) (Z.of_nat (snd cs)))
        as [[sub v1]| |] eqn:E; try discriminate.
      cbn [bind] in H.
      destruct (IHl _ _ _ _ (fun c Hc => Hcs c (or_intror Hc)) H y Hy)
        as [Hv1|Hn]; [|now right].
      destruct (IH _ _ _ _ _ _ _ _ E y Hv1) as [Hv|[->|Hn]];
        [now left | right | now right].
      apply Hcs. now left. }
  destruct (Hloop _ _ _ _ _ Hnames H x Hx) as [Hadd|Hn]; [|auto].
  apply set_add_elements in Hadd as [->|Hv]; auto.
Qed.

(** X21: a rendering that [extract_calltree] returns for a non-empty name
    starts with the line of the function itself, and the set it leaves
    holds only names that were in the set before, the name of the function
    and names at callsites of functions of the global map. *)
Theorem calltree_rendering_shape (fuel : nat) (self : Project.t)
        (all_functions : Dict.t FunctionDefinition.t) (source_file : string)
        (source_code : option SourceCodeFile.t) (function : string)
        (visited : list string) (depth : nat) (line_number : Z)
        (text : string) (visited' : list string) :
  Project.all_functions self = Some all_functions -> function <> "" ->
  Project.extract_calltree fuel self source_file source_code
    (Some function) (Some visited) depth line_number = Ok (text, visited') ->
  (exists rest,
      text
      = Project.calltree_line depth
          match get_function_node function all_functions false with
          | Some func_node => SourceCodeFile.qualified_name func_node
          | None => function
          end source_file line_number ++ rest)
  /\ (forall x, In x visited' ->
        In x visited \/ x = function \/ In x (callee_names all_functions)).
Proof.
  intros Hall Hne H. split.
  - destruct fuel as [|fuel]; [discriminate|].
    rewrite (extract_calltree_step _ _ _ _ _ _ _ _ _ Hall Hne) in H.
    cbv zeta in H.
    destruct (mem function visited);
      [injection H as <- _; exists ""; now rewrite str_app_nil_r|].
    destruct (get_function_node function all_functions false) as [node|];
      [|injection H as <- _; exists ""; now rewrite str_app_nil_r].
    destruct (match source_code with Some _ => _ | None => _ end) as [unit|];
      [|injection H as <- _; exists ""; now rewrite str_app_nil_r].
    exact (calltree_children_prefix
             (fun cs v =>
                Project.extract_calltree fuel self
                  (SourceCodeFile.source_file unit) None (Some (fst cs))
                  (Some v) (depth + 1) (Z.of_nat (snd cs)))
             _ _ _ _ _ H).
  - exact (calltree_visited_origin self all_functions fuel Hall _ _ _ _ _ _
             _ _ H).
Qed.

Lemma calltree_rendering_shape_witness :
  exists rest,
    "main a.cpp -1" ++ Samples.nl
      ++ "  a a.cpp 5" ++ Samples.nl
      ++ "    shared a.cpp 3" ++ Samples.nl
      ++ "      leaf a.cpp 2" ++ Samples.nl
      ++ "  b a.cpp 5" ++ Samples.nl
      ++ "    shared a.cpp 4" ++ Samples.nl
    = Project.calltree_line 0 "main" "a.cpp" (-1) ++ rest.
Proof.
  exact (proj1 (calltree_rendering_shape 5 Samples.diamond_project
                  (Project.collect_all_functions
                     (Project.source_code_files Samples.diamond_project))
                  "a.cpp" None "main" [] 0 (-1) _ _ eq_refl
                  ltac:(discriminate) eq_refl)).
Defined.

(** * The aggregation pass (lines 375-446) *)

(** ** Lists with their indices *)

Lemma indexed_from_nth {A : Type} (l : list A) :
  forall s j x,
    In (j, x) (combine (seq s (List.length l)) l) <->
    s <= j /\ nth_error l (j - s) = Some x.
Proof.
  induction l as [|y l IH]; intros s j x; cbn [List.length seq combine].
  - split; [contradiction|]. intros [_ H]. now destruct (j - s).
  - cbn [In]. rewrite IH. split.
    + intros [[= <- <-]|[Hle Hnth]].
      * split; [lia|]. now rewrite Nat.sub_diag.
      * split; [lia|]. replace (j - s) with (S (j - S s)) by lia. exact Hnth.
    + intros [Hle Hnth]. destruct (Nat.eq_dec s j) as [->|Hne].
      * left. rewrite Nat.sub_diag in Hnth. now injection Hnth as ->.
      * right. split; [lia|].
        replace (j - s) with (S (j - S s)) in Hnth by lia. exact Hnth.
Qed.

Lemma indexed_nth {A : Type} (l : list A) (j : nat) (x : A) :
  In (j, x) (Project.indexed l) <-> nth_error l j = Some x.
Proof.
  unfold Project.indexed. rewrite indexed_from_nth, Nat.sub_0_r.
  split; [now intros [_ H] | intros H; split; [lia | exact H]].
Qed.

Lemma indexed_from_app {A : Type} (l : list A) (x : A) :
  forall s,
    combine (seq s (List.length (l ++ [x])%list)) (l ++ [x])
    = (combine (seq s (List.length l)) l ++ [(s + List.length l, x)])%list.
Proof.
  induction l as [|y l IH]; intros s; cbn [app List.length seq combine].
  - now rewrite Nat.add_0_r.
  - rewrite IH. now rewrite Nat.add_succ_r.
Qed.

Lemma indexed_app {A : Type} (l : list A) (x : A) :
  Project.indexed (l ++ [x])
  = (Project.indexed l ++ [(List.length l, x)])%list.
Proof. exact (indexed_from_app l x 0). Qed.

Lemma indexed_from_map {A B : Type} (g : A -> B) (l : list A) :
  forall s,
    combine (seq s (List.length (map g l))) (map g l)
    = map (fun jx => (fst jx, g (snd jx))) (combine (seq s (List.length l)) l).
Proof.
  induction l as [|x l IH]; intros s; [reflexivity|].
  cbn [map List.length seq combine fst snd]. now rewrite IH.
Qed.

Lemma indexed_map {A B : Type} (g : A -> B) (l : list A) :
  Project.indexed (map g l)
  = map (fun jx => (fst jx, g (snd jx))) (Project.indexed l).
Proof. apply indexed_from_map. Qed.

Lemma fold_left_map_list {A B C : Type} (f : C -> B -> C) (g : A -> B)
      (l : list A) :
  forall c, fold_left f (map g l) c = fold_left (fun c x => f c (g x)) l c.
Proof. induction l as [|x l IH]; intros c; [reflexivity | apply IH]. Qed.

Lemma nth_error_lt {A : Type} (l : list A) (n : nat) (x : A) :
  nth_error l n = Some x -> n < List.length l.
Proof. intros H. apply nth_error_Some. congruence. Qed.

(** The last element of a list on which a function answers, with its
    index. *)
Lemma first_some_rev_indexed {A B : Type} (g : nat * A -> option B)
      (l : list A) (b : B) :
  first_some g (rev (Project.indexed l)) = Some b ->
  exists j x,
    nth_error l j = Some x /\ g (j, x) = Some b
    /\ forall j' x', j < j' -> nth_error l j' = Some x' -> g (j', x') = None.
Proof.
  induction l as [|y l IH] using rev_ind; [discriminate|].
  rewrite indexed_app, rev_app_distr. cbn [rev app first_some].
  destruct (g (List.length l, y)) as [b'|] eqn:E.
  - intros [= ->]. exists (List.length l), y. split; [|split].
    + rewrite nth_error_app2 by lia. now rewrite Nat.sub_diag.
    + exact E.
    + intros j' x' Hlt Hnth. apply nth_error_lt in Hnth.
      rewrite length_app in Hnth. cbn in Hnth. lia.
  - intros H. destruct (IH H) as (j & x & Hnth & Hg & Hlast).
    exists j, x. split; [|split].
    + rewrite nth_error_app1; [exact Hnth|].
      now apply nth_error_lt in Hnth.
    + exact Hg.
    + intros j' x' Hlt Hnth'.
      destruct (Nat.lt_ge_cases j' (List.length l)) as [Hin|Hout].
      * rewrite nth_error_app1 in Hnth' by exact Hin. eauto.
      * assert (j' = List.length l).
        { apply nth_error_lt in Hnth'. rewrite length_app in Hnth'.
          cbn in Hnth'. lia. }
        subst j'. rewrite nth_error_app2, Nat.sub_diag in Hnth' by lia.
        injection Hnth' as <-. exact E.
Qed.

Lemma first_some_none_all {A B : Type} (g : A -> option B) (l : list A) :
  first_some g l = None -> forall x, In x l -> g x = None.
Proof.
  induction l as [|y l IH]; cbn [first_some]; [contradiction|].
  destruct (g y) eqn:E; [discriminate|].
  intros H x [<-|Hin]; [exact E | now apply IH].
Qed.

Lemma find_first_some {A : Type} (p : A -> bool) (l : list A) :
  find p l = first_some (fun x => if p x then Some x else None) l.
Proof.
  induction l as [|x l IH]; [reflexivity|]. cbn [find first_some].
  destruct (p x); [reflexivity | exact IH].
Qed.

(** ** Updating a list in place *)

Lemma set_nth_eq {A : Type} (l : list A) :
  forall n x, n < List.length l -> nth_error (Project.set_nth n x l) n = Some x.
Proof.
  induction l as [|y l IH]; intros [|n] x H; cbn in *; try lia.
  - reflexivity.
  - apply IH. lia.
Qed.

Lemma set_nth_ne {A : Type} (l : list A) :
  forall n m x, n <> m ->
    nth_error (Project.set_nth n x l) m = nth_error l m.
Proof.
  induction l as [|y l IH]; intros [|n] [|m] x H; cbn; try reflexivity;
    try congruence.
  apply IH. congruence.
Qed.

Lemma set_nth_same {A : Type} (l : list A) :
  forall n x, nth_error l n = Some x -> Project.set_nth n x l = l.
Proof.
  induction l as [|y l IH]; intros [|n] x H; cbn in *; try discriminate.
  - now injection H as ->.
  - now rewrite IH.
Qed.

Lemma set_nth_map {A B : Type} (g : A -> B) (l : list A) :
  forall n x,
    map g (Project.set_nth n x l) = Project.set_nth n (g x) (map g l).
Proof.
  induction l as [|y l IH]; intros [|n] x; cbn; try reflexivity.
  now rewrite IH.
Qed.

Lemma set_nth_in {A : Type} (l : list A) :
  forall n x y, In y (Project.set_nth n x l) -> y = x \/ In y l.
Proof.
  induction l as [|z l IH]; intros [|n] x y; cbn; try tauto.
  - intros [<-|H]; auto.
  - intros [<-|H]; auto. apply IH in H. tauto.
Qed.

Lemma filter_none {A : Type} (p : A -> bool) (l : list A) :
  (forall x, In x l -> p x = false) -> filter p l = [].
Proof.
  induction l as [|x l IH]; intros H; [reflexivity|]. cbn [filter].
  rewrite (H x) by now left. apply IH. intros y Hy. apply H. now right.
Qed.

Lemma filter_set_nth {A : Type} (p : A -> bool) (l : list A) :
  (forall x, In x l -> p x = false) ->
  forall n x, List.length (filter p (Project.set_nth n x l)) <= 1.
Proof.
  induction l as [|y l IH]; intros H [|n] x; cbn [Project.set_nth filter];
    try (cbn; lia).
  - rewrite (filter_none p l) by (intros z Hz; apply H; now right).
    destruct (p x); cbn; lia.
  - rewrite (H y) by now left. apply IH. intros z Hz. apply H. now right.
Qed.

Lemma indexed_forall2 {A : Type} (l : list A) :
  Forall2 (fun jx x => snd jx = x /\ nth_error l (fst jx) = Some x)
          (Project.indexed l) l.
Proof.
  induction l as [|y l IH] using rev_ind; [constructor|].
  rewrite indexed_app. apply Forall2_app.
  - eapply Forall2_impl; [|exact IH]. cbn beta.
    intros jx x [Hx Hnth]. split; [exact Hx|].
    rewrite nth_error_app1; [exact Hnth | now apply nth_error_lt in Hnth].
  - constructor; [|constructor]. split; [reflexivity|]. cbn [fst].
    rewrite nth_error_app2 by lia. now rewrite Nat.sub_diag.
Qed.

Lemma fold_left_ext_all {A B : Type} (f g : A -> B -> A) (l : list B) :
  (forall a x, f a x = g a x) ->
  forall a, fold_left f l a = fold_left g l a.
Proof.
  intros H. induction l as [|x l IH]; intros a; [reflexivity|].
  cbn [fold_left]. now rewrite H, IH.
Qed.

(** ** Places and the objects at them *)

Lemma deref_without (units : list SourceCodeFile.t) (r : Project.ref) :
  Project.deref (units_without_callsites units) r
  = option_map without_callsites (Project.deref units r).
Proof.
  unfold Project.deref, units_without_callsites. rewrite nth_error_map.
  destruct (nth_error units (fst r)) as [unit|]; [|reflexivity].
  cbn [option_map SourceCodeFile.func_defs]. apply nth_error_map.
Qed.

Lemma deref_same_units (units units' : list SourceCodeFile.t)
      (r : Project.ref) (f : FunctionDefinition.t) :
  same_units units units' -> Project.deref units r = Some f ->
  exists f', Project.deref units' r = Some f'
             /\ without_callsites f = without_callsites f'.
Proof.
  intros Hsame Hf.
  pose proof (deref_without units r) as H. rewrite Hsame, deref_without, Hf in H.
  destruct (Project.deref units' r) as [f'|]; [|discriminate].
  exists f'. split; [reflexivity|]. cbn in H. congruence.
Qed.

Lemma deref_in (units : list SourceCodeFile.t) (r : Project.ref)
      (f : FunctionDefinition.t) :
  Project.deref units r = Some f ->
  In f (flat_map SourceCodeFile.func_defs units).
Proof.
  unfold Project.deref. intros H.
  destruct (nth_error units (fst r)) as [unit|] eqn:E; [|discriminate].
  apply in_flat_map. exists unit. split; eapply nth_error_In; eassumption.
Qed.

Lemma deref_assign_eq (units : list SourceCodeFile.t) (r : Project.ref)
      (f f' : FunctionDefinition.t) :
  Project.deref units r = Some f ->
  Project.deref (Project.assign units r f') r = Some f'.
Proof.
  unfold Project.deref, Project.assign. intros H.
  destruct (nth_error units (fst r)) as [unit|] eqn:E; [|discriminate].
  rewrite set_nth_eq by now apply nth_error_lt in E.
  cbn [SourceCodeFile.func_defs]. apply set_nth_eq.
  now apply nth_error_lt in H.
Qed.

Lemma deref_assign_ne (units : list SourceCodeFile.t) (r r' : Project.ref)
      (f' : FunctionDefinition.t) :
  r <> r' ->
  Project.deref (Project.assign units r f') r' = Project.deref units r'.
Proof.
  unfold Project.deref, Project.assign. intros Hne.
  destruct (nth_error units (fst r)) as [unit|] eqn:E; [|reflexivity].
  destruct (Nat.eq_dec (fst r) (fst r')) as [Heq|Hdiff].
  - rewrite <- Heq, E. rewrite set_nth_eq by now apply nth_error_lt in E.
    cbn [SourceCodeFile.func_defs]. apply set_nth_ne.
    intros Hsnd. apply Hne. destruct r, r'; cbn in *; congruence.
  - now rewrite set_nth_ne.
Qed.

Lemma assign_same (units : list SourceCodeFile.t) (r : Project.ref)
      (f : FunctionDefinition.t) :
  Project.deref units r = Some f -> Project.assign units r f = units.
Proof.
  unfold Project.deref, Project.assign. intros H.
  destruct (nth_error units (fst r)) as [unit|] eqn:E; [|discriminate].
  apply set_nth_same. rewrite E, (set_nth_same _ _ _ H). now destruct unit.
Qed.

Lemma assign_same_units (units : list SourceCodeFile.t) (r : Project.ref)
      (f f' : FunctionDefinition.t) :
  Project.deref units r = Some f ->
  without_callsites f = without_callsites f' ->
  same_units units (Project.assign units r f').
Proof.
  unfold Project.deref, Project.assign, same_units, units_without_callsites.
  intros H Hf.
  destruct (nth_error units (fst r)) as [unit|] eqn:E; [|discriminate].
  rewrite set_nth_map. symmetry. apply set_nth_same.
  rewrite nth_error_map, E. cbn [option_map SourceCodeFile.func_defs
                                 SourceCodeFile.source_file].
  rewrite set_nth_map, <- Hf, set_nth_same; [reflexivity|].
  now rewrite nth_error_map, H.
Qed.

Lemma assign_in (units : list SourceCodeFile.t) (r : Project.ref)
      (f' g : FunctionDefinition.t) :
  In g (flat_map SourceCodeFile.func_defs (Project.assign units r f')) ->
  g = f' \/ In g (flat_map SourceCodeFile.func_defs units).
Proof.
  unfold Project.assign.
  destruct (nth_error units (fst r)) as [unit|] eqn:E; [|now right].
  rewrite !in_flat_map. intros (u & Hu & Hg).
  apply set_nth_in in Hu as [->|Hu].
  - cbn [SourceCodeFile.func_defs] in Hg.
    apply set_nth_in in Hg as [->|Hg]; [now left|].
    right. exists unit. split; [eapply nth_error_In; eassumption | exact Hg].
  - right. now exists u.
Qed.

Lemma filter_flat_set_nth (p : FunctionDefinition.t -> bool)
      (units : list SourceCodeFile.t) :
  (forall g, In g (flat_map SourceCodeFile.func_defs units) -> p g = false) ->
  forall i x,
    List.length (filter p (SourceCodeFile.func_defs x)) <= 1 ->
    List.length
      (filter p (flat_map SourceCodeFile.func_defs (Project.set_nth i x units)))
    <= 1.
Proof.
  induction units as [|u units IH]; intros H [|i] x Hx;
    cbn [Project.set_nth flat_map]; try (cbn; lia).
  - rewrite filter_app, length_app.
    rewrite (filter_none p (flat_map _ units)); [cbn; lia|].
    intros g Hg. apply H. cbn [flat_map]. apply in_or_app. now right.
  - rewrite filter_app, length_app.
    rewrite (filter_none p (SourceCodeFile.func_defs u)).
    + cbn [List.length Nat.add]. apply IH; [|exact Hx].
      intros g Hg. apply H. cbn [flat_map]. apply in_or_app. now right.
    + intros g Hg. apply H. cbn [flat_map]. apply in_or_app. now left.
Qed.

Lemma assign_filter_bound (p : FunctionDefinition.t -> bool)
      (units : list SourceCodeFile.t) (r : Project.ref)
      (f' : FunctionDefinition.t) :
  (forall g, In g (flat_map SourceCodeFile.func_defs units) -> p g = false) ->
  List.length
    (filter p (flat_map SourceCodeFile.func_defs (Project.assign units r f')))
  <= 1.
Proof.
  intros H. unfold Project.assign.
  destruct (nth_error units (fst r)) as [unit|] eqn:E.
  - apply filter_flat_set_nth; [exact H|]. cbn [SourceCodeFile.func_defs].
    apply filter_set_nth. intros g Hg. apply H. apply in_flat_map.
    exists unit. split; [eapply nth_error_In; eassumption | exact Hg].
  - rewrite filter_none by exact H. cbn. lia.
Qed.

(** ** Dictionaries with related values *)

Lemma dict_rel_set {V W : Type} (R : V -> W -> Prop)
      (d : Dict.t V) (d' : Dict.t W) (k : string) (v : V) (w : W) :
  dict_rel R d d' -> R v w -> dict_rel R (Dict.set d k v) (Dict.set d' k w).
Proof.
  intros Hd Hvw.
  induction Hd as [|[k1 v1] [k2 w2] d d' [Hk Hr] Hd IH]; cbn [Dict.set].
  - constructor; [now split | constructor].
  - cbn [fst snd] in Hk, Hr. subst k2.
    destruct (String.eqb k1 k); constructor; try exact Hd; try exact IH;
      now split.
Qed.

Lemma dict_rel_fold {A B V W : Type} (R : V -> W -> Prop)
      (key : A -> string) (val : A -> V) (key' : B -> string) (val' : B -> W)
      (l : list A) (l' : list B) :
  Forall2 (fun x y => key x = key' y /\ R (val x) (val' y)) l l' ->
  forall d d',
    dict_rel R d d' ->
    dict_rel R (fold_left (fun acc x => Dict.set acc (key x) (val x)) l d)
               (fold_left (fun acc y => Dict.set acc (key' y) (val' y)) l' d').
Proof.
  induction 1 as [|x y l l' [Hk Hr] _ IH]; intros d d' Hd; [exact Hd|].
  cbn [fold_left]. apply IH. rewrite Hk. now apply dict_rel_set.
Qed.

Lemma dict_rel_update {V W : Type} (R : V -> W -> Prop)
      (d other : Dict.t V) (d' other' : Dict.t W) :
  dict_rel R d d' -> dict_rel R other other' ->
  dict_rel R (Dict.update d other) (Dict.update d' other').
Proof.
  intros Hd Ho. unfold Dict.update.
  now apply (dict_rel_fold R fst snd fst snd).
Qed.

Lemma dict_rel_fold_update {A B V W : Type} (R : V -> W -> Prop)
      (own : A -> Dict.t V) (own' : B -> Dict.t W)
      (l : list A) (l' : list B) :
  Forall2 (fun x y => dict_rel R (own x) (own' y)) l l' ->
  forall d d',
    dict_rel R d d' ->
    dict_rel R (fold_left (fun acc x => Dict.update acc (own x)) l d)
               (fold_left (fun acc y => Dict.update acc (own' y)) l' d').
Proof.
  induction 1 as [|x y l l' Hxy _ IH]; intros d d' Hd; [exact Hd|].
  cbn [fold_left]. apply IH. now apply dict_rel_update.
Qed.

Lemma dict_rel_keys {V W : Type} (R : V -> W -> Prop)
      (d : Dict.t V) (d' : Dict.t W) :
  dict_rel R d d' -> Dict.keys d = Dict.keys d'.
Proof.
  unfold Dict.keys. induction 1 as [|a b d d' [Hk _] _ IH]; [reflexivity|].
  cbn [map]. now rewrite Hk, IH.
Qed.

Lemma dict_rel_join {U V W : Type} (R : U -> V -> Prop) (R' : U -> W -> Prop)
      (d : Dict.t U) (v : Dict.t V) :
  dict_rel R d v ->
  forall w, dict_rel R' d w ->
            dict_rel (fun x y => exists r, R r x /\ R' r y) v w.
Proof.
  induction 1 as [|a b d v [Hk Hr] _ IH]; intros w Hw; inversion Hw; subst.
  - constructor.
  - match goal with
    | H : _ /\ _ |- _ => destruct H as [Hk' Hr']
    end.
    constructor; [|now apply IH].
    split; [congruence | now exists (snd a)].
Qed.

(** ** The global map as places (lines 383-402) *)

(** The places of the global map hold the functions of the global map. *)
Lemma refs_rel (units : list SourceCodeFile.t) :
  dict_rel (fun r f => Project.deref units r = Some f)
           (Project.collect_refs units)
           (Project.collect_all_functions units).
Proof.
  unfold Project.collect_refs, Project.collect_all_functions.
  apply (dict_rel_fold_update _
           (fun iu => Project.unit_refs (fst iu) (snd iu))
           (fun unit => Dict.of_list FunctionDefinition.name
                                     (SourceCodeFile.func_defs unit)));
    [|constructor].
  eapply Forall2_impl; [|apply indexed_forall2]. cbn beta.
  intros [i unit0] unit [Hu Hi]. cbn [fst snd] in *. subst unit0.
  unfold Project.unit_refs, Dict.of_list.
  apply (dict_rel_fold _
           (fun jf => FunctionDefinition.name (snd jf))
           (fun jf => (i, fst jf))
           FunctionDefinition.name (fun f => f)); [|constructor].
  eapply Forall2_impl; [|apply indexed_forall2]. cbn beta.
  intros [j f0] f [Hf Hj]. cbn [fst snd] in *. subst f0.
  split; [reflexivity|]. unfold Project.deref. cbn [fst snd].
  now rewrite Hi.
Qed.

Lemma unit_refs_without (i : nat) (unit : SourceCodeFile.t) :
  Project.unit_refs i
    (SourceCodeFile.mk (SourceCodeFile.source_file unit)
       (map without_callsites (SourceCodeFile.func_defs unit)))
  = Project.unit_refs i unit.
Proof.
  unfold Project.unit_refs. cbn [SourceCodeFile.func_defs].
  rewrite indexed_map, fold_left_map_list. reflexivity.
Qed.

Lemma collect_refs_without (units : list SourceCodeFile.t) :
  Project.collect_refs (units_without_callsites units)
  = Project.collect_refs units.
Proof.
  unfold Project.collect_refs, units_without_callsites.
  rewrite indexed_map, fold_left_map_list.
  apply fold_left_ext_all. intros acc iu. cbn [fst snd].
  now rewrite unit_refs_without.
Qed.

Lemma collect_refs_same_units (units units' : list SourceCodeFile.t) :
  same_units units units' ->
  Project.collect_refs units = Project.collect_refs units'.
Proof.
  intros H. rewrite <- (collect_refs_without units), H.
  apply collect_refs_without.
Qed.

Lemma snapshot_rel (units : list SourceCodeFile.t)
      (all_refs : Dict.t Project.ref) (m : Dict.t FunctionDefinition.t) :
  dict_rel (fun r f => Project.deref units r = Some f) all_refs m ->
  Project.snapshot all_refs units = m.
Proof.
  unfold Project.snapshot.
  induction 1 as [|[k r] [k' f] d d' [Hk Hr] _ IH]; [reflexivity|].
  cbn [flat_map fst snd] in *. rewrite Hr, IH. now subst k'.
Qed.

(** The global map the functions see is the global map of the units as
    they are. *)
Lemma snapshot_collect (units0 units : list SourceCodeFile.t) :
  same_units units0 units ->
  Project.snapshot (Project.collect_refs units0) units
  = Project.collect_all_functions units.
Proof.
  intros H. rewrite (collect_refs_same_units _ _ H).
  apply snapshot_rel, refs_rel.
Qed.

Lemma collect_same_signatures (units units' : list SourceCodeFile.t) :
  same_units units units' ->
  same_signatures (Project.collect_all_functions units)
                  (Project.collect_all_functions units').
Proof.
  intros H.
  pose proof (refs_rel units) as H1. pose proof (refs_rel units') as H2.
  rewrite <- (collect_refs_same_units _ _ H) in H2.
  pose proof (dict_rel_join _ _ _ _ H1 _ H2) as H3.
  unfold same_signatures. eapply Forall2_impl; [|exact H3]. cbn beta.
  intros a b [Hk (r & Ha & Hb)]. split; [exact Hk|].
  destruct (deref_same_units _ _ _ _ H Ha) as (f' & Hf' & Hw).
  rewrite Hb in Hf'. injection Hf' as <-.
  apply (f_equal FunctionDefinition.return_type) in Hw. exact Hw.
Qed.

Lemma collect_in_name (units : list SourceCodeFile.t) (k : string)
      (f : FunctionDefinition.t) :
  In (k, f) (Project.collect_all_functions units) ->
  FunctionDefinition.name f = k.
Proof.
  intros Hin.
  assert (Hnd : NoDup (Dict.keys (Project.collect_all_functions units)))
    by (apply collect_keys_nodup; constructor).
  apply (dict_in_get _ _ _ Hnd) in Hin.
  unfold Project.collect_all_functions in Hin. rewrite collect_get in Hin.
  destruct (find _ _) as [g|] eqn:E; [|discriminate].
  injection Hin as ->. apply find_some in E as [_ E].
  now apply String.eqb_eq in E.
Qed.

Lemma refs_valid (units : list SourceCodeFile.t) (k : string)
      (r : Project.ref) :
  In (k, r) (Project.collect_refs units) ->
  exists f, Project.deref units r = Some f /\ FunctionDefinition.name f = k.
Proof.
  intros Hin. pose proof (refs_rel units) as Hrel.
  assert (H : exists f, Project.deref units r = Some f
                        /\ In (k, f) (Project.collect_all_functions units)).
  { induction Hrel as [|[k1 r1] [k2 f2] d d' [Hk Hr] _ IH];
      [contradiction|]. cbn [fst snd] in *. subst k2.
    destruct Hin as [[= -> ->]|Hin].
    - exists f2. split; [exact Hr | now left].
    - destruct (IH Hin) as (f & Hf & Hin'). exists f. split; [exact Hf|].
      now right. }
  destruct H as (f & Hf & Hin'). exists f. split; [exact Hf|].
  exact (collect_in_name _ _ _ Hin').
Qed.

Lemma refs_nodup (units : list SourceCodeFile.t) :
  NoDup (Dict.values (Project.collect_refs units)).
Proof.
  assert (Hk : NoDup (Dict.keys (Project.collect_refs units))).
  { rewrite (dict_rel_keys _ _ _ (refs_rel units)).
    apply collect_keys_nodup. constructor. }
  pose proof (refs_valid units) as Hv.
  unfold Dict.keys, Dict.values in *.
  induction (Project.collect_refs units) as [|[k r] d IH]; [constructor|].
  cbn [map fst snd] in *. inversion Hk as [|? ? Hnot Hk']; subst.
  constructor.
  - intros Hin. apply in_map_iff in Hin as ([k' r'] & Hr & Hin).
    cbn [snd] in Hr. subst r'. apply Hnot.
    destruct (Hv k r (or_introl eq_refl)) as (f & Hf & Hname).
    destruct (Hv k' r (or_intror Hin)) as (f' & Hf' & Hname').
    rewrite Hf in Hf'. injection Hf' as <-. rewrite <- Hname, Hname'.
    now apply (in_map fst) in Hin.
  - apply IH; [exact Hk'|]. intros k' r' Hin. apply Hv. now right.
Qed.

(** ** The last place of a name *)

Lemma first_some_concat {A B : Type} (g : A -> option B) (l1 l2 : list A) :
  first_some g (l1 ++ l2)
  = match first_some g l1 with
    | Some b => Some b
    | None => first_some g l2
    end.
Proof.
  induction l1 as [|x l1 IH]; [reflexivity|]. cbn [app first_some].
  destruct (g x); [reflexivity | exact IH].
Qed.

Lemma dict_get_update {V : Type} (d other : Dict.t V) (k : string) :
  NoDup (Dict.keys other) ->
  Dict.get (Dict.update d other) k
  = match Dict.get other k with
    | Some v => Some v
    | None => Dict.get d k
    end.
Proof.
  intros Hnd. unfold Dict.update. rewrite (dict_get_fold fst snd).
  destruct (find (fun x : string * V => String.eqb (fst x) k) (rev other))
    as [[k' v]|] eqn:E.
  - apply find_some in E as [Hin Hk]. cbn [fst snd] in *.
    apply String.eqb_eq in Hk. subst k'. apply in_rev in Hin.
    now rewrite (dict_in_get _ _ _ Hnd Hin).
  - destruct (Dict.get other k) as [v|] eqn:Eg; [|reflexivity].
    apply dict_get_some_in in Eg. apply in_rev in Eg.
    apply (find_none _ _ E) in Eg. cbn [fst] in Eg.
    now rewrite String.eqb_refl in Eg.
Qed.

Lemma dict_get_fold_update {A V : Type} (own : A -> Dict.t V) (l : list A) :
  (forall x, NoDup (Dict.keys (own x))) ->
  forall (d : Dict.t V) (k : string),
    Dict.get (fold_left (fun acc x => Dict.update acc (own x)) l d) k
    = match first_some (fun x => Dict.get (own x) k) (rev l) with
      | Some v => Some v
      | None => Dict.get d k
      end.
Proof.
  intros Hnd. induction l as [|x l IH]; intros d k; [reflexivity|].
  cbn [fold_left rev]. rewrite IH, first_some_concat.
  destruct (first_some _ (rev l)); [reflexivity|].
  cbn [first_some]. rewrite dict_get_update by apply Hnd.
  now destruct (Dict.get (own x) k).
Qed.

Lemma unit_refs_nodup (i : nat) (unit : SourceCodeFile.t) :
  NoDup (Dict.keys (Project.unit_refs i unit)).
Proof.
  unfold Project.unit_refs.
  apply (dict_keys_fold_nodup (V := Project.ref)
           (fun jf : nat * FunctionDefinition.t =>
              FunctionDefinition.name (snd jf))
           (fun jf => (i, fst jf))).
  constructor.
Qed.

Lemma unit_refs_get (i : nat) (unit : SourceCodeFile.t) (k : string) :
  Dict.get (Project.unit_refs i unit) k
  = match first_some
            (fun jf => if String.eqb (FunctionDefinition.name (snd jf)) k
                       then Some jf else None)
            (rev (Project.indexed (SourceCodeFile.func_defs unit))) with
    | Some jf => Some (i, fst jf)
    | None => None
    end.
Proof.
  unfold Project.unit_refs.
  rewrite (dict_get_fold (V := Project.ref)
             (fun jf : nat * FunctionDefinition.t =>
                FunctionDefinition.name (snd jf))
             (fun jf => (i, fst jf))).
  now rewrite find_first_some.
Qed.

(** The place the global map holds under a name is the last place of a
    function of that name. *)
Lemma refs_last (units : list SourceCodeFile.t) (k : string)
      (r r' : Project.ref) (f' : FunctionDefinition.t) :
  In (k, r) (Project.collect_refs units) ->
  Project.deref units r' = Some f' -> FunctionDefinition.name f' = k ->
  r' = r \/ place_before r' r.
Proof.
  intros Hin Hf' Hname.
  assert (Hnd : NoDup (Dict.keys (Project.collect_refs units))).
  { rewrite (dict_rel_keys _ _ _ (refs_rel units)).
    apply collect_keys_nodup. constructor. }
  apply (dict_in_get _ _ _ Hnd) in Hin.
  unfold Project.collect_refs in Hin.
  rewrite (dict_get_fold_update
             (fun iu => Project.unit_refs (fst iu) (snd iu))) in Hin
    by (intros x; apply unit_refs_nodup).
  cbn [Dict.get] in Hin.
  destruct (first_some _ (rev (Project.indexed units))) as [r0|] eqn:E;
    [|discriminate].
  injection Hin as ->.
  apply first_some_rev_indexed in E as (i & unit & Hi & Hget & Hlater).
  cbn [fst snd] in Hget.
  rewrite unit_refs_get in Hget.
  destruct (first_some _ (rev (Project.indexed (SourceCodeFile.func_defs unit))))
    as [jf|] eqn:Ej; [|discriminate].
  injection Hget as <-.
  apply first_some_rev_indexed in Ej as (j & f & Hj & Hp & Hlast).
  cbn [fst snd] in Hp.
  destruct (String.eqb (FunctionDefinition.name f) k); [|discriminate].
  injection Hp as <-. cbn [fst].
  destruct r' as [i' j']. unfold Project.deref in Hf'. cbn [fst snd] in Hf'.
  destruct (nth_error units i') as [unit'|] eqn:Hi'; [|discriminate].
  unfold place_before. cbn [fst snd].
  destruct (Nat.lt_trichotomy i' i) as [Hlt|[->|Hgt]].
  - right. now left.
  - rewrite Hi in Hi'. injection Hi' as <-.
    destruct (Nat.lt_trichotomy j' j) as [Hlt|[->|Hgt]].
    + right. right. now split.
    + now left.
    + exfalso. specialize (Hlast j' f' Hgt Hf'). cbn [snd] in Hlast.
      rewrite Hname, String.eqb_refl in Hlast. discriminate.
  - exfalso. specialize (Hlater i' unit' Hgt Hi'). cbn [fst snd] in Hlater.
    rewrite unit_refs_get in Hlater.
    destruct (first_some _ (rev (Project.indexed
                                   (SourceCodeFile.func_defs unit'))))
      eqn:En; [discriminate|].
    pose proof (first_some_none_all _ _ En (j', f')) as Hnone.
    cbn [snd] in Hnone. rewrite Hname, String.eqb_refl in Hnone.
    assert (Hin : In (j', f')
                     (rev (Project.indexed (SourceCodeFile.func_defs unit'))))
      by (apply -> in_rev; now apply indexed_nth).
    specialize (Hnone Hin). discriminate.
Qed.

(** ** What [extract_callsites] answers *)

Lemma extract_callsites_without
      (set_iter : list FunctionDefinition.raw_callsite
                  -> list FunctionDefinition.raw_callsite)
      (f f' : FunctionDefinition.t)
      (functions : Dict.t FunctionDefinition.t) :
  FunctionDefinition.extract_callsites set_iter f functions = Ok f' ->
  without_callsites f = without_callsites f'.
Proof.
  unfold FunctionDefinition.extract_callsites.
  destruct f as [root src ns sl el name cx ic an aty rt sg fu fd base det].
  cbn [FunctionDefinition.base_callsites].
  destruct base as [|b base].
  - destruct (FunctionDefinition.raw_callsites _ functions) as [raw| |];
      try discriminate.
    cbn [bind FunctionDefinition.detailed_callsites
         FunctionDefinition.set_base_callsites].
    destruct det as [|d det]; intros [= <-]; reflexivity.
  - cbn [bind FunctionDefinition.detailed_callsites].
    destruct det as [|d det]; intros [= <-]; reflexivity.
Qed.

(** A second call on the function a call left leaves it as it is. *)
Lemma extract_callsites_again
      (set_iter : list FunctionDefinition.raw_callsite
                  -> list FunctionDefinition.raw_callsite)
      (f f1 : FunctionDefinition.t)
      (functions functions' : Dict.t FunctionDefinition.t) :
  same_signatures functions functions' ->
  FunctionDefinition.extract_callsites set_iter f functions = Ok f1 ->
  FunctionDefinition.extract_callsites set_iter f1 functions' = Ok f1.
Proof.
  intros Hsame Hfirst.
  unfold FunctionDefinition.extract_callsites in Hfirst.
  destruct f as [root src ns sl el name cx ic an aty rt sg fu fd base det].
  cbn [FunctionDefinition.base_callsites] in Hfirst.
  destruct base as [|b base].
  - destruct (FunctionDefinition.raw_callsites _ functions) as [raw| |] eqn:Hraw;
      try discriminate.
    cbn in Hfirst.
    assert (Hraw' : forall self',
               FunctionDefinition.root self' = root ->
               FunctionDefinition.namespace_or_class self' = ns ->
               FunctionDefinition.raw_callsites self' functions' = Ok raw).
    { intros self' Hroot Hns. rewrite <- Hraw. symmetry.
      apply raw_callsites_signature;
        [now rewrite Hns | exact Hsame | now rewrite Hroot]. }
    match type of Hfirst with
    | context [map ?g (FunctionDefinition.sorted_by_offset ?l)] =>
        remember (map g (FunctionDefinition.sorted_by_offset l))
          as base1 eqn:Hbase1
    end.
    destruct det as [|d det]; injection Hfirst as <-;
      unfold FunctionDefinition.extract_callsites;
      cbn [FunctionDefinition.base_callsites
           FunctionDefinition.detailed_callsites
           FunctionDefinition.set_detailed_callsites
           FunctionDefinition.set_base_callsites];
      (destruct base1 as [|b1 base1];
       [ rewrite Hraw' by reflexivity; cbn; rewrite <- Hbase1; reflexivity
       | reflexivity ]).
  - cbn in Hfirst.
    destruct det as [|d det]; injection Hfirst as <-; reflexivity.
Qed.

Lemma attribute_error_bind {A B : Type} (m : result A) (k : A -> result B) :
  returns_or_attribute_error m ->
  (forall a, returns_or_attribute_error (k a)) ->
  returns_or_attribute_error (bind m k).
Proof. destruct m as [a|e|]; cbn; auto. Qed.

Lemma process_field_expr_outcome (self : FunctionDefinition.t)
      (functions : Dict.t FunctionDefinition.t) (field_expr : Node.t) :
  returns_or_attribute_error
    (FunctionDefinition._process_field_expr_return_type
       self functions field_expr).
Proof.
  induction field_expr as [n IH] using node_induction.
  rewrite process_field_expr_eq. apply attribute_error_bind.
  - now destruct (Node.child_by_field_name n "field").
  - intros name. apply attribute_error_bind.
    + induction IH as [|arg l Harg _ IHl]; cbn [FunctionDefinition.object_type_of];
        [exact I|].
      destruct (Node.has_field "argument" arg); [|exact IHl].
      destruct (String.eqb (Node.type arg) "field_expression").
      * apply attribute_error_bind; [exact Harg|]. now intros [? ?].
      * now destruct (String.eqb (Node.type arg) "this").
    + intros [[|c o]|]; try exact I. cbv zeta.
      now destruct (get_function_node _ functions false).
Qed.

Lemma process_invoke_outcome (self : FunctionDefinition.t)
      (functions : Dict.t FunctionDefinition.t) (expr : Node.t) :
  returns_or_attribute_error
    (FunctionDefinition._process_invoke self functions expr).
Proof.
  unfold FunctionDefinition._process_invoke.
  destruct (Node.child_by_field_name expr "function") as [func|]; [|exact I].
  apply attribute_error_bind.
  - destruct (mem (Node.type func) _); [exact I|].
    destruct (String.eqb (Node.type func) "field_expression"); [|exact I].
    apply attribute_error_bind; [apply process_field_expr_outcome|].
    now intros [? ?].
  - intros [callsites target_name]. now destruct (Str.nonempty target_name).
Qed.

Lemma process_callsites_outcome (self : FunctionDefinition.t)
      (functions : Dict.t FunctionDefinition.t) (stmt : Node.t) :
  returns_or_attribute_error
    (FunctionDefinition._process_callsites self functions stmt).
Proof.
  induction stmt as [n IH] using node_induction.
  rewrite process_callsites_eq. apply attribute_error_bind.
  - destruct (String.eqb (Node.type n) "call_expression");
      [apply process_invoke_outcome|].
    destruct (String.eqb (Node.type n) "new_expression"); [|exact I].
    now destruct (Node.child_by_field_name n "type").
  - induction IH as [|child l Hchild _ IHl]; intros callsites;
      cbn [FunctionDefinition.process_children]; [exact I|].
    apply attribute_error_bind; [exact Hchild|]. intros more. apply IHl.
Qed.

Lemma extract_callsites_outcome
      (set_iter : list FunctionDefinition.raw_callsite
                  -> list FunctionDefinition.raw_callsite)
      (f : FunctionDefinition.t) (functions : Dict.t FunctionDefinition.t) :
  returns_or_attribute_error
    (FunctionDefinition.extract_callsites set_iter f functions).
Proof.
  unfold FunctionDefinition.extract_callsites. apply attribute_error_bind.
  - destruct (FunctionDefinition.base_callsites f); [|exact I].
    apply attribute_error_bind; [|intros; exact I].
    unfold FunctionDefinition.raw_callsites.
    generalize (@nil FunctionDefinition.raw_callsite).
    induction (Node.children (FunctionDefinition.root f)) as [|child l IHl];
      intros callsites; cbn [foldM]; [exact I|].
    apply attribute_error_bind; [|intros; apply IHl].
    apply attribute_error_bind; [apply process_callsites_outcome|].
    intros; exact I.
  - intros self1. now destruct (FunctionDefinition.detailed_callsites self1).
Qed.

(** ** The metrics of a record *)

Lemma uses_count (self : Project.t) (target_name : string) :
  Project.calculate_function_uses self target_name
  = List.length
      (filter (fun f =>
                 existsb (fun callsite =>
                            String.eqb (fst callsite) target_name
                            || Str.endswith (fst callsite) target_name)
                         (FunctionDefinition.base_callsites f))
              (flat_map SourceCodeFile.func_defs
                        (Project.source_code_files self))).
Proof.
  unfold Project.calculate_function_uses.
  set (p := fun f => existsb _ (FunctionDefinition.base_callsites f)).
  change (fold_left
            (fun count unit =>
               fold_left (fun count f => if p f then count + 1 else count)
                         (SourceCodeFile.func_defs unit) count)
            (Project.source_code_files self) 0
          = List.length
              (filter p (flat_map SourceCodeFile.func_defs
                                  (Project.source_code_files self)))).
  assert (H : forall units n,
             fold_left
               (fun count unit =>
                  fold_left (fun count f => if p f then count + 1 else count)
                            (SourceCodeFile.func_defs unit) count)
               units n
             = n + List.length
                     (filter p (flat_map SourceCodeFile.func_defs units))).
  { induction units as [|unit units IH]; intros n; cbn [fold_left flat_map].
    - cbn. lia.
    - rewrite IH, count_fold, filter_app, length_app. lia. }
  now rewrite H.
Qed.

Lemma find_source_in_units (self : Project.t) (name : string)
      (target : SourceCodeFile.t * FunctionDefinition.t) :
  Project.find_source_with_func_def self name = Some target ->
  In (snd target)
     (flat_map SourceCodeFile.func_defs (Project.source_code_files self)).
Proof.
  intros H.
  assert (Hin : exists exact,
             In target (Project.sources_with_target self name exact)).
  { unfold Project.find_source_with_func_def in H.
    destruct (Project.sources_with_target self name true)
      as [|x [|y l]] eqn:E1.
    - destruct (Project.sources_with_target self name false)
        as [|x' [|y' l']] eqn:E2; try discriminate.
      injection H as <-. exists false. rewrite E2. now left.
    - injection H as <-. exists true. rewrite E1. now left.
    - destruct (Project.sources_with_target self name false)
        as [|x' [|y' l']] eqn:E2; try discriminate.
      injection H as <-. exists false. rewrite E2. now left. }
  destruct Hin as (exact & Hin).
  apply sources_with_target_in in Hin as [Hunit Hf].
  apply in_flat_map. now exists (fst target).
Qed.

(** In a project where one function at most has callsites, the depth of
    that function is 1 at most: its callees have depth 0. *)
Lemma single_caller_depth (self : Project.t) (f1 : FunctionDefinition.t)
      (fuel : nat) :
  (forall g,
      In g (flat_map SourceCodeFile.func_defs (Project.source_code_files self)) ->
      g = f1 \/ FunctionDefinition.base_callsites g = []) ->
  forall callsites d0 v0 d visited,
    d0 <= 1 -> In (FunctionDefinition.name f1) v0 ->
    foldM (Project.visit_callsite
             self (Project._recursive_function_depth (S fuel) self))
          callsites (d0, v0) = Ok (d, visited) ->
    d <= 1.
Proof.
  intros Hsingle.
  induction callsites as [|cs callsites IH]; intros d0 v0 d visited Hd0 Hv0 H;
    cbn [foldM] in H.
  - injection H as <- _. exact Hd0.
  - destruct (Project.visit_callsite _ _ (d0, v0) cs) as [[d1 v1]| |] eqn:E;
      cbn [bind] in H; try discriminate.
    apply (IH d1 v1 d visited); [| |exact H];
      unfold Project.visit_callsite in E;
      destruct (Project.find_source_with_func_def self (fst cs))
        as [target|] eqn:Et.
    + destruct (mem (FunctionDefinition.name (snd target)) v0) eqn:Em.
      * injection E as <- _. lia.
      * apply find_source_in_units in Et.
        destruct (Hsingle _ Et) as [Heq|Hbase].
        -- rewrite Heq in Em. apply mem_false in Em. contradiction.
        -- rewrite recursive_depth_step, Hbase in E. cbn [bind] in E.
           injection E as <- _. lia.
    + injection E as <- _. exact Hd0.
    + destruct (mem (FunctionDefinition.name (snd target)) v0) eqn:Em.
      * injection E as _ <-. exact Hv0.
      * apply find_source_in_units in Et.
        destruct (Hsingle _ Et) as [Heq|Hbase].
        -- rewrite Heq in Em. apply mem_false in Em. contradiction.
        -- rewrite recursive_depth_step, Hbase in E. cbn [bind] in E.
           injection E as _ <-. exact Hv0.
    + injection E as _ <-. apply in_or_app. now left.
Qed.

Lemma single_caller_depth_bound (self : Project.t)
      (f1 : FunctionDefinition.t) (fuel d : nat) :
  (forall g,
      In g (flat_map SourceCodeFile.func_defs (Project.source_code_files self)) ->
      g = f1 \/ FunctionDefinition.base_callsites g = []) ->
  Project.calculate_function_depth (S (S fuel)) self f1 = Ok d ->
  d <= 1.
Proof.
  intros Hsingle H. unfold Project.calculate_function_depth in H.
  destruct (Project._recursive_function_depth (S (S fuel)) self f1 [])
    as [[d' visited]| |] eqn:E; cbn [bind] in H; try discriminate.
  injection H as ->. rewrite recursive_depth_step in E.
  destruct (FunctionDefinition.base_callsites f1) as [|cs callsites] eqn:Eb.
  - injection E as <- _. lia.
  - apply (single_caller_depth self f1 fuel Hsingle) in E; [exact E | lia|].
    cbn [app]. now left.
Qed.

Lemma depth_fuel_enough (self : Project.t) (f : FunctionDefinition.t) :
  exists d,
    Project.calculate_function_depth
      (Project.depth_fuel (Project.source_code_files self)) self f = Ok d
    /\ forall fuel,
         List.length (all_names self) < fuel ->
         Project.calculate_function_depth fuel self f = Ok d.
Proof.
  destruct (calculate_function_depth_total self f) as (d & _ & _ & _ & H).
  exists d. split; [|exact H]. apply H.
  unfold Project.depth_fuel, all_names. rewrite length_map. lia.
Qed.

Section FuncDict.

Variable reached_iter : list string -> list string.

Lemma func_dict_of_ok (self : Project.t) (f : FunctionDefinition.t) :
  exists e, Project.func_dict_of reached_iter self f = Ok e.
Proof.
  destruct (depth_fuel_enough self f) as (d & Hd & _).
  unfold Project.func_dict_of. rewrite Hd. cbn [bind]. eauto.
Qed.

Lemma func_dict_of_fields (self : Project.t) (f : FunctionDefinition.t)
      (e : Project.func_dict) :
  Project.func_dict_of reached_iter self f = Ok e ->
  Project.functionName e = FunctionDefinition.name f
  /\ Project.functionUses e
     = Project.calculate_function_uses self (FunctionDefinition.name f)
  /\ (forall fuel,
         List.length (all_names self) < fuel ->
         Project.calculate_function_depth fuel self f
         = Ok (Project.functionDepth e))
  /\ Project.Callsites e = FunctionDefinition.detailed_callsites f
  /\ Project.functionsReached e
     = reached_iter (map fst (FunctionDefinition.base_callsites f))
  /\ Project.argCount e = List.length (FunctionDefinition.arg_types f).
Proof.
  destruct (depth_fuel_enough self f) as (d & Hd & Hall).
  unfold Project.func_dict_of. rewrite Hd. cbn [bind].
  intros [= <-]. cbn. repeat split; try reflexivity. exact Hall.
Qed.

End FuncDict.

(** ** The loop over the global map (lines 405-439) *)

Lemma same_units_trans (a b c : list SourceCodeFile.t) :
  same_units a b -> same_units b c -> same_units a c.
Proof. unfold same_units. congruence. Qed.

Lemma same_units_sym (a b : list SourceCodeFile.t) :
  same_units a b -> same_units b a.
Proof. unfold same_units. congruence. Qed.

Section DumpFunctions.

Variable set_iter : list FunctionDefinition.raw_callsite
                    -> list FunctionDefinition.raw_callsite.
Variable reached_iter : list string -> list string.
Variable units0 : list SourceCodeFile.t.

Lemma dump_functions_step (place : Project.ref) (places : list Project.ref)
      (units : list SourceCodeFile.t) :
  Project.dump_functions set_iter reached_iter (place :: places)
                         (Project.collect_refs units0) units
  = match Project.deref units place with
    | None => None
    | Some func =>
        match FunctionDefinition.extract_callsites
                set_iter func
                (Project.snapshot (Project.collect_refs units0) units) with
        | Ok func =>
            match Project.func_dict_of
                    reached_iter
                    (Project.mk
                       (Project.assign units place func)
                       (Some (Project.snapshot
                                (Project.collect_refs units0)
                                (Project.assign units place func))))
                    func with
            | Ok entry =>
                match Project.dump_functions
                        set_iter reached_iter places
                        (Project.collect_refs units0)
                        (Project.assign units place func) with
                | Some (Ok (units', func_list)) =>
                    Some (Ok (units', entry :: func_list))
                | other => other
                end
            | Raise e => Some (Raise e)
            | OutOfFuel => Some OutOfFuel
            end
        | Raise e => Some (Raise e)
        | OutOfFuel => Some OutOfFuel
        end
    end.
Proof. reflexivity. Qed.

(** The loop ends: with the units and the records, or with the
    [AttributeError] of a callsite extraction. *)
Lemma dump_functions_runs (places : list Project.ref) :
  forall units,
    (forall r, In r places -> exists f, Project.deref units0 r = Some f) ->
    same_units units0 units ->
    (exists units' func_list,
        Project.dump_functions set_iter reached_iter places
                               (Project.collect_refs units0) units
        = Some (Ok (units', func_list)))
    \/ Project.dump_functions set_iter reached_iter places
                              (Project.collect_refs units0) units
       = Some (Raise AttributeError).
Proof.
  induction places as [|r places IH]; intros units Hvalid Hsame.
  - left. now exists units, [].
  - rewrite dump_functions_step.
    destruct (Hvalid r (or_introl eq_refl)) as (f0 & Hf0).
    destruct (deref_same_units _ _ _ _ Hsame Hf0) as (f & Hf & Hw).
    rewrite Hf.
    pose proof (extract_callsites_outcome
                  set_iter f
                  (Project.snapshot (Project.collect_refs units0) units))
      as Hout.
    destruct (FunctionDefinition.extract_callsites set_iter f _)
      as [f1|e|] eqn:Hex.
    + match goal with
      | |- context [Project.func_dict_of ?ri ?s ?g] =>
          destruct (func_dict_of_ok ri s g) as (entry & ->)
      end.
      destruct (IH (Project.assign units r f1)) as [(units' & l & ->)| ->].
      * intros r' Hr'. apply Hvalid. now right.
      * apply (same_units_trans _ units); [exact Hsame|].
        apply (assign_same_units _ _ f); [exact Hf|].
        exact (extract_callsites_without _ _ _ _ Hex).
      * left. eauto.
      * now right.
    + destruct e; [now right | destruct Hout].
    + destruct Hout.
Qed.

(** What the loop leaves when it returns. *)
Lemma dump_functions_ok (places : list Project.ref) :
  forall units units' func_list,
    NoDup places ->
    same_units units0 units ->
    Project.dump_functions set_iter reached_iter places
                           (Project.collect_refs units0) units
    = Some (Ok (units', func_list)) ->
    same_units units0 units'
    /\ (forall r, ~ In r places ->
                  Project.deref units' r = Project.deref units r)
    /\ Forall2
         (fun r entry =>
            exists f self,
              Project.deref units' r = Some f
              /\ Project.func_dict_of reached_iter self f = Ok entry
              /\ FunctionDefinition.extract_callsites
                   set_iter f (Project.collect_all_functions units')
                 = Ok f)
         places func_list.
Proof.
  induction places as [|r places IH]; intros units units' func_list Hnd Hsame H.
  - injection H as <- <-. split; [exact Hsame|]. split; [reflexivity|].
    constructor.
  - rewrite dump_functions_step in H.
    destruct (Project.deref units r) as [f|] eqn:Hf; [|discriminate].
    destruct (FunctionDefinition.extract_callsites set_iter f _)
      as [f1|e|] eqn:Hex; try discriminate.
    destruct (Project.func_dict_of _ _ f1) as [entry|e|] eqn:He;
      try discriminate.
    destruct (Project.dump_functions _ _ places _ _)
      as [[[units1 l]|e|]|] eqn:Hrest; try discriminate.
    injection H as <- <-.
    inversion Hnd as [|? ? Hnot Hnd']; subst.
    assert (Hsame1 : same_units units (Project.assign units r f1)).
    { apply (assign_same_units _ _ f); [exact Hf|].
      exact (extract_callsites_without _ _ _ _ Hex). }
    destruct (IH _ _ _ Hnd' (same_units_trans _ _ _ Hsame Hsame1) Hrest)
      as (Hsame' & Hother & Hall).
    split; [exact Hsame'|]. split.
    + intros r' Hr'. rewrite Hother by (intros Hin; apply Hr'; now right).
      apply deref_assign_ne. intros ->. apply Hr'. now left.
    + constructor; [|exact Hall].
      exists f1. eexists. split; [|split; [exact He|]].
      * rewrite (Hother r Hnot). exact (deref_assign_eq _ _ _ _ Hf).
      * rewrite (snapshot_collect _ _ Hsame) in Hex.
        apply (extract_callsites_again set_iter f f1 _ _
                 (collect_same_signatures _ _
                    (same_units_trans _ _ _ (same_units_sym _ _ Hsame) Hsame'))
                 Hex).
Qed.

(** On a project whose functions all have their callsites, the loop
    changes nothing, and the records are those of the project. *)
Lemma dump_functions_again (places : list Project.ref) (all_refs : Dict.t Project.ref)
      (units : list SourceCodeFile.t) :
  (forall r, In r places ->
      exists f, Project.deref units r = Some f
                /\ FunctionDefinition.extract_callsites
                     set_iter f (Project.snapshot all_refs units) = Ok f) ->
  exists func_list,
    Project.dump_functions set_iter reached_iter places all_refs units
    = Some (Ok (units, func_list))
    /\ Forall2
         (fun r entry =>
            exists f,
              Project.deref units r = Some f
              /\ Project.func_dict_of
                   reached_iter
                   (Project.mk units (Some (Project.snapshot all_refs units)))
                   f = Ok entry)
         places func_list.
Proof.
  induction places as [|r places IH]; intros Hall.
  - exists []. split; [reflexivity | constructor].
  - destruct (Hall r (or_introl eq_refl)) as (f & Hf & Hex).
    destruct IH as (l & Hl & Hrec); [intros r' Hr'; apply Hall; now right|].
    destruct (func_dict_of_ok
                reached_iter
                (Project.mk units (Some (Project.snapshot all_refs units))) f)
      as (entry & He).
    exists (entry :: l). split.
    + cbn [Project.dump_functions]. rewrite Hf, Hex. cbv zeta.
      rewrite (assign_same _ _ _ Hf), He, Hl. reflexivity.
    + constructor; [|exact Hrec]. now exists f.
Qed.

(** The last record is computed on the units the loop leaves. *)
Lemma dump_functions_last (places : list Project.ref) :
  forall units units' func_list r all_refs,
    Project.dump_functions set_iter reached_iter (places ++ [r])
                           all_refs units
    = Some (Ok (units', func_list)) ->
    exists l entry f,
      func_list = (l ++ [entry])%list
      /\ Project.deref units' r = Some f
      /\ Project.func_dict_of
           reached_iter
           (Project.mk units' (Some (Project.snapshot all_refs units')))
           f = Ok entry.
Proof.
  induction places as [|p places IH]; intros units units' func_list r all_refs H;
    cbn [app Project.dump_functions] in H;
    (destruct (Project.deref units _) as [f|] eqn:Hf; [|discriminate]);
    (destruct (FunctionDefinition.extract_callsites set_iter f _)
      as [f1|e|] eqn:Hex; try discriminate);
    cbv zeta in H;
    (destruct (Project.func_dict_of _ _ f1) as [entry|e|] eqn:He;
      try discriminate).
  - cbn [Project.dump_functions] in H. injection H as <- <-.
    exists [], entry, f1. split; [reflexivity|]. split; [|exact He].
    exact (deref_assign_eq _ _ _ _ Hf).
  - destruct (Project.dump_functions _ _ (places ++ [r])%list _ _)
      as [[[units1 l]|e|]|] eqn:Hrest; try discriminate.
    injection H as <- <-.
    destruct (IH _ _ _ _ _ Hrest) as (l' & entry' & f' & -> & Hf' & He').
    exists (entry :: l'), entry', f'. split; [reflexivity|]. now split.
Qed.

End DumpFunctions.

(** ** The pass as a whole *)

Lemma Forall2_with_in {A B : Type} (Q : A -> B -> Prop)
      (l : list A) (l' : list B) :
  Forall2 Q l l' -> Forall2 (fun x y => Q x y /\ In x l /\ In y l') l l'.
Proof.
  induction 1 as [|x y l l' Hxy _ IH]; constructor.
  - split; [exact Hxy|]. split; now left.
  - eapply Forall2_impl; [|exact IH]. cbn beta.
    intros a b (Hq & Ha & Hb). split; [exact Hq|]. split; now right.
Qed.

Lemma Forall2_in_l {A B : Type} (Q : A -> B -> Prop)
      (l : list A) (l' : list B) (x : A) :
  Forall2 Q l l' -> In x l -> exists y, In y l' /\ Q x y.
Proof.
  induction 1 as [|a b l l' Hab _ IH]; [contradiction|].
  intros [<-|Hin].
  - exists b. split; [now left | exact Hab].
  - destruct (IH Hin) as (y & Hy & Hq). exists y. split; [now right | exact Hq].
Qed.

Lemma dict_rel_values {V W E : Type} (R : V -> W -> Prop) (P : V -> E -> Prop)
      (d : Dict.t V) (d' : Dict.t W) :
  dict_rel R d d' ->
  forall l, Forall2 P (Dict.values d) l ->
            Forall2 (fun item e => exists v, R v (snd item) /\ P v e) d' l.
Proof.
  unfold Dict.values.
  induction 1 as [|a b d d' [_ Hr] _ IH]; intros l Hl; inversion Hl; subst;
    constructor.
  - now exists (snd a).
  - now apply IH.
Qed.

Lemma dict_rel_in {V W : Type} (R : V -> W -> Prop)
      (d : Dict.t V) (d' : Dict.t W) (k : string) (v : V) :
  dict_rel R d d' -> In (k, v) d -> exists w, In (k, w) d' /\ R v w.
Proof.
  intros Hrel Hin.
  destruct (Forall2_in_l _ _ _ _ Hrel Hin) as ([k' w] & Hw & Hk & Hr).
  cbn [fst snd] in *. subst k'. now exists w.
Qed.

Lemma sources_names (units : list SourceCodeFile.t) :
  List.concat
    (map snd
         (map (fun source_code =>
                 (SourceCodeFile.source_file source_code,
                  map FunctionDefinition.name
                      (SourceCodeFile.func_defs source_code)))
              units))
  = map FunctionDefinition.name (flat_map SourceCodeFile.func_defs units).
Proof.
  induction units as [|unit units IH]; [reflexivity|].
  cbn [map List.concat flat_map snd]. now rewrite map_app, IH.
Qed.

Section WholePass.

Variable set_iter : list FunctionDefinition.raw_callsite
                    -> list FunctionDefinition.raw_callsite.
Variable reached_iter : list string -> list string.

Lemma dump_module_logic_inv (self after : Project.t)
      (report : Project.report) :
  Project.dump_module_logic set_iter reached_iter self
  = Some (Ok (after, report)) ->
  let units := Project.source_code_files self in
  exists func_list,
    Project.dump_functions set_iter reached_iter
      (Dict.values (Project.collect_refs units))
      (Project.collect_refs units) units
    = Some (Ok (Project.source_code_files after, func_list))
    /\ same_units units (Project.source_code_files after)
    /\ Project.all_functions after
       = Some (Project.collect_all_functions (Project.source_code_files after))
    /\ Project.sources report
       = map (fun source_code =>
                (SourceCodeFile.source_file source_code,
                 map FunctionDefinition.name
                     (SourceCodeFile.func_defs source_code)))
             units
    /\ Project.all_functions_elements report
       = match func_list with
         | [] => None
         | _ :: _ => Some func_list
         end.
Proof.
  intros H units. unfold Project.dump_module_logic in H. fold units in H.
  destruct (Project.dump_functions _ _ _ _ units)
    as [[[units' func_list]|e|]|] eqn:E; try discriminate.
  injection H as <- <-. cbn [Project.source_code_files Project.all_functions
                             Project.sources Project.all_functions_elements].
  exists func_list.
  destruct (dump_functions_ok set_iter reached_iter units _ _ _ _
              (refs_nodup units) eq_refl E) as (Hsame & _).
  repeat split; try reflexivity; try exact Hsame.
  now rewrite (snapshot_collect _ _ Hsame).
Qed.

(** The records of the report, one for each entry of the global map the
    pass leaves. *)
Lemma dump_module_logic_records (self after : Project.t)
      (report : Project.report) (func_list : list Project.func_dict) :
  Project.dump_functions set_iter reached_iter
    (Dict.values (Project.collect_refs (Project.source_code_files self)))
    (Project.collect_refs (Project.source_code_files self))
    (Project.source_code_files self)
  = Some (Ok (Project.source_code_files after, func_list)) ->
  Forall2
    (fun item entry =>
       (exists self',
           Project.func_dict_of reached_iter self' (snd item) = Ok entry)
       /\ FunctionDefinition.extract_callsites
            set_iter (snd item)
            (Project.collect_all_functions (Project.source_code_files after))
          = Ok (snd item)
       /\ FunctionDefinition.name (snd item) = fst item)
    (Project.collect_all_functions (Project.source_code_files after))
    func_list.
Proof.
  intros E.
  destruct (dump_functions_ok set_iter reached_iter _ _ _ _ _
              (refs_nodup _) eq_refl E) as (Hsame & _ & Hall).
  pose proof (refs_rel (Project.source_code_files after)) as Hrel.
  rewrite <- (collect_refs_same_units _ _ Hsame) in Hrel.
  pose proof (dict_rel_values _ _ _ _ Hrel _ Hall) as H.
  apply Forall2_with_in in H.
  eapply Forall2_impl; [|exact H]. cbn beta.
  intros [k f] entry ((r & Hr & f' & self' & Hf' & He & Hex) & Hin & _).
  cbn [fst snd] in *. rewrite Hr in Hf'. injection Hf' as <-.
  split; [now exists self'|]. split; [exact Hex|].
  exact (collect_in_name _ _ _ Hin).
Qed.

End WholePass.

(** The loops of the pass end on every project, also on one whose
    functions call each other in a cycle: the model answers a report or
    the [AttributeError] of a callsite extraction.  What lies outside the
    model, the decoding of the node text and the write of the report
    (lines 445-446), can fail in other ways. *)
Lemma dump_module_logic_ends
        (set_iter : list FunctionDefinition.raw_callsite
                    -> list FunctionDefinition.raw_callsite)
        (reached_iter : list string -> list string) (self : Project.t) :
  (exists after report,
      Project.dump_module_logic set_iter reached_iter self
      = Some (Ok (after, report)))
  \/ Project.dump_module_logic set_iter reached_iter self
     = Some (Raise AttributeError).
Proof.
  unfold Project.dump_module_logic.
  destruct (dump_functions_runs
              set_iter reached_iter (Project.source_code_files self)
              (Dict.values (Project.collect_refs (Project.source_code_files self)))
              (Project.source_code_files self))
    as [(units' & func_list & ->)| ->].
  - intros r Hr. apply in_map_iff in Hr as ([k r'] & <- & Hin).
    destruct (refs_valid _ _ _ Hin) as (f & Hf & _). now exists f.
  - reflexivity.
  - left. eauto.
  - now right.
Qed.

(** X23: the records of a report are those of the global map, in its
    order: one record for each simple name, while [sources] names every
    function of every unit, also those a later function of the same name
    has replaced in the map.  A record holds the callsites of the function
    the map holds under its name when the pass is over. *)
Theorem report_follows_global_map
        (set_iter : list FunctionDefinition.raw_callsite
                    -> list FunctionDefinition.raw_callsite)
        (reached_iter : list string -> list string)
        (self after : Project.t) (report : Project.report) :
  Project.dump_module_logic set_iter reached_iter self
  = Some (Ok (after, report)) ->
  let elements :=
    match Project.all_functions_elements report with
    | Some func_list => func_list
    | None => []
    end in
  map Project.functionName elements
  = Dict.keys (Project.collect_all_functions (Project.source_code_files self))
  /\ NoDup (map Project.functionName elements)
  /\ List.concat (map snd (Project.sources report)) = all_names self
  /\ Forall2
       (fun item entry =>
          Project.functionName entry = fst item
          /\ Project.Callsites entry
             = FunctionDefinition.detailed_callsites (snd item)
          /\ Project.functionsReached entry
             = reached_iter
                 (map fst (FunctionDefinition.base_callsites (snd item))))
       (Project.collect_all_functions (Project.source_code_files after))
       elements.
Proof.
  intros H elements.
  destruct (dump_module_logic_inv _ _ _ _ _ H)
    as (func_list & E & Hsame & _ & Hsources & Helements).
  assert (Hel : elements = func_list).
  { unfold elements. rewrite Helements. now destruct func_list. }
  rewrite Hel. clear elements Hel.
  pose proof (dump_module_logic_records _ _ _ _ report _ E) as Hrec.
  assert (Hall : Forall2
                   (fun item entry =>
                      Project.functionName entry = fst item
                      /\ Project.Callsites entry
                         = FunctionDefinition.detailed_callsites (snd item)
                      /\ Project.functionsReached entry
                         = reached_iter
                             (map fst (FunctionDefinition.base_callsites
                                         (snd item))))
                   (Project.collect_all_functions
                      (Project.source_code_files after))
                   func_list).
  { eapply Forall2_impl; [|exact Hrec]. cbn beta.
    intros item entry ((self' & He) & _ & Hname).
    apply func_dict_of_fields in He as (Hn & _ & _ & Hc & Hr & _).
    split; [congruence|]. now split. }
  assert (Hkeys : map Project.functionName func_list
                  = Dict.keys (Project.collect_all_functions
                                 (Project.source_code_files self))).
  { pose proof (collect_same_signatures _ _ Hsame) as Hsig.
    unfold Dict.keys. clear - Hall Hsig. unfold same_signatures in Hsig.
    revert func_list Hall.
    induction Hsig as [|a b m m' [Hk _] _ IH]; intros l Hl; inversion Hl; subst.
    - reflexivity.
    - cbn [map]. f_equal; [|now apply IH].
      match goal with
      | Hx : _ /\ _ |- _ => destruct Hx as [-> _]
      end. now symmetry. }
  split; [exact Hkeys|]. split; [|split; [|exact Hall]].
  - rewrite Hkeys. apply collect_keys_nodup. constructor.
  - rewrite Hsources. apply sources_names.
Qed.

Lemma report_follows_global_map_witness :
  Project.dump_module_logic FunctionDefinition.set_iter_first
                            Samples.reached_first Samples.overload_project
  = Some (Ok (Samples.overload_after, Samples.overload_report))
  /\ map Project.functionName
         [ Samples.chain_record (Samples.chain_f true) 0 1 ["g"];
           Samples.chain_record (Samples.chain_function "g" [] [] []) 1 0 [] ]
     = ["f"; "g"]
  /\ List.concat (map snd (Project.sources Samples.overload_report))
     = ["f"; "g"; "g"].
Proof.
  pose proof (report_follows_global_map
                FunctionDefinition.set_iter_first Samples.reached_first
                Samples.overload_project Samples.overload_after
                Samples.overload_report eq_refl) as (H1 & _ & H3 & _).
  split; [reflexivity|]. split; [exact H1 | exact H3].
Defined.

(** X24: when the pass returns, every function is what it was but for its
    callsite fields, the global map of the project is the global map of
    its units, and every function of that map has its callsites: a
    further call of [extract_callsites] leaves it as it is. *)
Theorem pass_extracts_mapped_functions
        (set_iter : list FunctionDefinition.raw_callsite
                    -> list FunctionDefinition.raw_callsite)
        (reached_iter : list string -> list string)
        (self after : Project.t) (report : Project.report) :
  Project.dump_module_logic set_iter reached_iter self
  = Some (Ok (after, report)) ->
  let all_functions :=
    Project.collect_all_functions (Project.source_code_files after) in
  same_units (Project.source_code_files self) (Project.source_code_files after)
  /\ Project.all_functions after = Some all_functions
  /\ forall name f,
       In (name, f) all_functions ->
       FunctionDefinition.extract_callsites set_iter f all_functions = Ok f.
Proof.
  intros H all_functions.
  destruct (dump_module_logic_inv _ _ _ _ _ H)
    as (func_list & E & Hsame & Hmap & _).
  split; [exact Hsame|]. split; [exact Hmap|].
  intros name f Hin.
  pose proof (dump_module_logic_records _ _ _ _ report _ E) as Hrec.
  destruct (Forall2_in_l _ _ _ _ Hrec Hin) as (entry & _ & _ & Hex & _).
  exact Hex.
Qed.

Lemma pass_extracts_mapped_functions_witness :
  Project.dump_module_logic FunctionDefinition.set_iter_first
                            Samples.reached_first Samples.chain_project
  = Some (Ok (Samples.chain_after, Samples.chain_report 1))
  /\ FunctionDefinition.extract_callsites
       FunctionDefinition.set_iter_first (Samples.chain_g true)
       [("f", Samples.chain_f true); ("g", Samples.chain_g true);
        ("h", Samples.chain_h)]
     = Ok (Samples.chain_g true).
Proof.
  split; [reflexivity|].
  pose proof (pass_extracts_mapped_functions
                FunctionDefinition.set_iter_first Samples.reached_first
                Samples.chain_project Samples.chain_after
                (Samples.chain_report 1) eq_refl) as (_ & _ & H).
  apply (H "g" (Samples.chain_g true)). right. now left.
Defined.

(** X25: a function that a later function of the same simple name follows,
    in its unit or in a later unit, is not in the global map, and the
    pass leaves it as it is: its callsites are never extracted. *)
Theorem shadowed_function_untouched
        (set_iter : list FunctionDefinition.raw_callsite
                    -> list FunctionDefinition.raw_callsite)
        (reached_iter : list string -> list string)
        (self after : Project.t) (report : Project.report)
        (place later : Project.ref) (f g : FunctionDefinition.t) :
  Project.dump_module_logic set_iter reached_iter self
  = Some (Ok (after, report)) ->
  Project.deref (Project.source_code_files self) place = Some f ->
  Project.deref (Project.source_code_files self) later = Some g ->
  FunctionDefinition.name g = FunctionDefinition.name f ->
  place_before place later ->
  Project.deref (Project.source_code_files after) place = Some f.
Proof.
  intros H Hf Hg Hname Hbefore.
  destruct (dump_module_logic_inv _ _ _ _ _ H) as (func_list & E & _).
  destruct (dump_functions_ok set_iter reached_iter _ _ _ _ _
              (refs_nodup _) eq_refl E) as (_ & Hother & _).
  rewrite Hother; [exact Hf|].
  intros Hin. apply in_map_iff in Hin as ([k r] & Hr & Hin).
  cbn [snd] in Hr. subst r.
  destruct (refs_valid _ _ _ Hin) as (f' & Hf' & Hk).
  rewrite Hf in Hf'. injection Hf' as <-.
  destruct (refs_last _ _ _ _ _ Hin Hg (eq_trans Hname Hk)) as [->|Hback];
    unfold place_before in *; lia.
Qed.

Lemma shadowed_function_untouched_witness :
  Project.dump_module_logic FunctionDefinition.set_iter_first
                            Samples.reached_first Samples.overload_project
  = Some (Ok (Samples.overload_after, Samples.overload_report))
  /\ FunctionDefinition.raw_callsites (Samples.chain_g false) []
     = Ok [("h", 12, 1)]
  /\ Project.deref (Project.source_code_files Samples.overload_after) (0, 1)
     = Some (Samples.chain_g false).
Proof.
  split; [reflexivity|]. split; [reflexivity|].
  apply (shadowed_function_untouched
           FunctionDefinition.set_iter_first Samples.reached_first
           Samples.overload_project Samples.overload_after
           Samples.overload_report (0, 1) (0, 2)
           (Samples.chain_g false) (Samples.chain_function "g" [] [] [])
           eq_refl eq_refl eq_refl eq_refl).
  right. cbn. lia.
Defined.

(** X26: the depth and the use count of a record are those of the moment
    the record is made, when the functions later in the map have no
    callsites yet.  On a project whose functions were just constructed,
    the first record has depth 1 at most and use count 1 at most, however
    long the call chains from its function are. *)
Theorem first_record_metrics
        (set_iter : list FunctionDefinition.raw_callsite
                    -> list FunctionDefinition.raw_callsite)
        (reached_iter : list string -> list string)
        (self after : Project.t) (report : Project.report)
        (entry : Project.func_dict) (func_list : list Project.func_dict) :
  (forall f,
      In f (flat_map SourceCodeFile.func_defs (Project.source_code_files self)) ->
      FunctionDefinition.base_callsites f = []) ->
  Project.dump_module_logic set_iter reached_iter self
  = Some (Ok (after, report)) ->
  Project.all_functions_elements report = Some (entry :: func_list) ->
  Project.functionDepth entry <= 1 /\ Project.functionUses entry <= 1.
Proof.
  intros Hfresh H Hel.
  destruct (dump_module_logic_inv _ _ _ _ _ H)
    as (l & E & _ & _ & _ & Helements).
  rewrite Hel in Helements.
  destruct (Dict.values (Project.collect_refs (Project.source_code_files self)))
    as [|r places].
  { injection E as _ <-. discriminate. }
  rewrite dump_functions_step in E.
  destruct (Project.deref _ r) as [f|] eqn:Hf; [|discriminate].
  destruct (FunctionDefinition.extract_callsites set_iter f _)
    as [f1|e|] eqn:Hex; try discriminate.
  destruct (Project.func_dict_of _ _ f1) as [entry1|e|] eqn:He;
    try discriminate.
  destruct (Project.dump_functions _ _ places _ _)
    as [[[units1 l1]|e|]|] eqn:Hrest; try discriminate.
  injection E as _ <-. injection Helements as ->.
  apply func_dict_of_fields in He as (_ & Huses & Hdepth & _).
  cbn [Project.source_code_files] in *.
  split.
  - match type of Hdepth with
    | forall fuel, List.length (all_names ?s) < fuel -> _ =>
        apply (single_caller_depth_bound s f1 (List.length (all_names s)));
          [|apply Hdepth; lia]
    end.
    intros g Hg. cbn [Project.source_code_files] in Hg.
    apply assign_in in Hg as [->|Hg]; [now left | right; now apply Hfresh].
  - rewrite Huses, uses_count. cbn [Project.source_code_files].
    apply assign_filter_bound. intros g Hg. now rewrite (Hfresh g Hg).
Qed.

Lemma first_record_metrics_witness :
  Project.dump_module_logic FunctionDefinition.set_iter_first
                            Samples.reached_first Samples.chain_project
  = Some (Ok (Samples.chain_after, Samples.chain_report 1))
  /\ Project.calculate_function_depth 4 Samples.chain_after
                                      (Samples.chain_f true) = Ok 2
  /\ Project.functionDepth
       (Samples.chain_record (Samples.chain_f true) 0 1 ["g"]) <= 1
  /\ Project.functionUses
       (Samples.chain_record (Samples.chain_f true) 0 1 ["g"]) <= 1.
Proof.
  split; [reflexivity|]. split; [reflexivity|].
  apply (first_record_metrics
           FunctionDefinition.set_iter_first Samples.reached_first
           Samples.chain_project Samples.chain_after (Samples.chain_report 1)
           (Samples.chain_record (Samples.chain_f true) 0 1 ["g"])
           [ Samples.chain_record (Samples.chain_g true) 1 1 ["h"];
             Samples.chain_record Samples.chain_h 1 0 [] ]).
  - intros f [<-|[<-|[<-|[]]]]; reflexivity.
  - reflexivity.
  - reflexivity.
Defined.

(** X27: the last record of a report is made when every function of the
    map has its callsites: its depth and its use count are those a query
    on the project the pass leaves answers. *)
Theorem last_record_metrics
        (set_iter : list FunctionDefinition.raw_callsite
                    -> list FunctionDefinition.raw_callsite)
        (reached_iter : list string -> list string)
        (self after : Project.t) (report : Project.report)
        (func_list : list Project.func_dict) (entry : Project.func_dict) :
  Project.dump_module_logic set_iter reached_iter self
  = Some (Ok (after, report)) ->
  Project.all_functions_elements report = Some (func_list ++ [entry])%list ->
  exists all_functions f,
    Project.all_functions after = Some all_functions
    /\ Dict.get all_functions (Project.functionName entry) = Some f
    /\ Project.functionUses entry
       = Project.calculate_function_uses after (Project.functionName entry)
    /\ forall fuel,
         List.length (all_names after) < fuel ->
         Project.calculate_function_depth fuel after f
         = Ok (Project.functionDepth entry).
Proof.
  intros H Hel.
  destruct (dump_module_logic_inv _ _ _ _ _ H)
    as (l & E & Hsame & Hmap & _ & Helements).
  rewrite Hel in Helements.
  assert (Hl : l = (func_list ++ [entry])%list).
  { destruct l; [discriminate | now injection Helements]. }
  clear Helements. subst l.
  set (units := Project.source_code_files self) in *.
  set (units' := Project.source_code_files after) in *.
  destruct (Dict.values (Project.collect_refs units)) as [|p places] eqn:Ev.
  { injection E as _ E. now destruct func_list. }
  destruct (@exists_last _ (p :: places) ltac:(discriminate))
    as (places0 & r0 & Hlast).
  rewrite Hlast in E, Ev. clear Hlast p places.
  destruct (dump_functions_last set_iter reached_iter _ _ _ _ _ _ E)
    as (l' & entry' & f & Hl & Hf & He).
  apply app_inj_tail in Hl as [_ <-].
  assert (Hafter : after
                   = Project.mk units'
                       (Some (Project.snapshot (Project.collect_refs units)
                                               units'))).
  { destruct after as [u m]. cbn [Project.source_code_files
                                  Project.all_functions] in *.
    subst units'. rewrite Hmap. now rewrite (snapshot_collect _ _ Hsame). }
  rewrite <- Hafter in He.
  apply func_dict_of_fields in He as (Hname & Huses & Hdepth & _).
  exists (Project.collect_all_functions units'), f.
  split; [exact Hmap|]. split; [|split].
  - assert (Hin : In r0 (Dict.values (Project.collect_refs units)))
      by (rewrite Ev; apply in_or_app; right; now left).
    apply in_map_iff in Hin as ([k r] & Hr & Hin). cbn [snd] in Hr. subst r.
    pose proof (refs_rel units') as Hrel.
    rewrite <- (collect_refs_same_units _ _ Hsame) in Hrel.
    destruct (dict_rel_in _ _ _ _ _ Hrel Hin) as (f' & Hin' & Hf').
    rewrite Hf in Hf'. injection Hf' as <-.
    rewrite Hname, (collect_in_name _ _ _ Hin').
    apply dict_in_get; [|exact Hin'].
    apply collect_keys_nodup. constructor.
  - now rewrite Huses, Hname.
  - exact Hdepth.
Qed.

Lemma last_record_metrics_witness :
  Project.dump_module_logic FunctionDefinition.set_iter_first
                            Samples.reached_first Samples.chain_project
  = Some (Ok (Samples.chain_after, Samples.chain_report 1))
  /\ exists all_functions f,
       Project.all_functions Samples.chain_after = Some all_functions
       /\ Dict.get all_functions "h" = Some f
       /\ 1 = Project.calculate_function_uses Samples.chain_after "h"
       /\ forall fuel,
            3 < fuel ->
            Project.calculate_function_depth fuel Samples.chain_after f = Ok 0.
Proof.
  split; [reflexivity|].
  exact (last_record_metrics
           FunctionDefinition.set_iter_first Samples.reached_first
           Samples.chain_project Samples.chain_after (Samples.chain_report 1)
           [ Samples.chain_record (Samples.chain_f true) 0 1 ["g"];
             Samples.chain_record (Samples.chain_g true) 1 1 ["h"] ]
           (Samples.chain_record Samples.chain_h 1 0 [])
           eq_refl eq_refl).
Defined.

(** X28: a second pass, on the project a first pass left, changes
    nothing in the project, and its report is right: the use count and
    the depth of every record are those a query on the project answers. *)
Theorem second_pass_metrics
        (set_iter : list FunctionDefinition.raw_callsite
                    -> list FunctionDefinition.raw_callsite)
        (reached_iter : list string -> list string)
        (self after : Project.t) (report : Project.report) :
  Project.dump_module_logic set_iter reached_iter self
  = Some (Ok (after, report)) ->
  exists report' all_functions,
    Project.dump_module_logic set_iter reached_iter after
    = Some (Ok (after, report'))
    /\ Project.all_functions after = Some all_functions
    /\ Forall2
         (fun item entry =>
            Project.functionName entry = fst item
            /\ Project.functionUses entry
               = Project.calculate_function_uses after (fst item)
            /\ forall fuel,
                 List.length (all_names after) < fuel ->
                 Project.calculate_function_depth fuel after (snd item)
                 = Ok (Project.functionDepth entry))
         all_functions
         (match Project.all_functions_elements report' with
          | Some func_list => func_list
          | None => []
          end).
Proof.
  intros H.
  destruct (dump_module_logic_inv _ _ _ _ _ H)
    as (l & E & Hsame & Hmap & _).
  pose proof (dump_module_logic_records _ _ _ _ report _ E) as Hrec.
  set (units' := Project.source_code_files after) in *.
  assert (Hafter : after
                   = Project.mk units'
                       (Some (Project.snapshot (Project.collect_refs units')
                                               units'))).
  { destruct after as [u m]. cbn [Project.source_code_files
                                  Project.all_functions] in *.
    subst units'. rewrite Hmap. now rewrite (snapshot_collect u u eq_refl). }
  destruct (dump_functions_again
              set_iter reached_iter
              (Dict.values (Project.collect_refs units'))
              (Project.collect_refs units') units')
    as (l' & Hl' & Hall).
  { intros r Hr. apply in_map_iff in Hr as ([k r'] & Hr & Hin).
    cbn [snd] in Hr. subst r'.
    destruct (dict_rel_in _ _ _ _ _ (refs_rel units') Hin) as (f & Hin' & Hf).
    exists f. split; [exact Hf|].
    rewrite (snapshot_collect units' units' eq_refl).
    destruct (Forall2_in_l _ _ _ _ Hrec Hin') as (entry & _ & _ & Hex & _).
    exact Hex. }
  rewrite <- Hafter in Hall.
  eexists. exists (Project.collect_all_functions units').
  split; [|split; [exact Hmap|]].
  - unfold Project.dump_module_logic. fold units'. rewrite Hl'.
    rewrite <- Hafter. reflexivity.
  - cbn [Project.all_functions_elements].
    assert (Hl : match (match l' with [] => None | _ :: _ => Some l' end) with
                 | Some func_list => func_list
                 | None => []
                 end = l') by now destruct l'.
    rewrite Hl.
    pose proof (dict_rel_values _ _ _ _ (refs_rel units') _ Hall) as Hboth.
    apply Forall2_with_in in Hboth.
    eapply Forall2_impl; [|exact Hboth]. cbn beta.
    intros [k f] entry ((r & Hr & f' & Hf' & He) & Hin & _).
    cbn [fst snd] in *. rewrite Hr in Hf'. injection Hf' as <-.
    apply func_dict_of_fields in He as (Hname & Huses & Hdepth & _).
    rewrite (collect_in_name _ _ _ Hin) in Hname, Huses.
    split; [exact Hname|]. split; [exact Huses | exact Hdepth].
Qed.

Lemma second_pass_metrics_witness :
  Project.dump_module_logic FunctionDefinition.set_iter_first
                            Samples.reached_first Samples.chain_project
  = Some (Ok (Samples.chain_after, Samples.chain_report 1))
  /\ Project.dump_module_logic FunctionDefinition.set_iter_first
                               Samples.reached_first Samples.chain_after
     = Some (Ok (Samples.chain_after, Samples.chain_report 2))
  /\ exists report' all_functions,
       Project.dump_module_logic FunctionDefinition.set_iter_first
                                 Samples.reached_first Samples.chain_after
       = Some (Ok (Samples.chain_after, report'))
       /\ Project.all_functions Samples.chain_after = Some all_functions
       /\ Forall2
            (fun item entry =>
               Project.functionName entry = fst item
               /\ Project.functionUses entry
                  = Project.calculate_function_uses Samples.chain_after
                                                    (fst item)
               /\ forall fuel,
                    List.length (all_names Samples.chain_after) < fuel ->
                    Project.calculate_function_depth
                      fuel Samples.chain_after (snd item)
                    = Ok (Project.functionDepth entry))
            all_functions
            (match Project.all_functions_elements report' with
             | Some func_list => func_list
             | None => []
             end).
Proof.
  split; [reflexivity|]. split; [reflexivity|].
  exact (second_pass_metrics
           FunctionDefinition.set_iter_first Samples.reached_first
           Samples.chain_project Samples.chain_after (Samples.chain_report 1)
           eq_refl).
Defined.
